(** * VanBusRx: the VAN bus packet receiver (src/VanBusRx.cpp)

    A shallow embedding of the receiver: the CRC engine ([_crc],
    [CheckCrc], [CheckCrcAndRepair]), the bit-timing decoder
    ([nBitsFromCycles]), the pin-change and timer interrupt handlers
    ([RxPinChangeIsr], [WaitAckIsr]) and the consumer side of the circular
    receive queue ([Receive]).

    Machine integers are modelled as [Z] with the wrap-around of their C
    type written out ([u8], [u16], [u32]); the packet buffer and the
    descriptor pool are lists read and updated by index; the pointers
    [_head] and [tail] into the pool are indices. *)

From Stdlib Require Import ZArith Lia Bool.
From stdpp Require Import base list.

Local Open Scope Z_scope.

(** ** Machine integers

    Truncation to [uint8_t] and [uint16_t] (the low 8 and 16 bits) and
    wrap-around of [uint32_t] arithmetic. *)
Definition u8 (z : Z) : Z := Z.land z 0xFF.
Definition u16 (z : Z) : Z := Z.land z 0xFFFF.
Definition u32 (z : Z) : Z := z mod 4294967296.

(** ** Data model (declared in VanBusRx.h) *)

Inductive PacketReadState_t :=
| VAN_RX_VACANT
| VAN_RX_SEARCHING
| VAN_RX_LOADING
| VAN_RX_WAITING_ACK
| VAN_RX_DONE.

Inductive PacketReadResult_t :=
| VAN_RX_PACKET_OK
| VAN_RX_ERROR_NBITS
| VAN_RX_ERROR_MANCHESTER
| VAN_RX_ERROR_MAX_PACKET.

Inductive PacketAck_t :=
| VAN_ACK
| VAN_NO_ACK.

Record TVanPacketRxDesc := mkDesc {
  bytes : list Z;
  size : Z;
  state : PacketReadState_t;
  result : PacketReadResult_t;
  ack : PacketAck_t;
  seqNo : Z;
  slot : Z
}.

Record TVanPacketRxQueue := mkQueue {
  pool : list TVanPacketRxDesc;
  _head : nat;
  tail : nat;
  _overrun : bool;
  lastMediaAccessAt : Z;
  count : Z;
  nCorrupt : Z;
  nRepaired : Z
}.

#[global] Instance PacketReadState_eq_dec : EqDecision PacketReadState_t.
Proof. solve_decision. Defined.

(** [bytes[i]] of a buffer; the C code never reads past the buffer on the
    inputs the theorems consider, the default is only there to make the
    function total. *)
Definition byte_at (bytes : list Z) (i : Z) : Z :=
  default 0 (bytes !! Z.to_nat i).

(** ** CRC engine *)

Definition VAN_CRC_POLYNOM : Z := 0x0F9D.

(** The body of the inner [for (j ...)] loop of [_crc] and [CheckCrc], on
    the pair of locals [(crc16, byte)]. *)
Definition crc_bit (st : Z * Z) : Z * Z :=
  let '(crc16, byte) := st in
  let bit := Z.land crc16 0x4000 in
  let bit := if Z.land byte 0x80 =? 0 then bit else Z.lxor bit 0x4000 in
  let byte := u8 (Z.shiftl byte 1) in
  let crc16 := u16 (Z.shiftl crc16 1) in
  let crc16 := if bit =? 0 then crc16 else Z.lxor crc16 VAN_CRC_POLYNOM in
  (crc16, byte).

(** One iteration of the outer loop: the eight inner iterations on
    [bytes[i]]. *)
Definition crc_byte (crc16 byte : Z) : Z :=
  fst (Nat.iter 8 crc_bit (crc16, byte)).

(** [for (int i = from; i < to; i++)] over the buffer. *)
Definition crc_loop (bytes : list Z) (from to : Z) (crc16 : Z) : Z :=
  fold_left (fun crc16 i => crc_byte crc16 (byte_at bytes i))
            (seqZ from (to - from)) crc16.

Definition _crc (bytes : list Z) (size : Z) : Z :=
  let crc16 := crc_loop bytes 1 (size - 2) 0x7FFF in
  let crc16 := Z.lxor crc16 0x7FFF in
  u16 (Z.shiftl crc16 1).

Definition Crc (d : TVanPacketRxDesc) : Z := _crc (bytes d) (size d).

Definition CheckCrc (d : TVanPacketRxDesc) : bool :=
  let crc16 := crc_loop (bytes d) 1 (size d) 0x7FFF in
  let crc16 := Z.land crc16 0x7FFF in
  crc16 =? 0x19B7.

Definition DataLen (d : TVanPacketRxDesc) : Z := size d - 5.

(** The payload length [DumpRaw] prints: [size - 5 < 0 ? 0 : size - 5]. *)
Definition DumpRaw_dataLen (d : TVanPacketRxDesc) : Z :=
  if size d - 5 <? 0 then 0 else size d - 5.

(** [Iden]: [bytes[1] << 4 | bytes[2] >> 4], returned as [uint16_t]. *)
Definition Iden (d : TVanPacketRxDesc) : Z :=
  u16 (Z.lor (Z.shiftl (byte_at (bytes d) 1) 4) (Z.shiftr (byte_at (bytes d) 2) 4)).

(** [CommandFlags]: [bytes[2] & 0x0F], returned as [uint8_t]. *)
Definition CommandFlags (d : TVanPacketRxDesc) : Z :=
  u8 (Z.land (byte_at (bytes d) 2) 0x0F).

Definition set_bytes (d : TVanPacketRxDesc) (bs : list Z) : TVanPacketRxDesc :=
  mkDesc bs (size d) (state d) (result d) (ack d) (seqNo d) (slot d).

(** [bytes[atByte] ^= mask] with [uint8_t mask = 1 << atBit]. *)
Definition flip (bs : list Z) (atByte : nat) (atBit : Z) : list Z :=
  let mask := u8 (Z.shiftl 1 atBit) in
  <[atByte := u8 (Z.lxor (byte_at bs (Z.of_nat atByte)) mask)]> bs.

Definition set_size (d : TVanPacketRxDesc) (n : Z) : TVanPacketRxDesc :=
  mkDesc (bytes d) n (state d) (result d) (ack d) (seqNo d) (slot d).
Definition set_state (d : TVanPacketRxDesc) (st : PacketReadState_t) : TVanPacketRxDesc :=
  mkDesc (bytes d) (size d) st (result d) (ack d) (seqNo d) (slot d).
Definition set_result (d : TVanPacketRxDesc) (r : PacketReadResult_t) : TVanPacketRxDesc :=
  mkDesc (bytes d) (size d) (state d) r (ack d) (seqNo d) (slot d).
Definition set_ack (d : TVanPacketRxDesc) (a : PacketAck_t) : TVanPacketRxDesc :=
  mkDesc (bytes d) (size d) (state d) (result d) a (seqNo d) (slot d).
Definition set_slot (d : TVanPacketRxDesc) (n : Z) : TVanPacketRxDesc :=
  mkDesc (bytes d) (size d) (state d) (result d) (ack d) (seqNo d) n.

Definition set_pool (q : TVanPacketRxQueue) (p : list TVanPacketRxDesc) : TVanPacketRxQueue :=
  mkQueue p (_head q) (tail q) (_overrun q) (lastMediaAccessAt q) (count q)
          (nCorrupt q) (nRepaired q).
Definition set_head (q : TVanPacketRxQueue) (h : nat) : TVanPacketRxQueue :=
  mkQueue (pool q) h (tail q) (_overrun q) (lastMediaAccessAt q) (count q)
          (nCorrupt q) (nRepaired q).
Definition set_tail (q : TVanPacketRxQueue) (t : nat) : TVanPacketRxQueue :=
  mkQueue (pool q) (_head q) t (_overrun q) (lastMediaAccessAt q) (count q)
          (nCorrupt q) (nRepaired q).
Definition set_overrun (q : TVanPacketRxQueue) (b : bool) : TVanPacketRxQueue :=
  mkQueue (pool q) (_head q) (tail q) b (lastMediaAccessAt q) (count q)
          (nCorrupt q) (nRepaired q).
Definition set_lastMediaAccessAt (q : TVanPacketRxQueue) (t : Z) : TVanPacketRxQueue :=
  mkQueue (pool q) (_head q) (tail q) (_overrun q) t (count q)
          (nCorrupt q) (nRepaired q).
Definition set_count (q : TVanPacketRxQueue) (n : Z) : TVanPacketRxQueue :=
  mkQueue (pool q) (_head q) (tail q) (_overrun q) (lastMediaAccessAt q) n
          (nCorrupt q) (nRepaired q).
Definition set_nCorrupt (q : TVanPacketRxQueue) (n : Z) : TVanPacketRxQueue :=
  mkQueue (pool q) (_head q) (tail q) (_overrun q) (lastMediaAccessAt q) (count q)
          n (nRepaired q).
Definition set_nRepaired (q : TVanPacketRxQueue) (n : Z) : TVanPacketRxQueue :=
  mkQueue (pool q) (_head q) (tail q) (_overrun q) (lastMediaAccessAt q) (count q)
          (nCorrupt q) n.

(** The inner [for (atBit ...)] loop of [CheckCrcAndRepair] at byte
    [atByte], over the remaining bit indices; [true] is the early
    [return true], otherwise every flip has been flipped back. *)
Fixpoint repair_bits (atByte : nat) (atBits : list Z) (d : TVanPacketRxDesc)
  : bool * TVanPacketRxDesc :=
  match atBits with
  | [] => (false, d)
  | atBit :: rest =>
      let d := set_bytes d (flip (bytes d) atByte atBit) in
      if CheckCrc d then (true, d)
      else
        let d := set_bytes d (flip (bytes d) atByte atBit) in
        repair_bits atByte rest d
  end.

(** The outer [for (atByte ...)] loop. *)
Fixpoint repair_bytes (atBytes : list nat) (d : TVanPacketRxDesc)
  : bool * TVanPacketRxDesc :=
  match atBytes with
  | [] => (false, d)
  | atByte :: rest =>
      let '(found, d) := repair_bits atByte (seqZ 0 8) d in
      if found then (true, d) else repair_bytes rest d
  end.

(** [CheckCrcAndRepair] on a packet [d], with the statistics counters of
    the global [VanBusRx] threaded through. *)
Definition CheckCrcAndRepair (q : TVanPacketRxQueue) (d : TVanPacketRxDesc)
  : bool * TVanPacketRxDesc * TVanPacketRxQueue :=
  if CheckCrc d then (true, d, q)
  else
    let q := set_nCorrupt q (u32 (nCorrupt q + 1)) in
    let '(found, d) := repair_bytes (seq 0 (Z.to_nat (size d))) d in
    if found then (true, d, set_nRepaired q (u32 (nRepaired q + 1)))
    else (false, d, q).

(** The local [uint32_t overallCorrupt = nCorrupt - nRepaired] that
    [DumpStats] prints as the overall number of corrupt packets. *)
Definition DumpStats_overallCorrupt (q : TVanPacketRxQueue) : Z :=
  u32 (nCorrupt q - nRepaired q).

(** ** Decoder state

    The function-local statics of [RxPinChangeIsr]. *)
Record IsrStatics := mkStatics {
  prevPinLevelChangedTo : Z;
  prev : Z;
  jitter : Z;
  atBit : Z;
  readBits : Z
}.

(** The whole receiver: the global [VanBusRx], the statics of the pin
    interrupt handler, and hardware timer 1, of which only whether it is
    armed as the one-shot acknowledge timeout (handler [WaitAckIsr]) is
    kept. *)
Record System := mkSystem {
  VanBusRx : TVanPacketRxQueue;
  isr : IsrStatics;
  ackTimerArmed : bool
}.

#[global] Instance TVanPacketRxDesc_inhabited : Inhabited TVanPacketRxDesc :=
  populate (mkDesc [] 0 VAN_RX_VACANT VAN_RX_PACKET_OK VAN_NO_ACK 0 0).

(** [*_head] and [*tail]. *)
Definition head_desc (q : TVanPacketRxQueue) : TVanPacketRxDesc :=
  pool q !!! _head q.
Definition tail_desc (q : TVanPacketRxQueue) : TVanPacketRxDesc :=
  pool q !!! tail q.

(** A write through the pointer [_head] (or [rxDesc], which aliases it). *)
Definition upd_head (f : TVanPacketRxDesc -> TVanPacketRxDesc)
  (q : TVanPacketRxQueue) : TVanPacketRxQueue :=
  set_pool q (alter f (_head q) (pool q)).
Definition upd_tail (f : TVanPacketRxDesc -> TVanPacketRxDesc)
  (q : TVanPacketRxQueue) : TVanPacketRxQueue :=
  set_pool q (alter f (tail q) (pool q)).

(** ** Units and runs of bits, as the pin interrupt handler reads them *)

(** The value of a sequence of bits, most significant first: what
    [readBits] holds once the bits have been shifted in. *)
Definition bits_value (bs : list bool) : Z :=
  fold_left (fun z (b : bool) => 2 * z + (if b then 1 else 0)) bs 0.

(** The ten bits of a unit [currentByte], in the order they arrive. *)
Definition unit_bits (u : Z) : list bool :=
  Z.testbit u <$> [9; 8; 7; 6; 5; 4; 3; 2; 1; 0].

(** [readByte] as the handler computes it from [currentByte]:
    [(currentByte >> 2 & 0xF0) | (currentByte >> 1 & 0x0F)]. *)
Definition unit_byte (currentByte : Z) : Z :=
  u8 (Z.lor (Z.land (Z.shiftr currentByte 2) 0xF0)
            (Z.land (Z.shiftr currentByte 1) 0x0F)).

(** The two Manchester bits of a unit, as the check the handler leaves
    disabled reads them: bit 5 is the inverse of bit 6 and bit 0 the
    inverse of bit 1. *)
Definition manchester_unit (u : Z) : bool :=
  (0 <=? u) && (u <? 1024)
  && negb (Bool.eqb (Z.testbit u 5) (Z.testbit u 6))
  && negb (Bool.eqb (Z.testbit u 0) (Z.testbit u 1)).

(** The unit that ends the data: its first Manchester bit is in order and
    its last two bits are zero, which is what the handler tests with
    [(currentByte & 0x003) == 0]. *)
Definition eod_unit (u : Z) : bool :=
  (0 <=? u) && (u <? 1024)
  && negb (Bool.eqb (Z.testbit u 5) (Z.testbit u 6))
  && (Z.land u 0x003 =? 0).

(** A train of runs [(bit, length)], and the bits it stands for. *)
Definition expand (runs : list (bool * Z)) : list bool :=
  concat ((fun r : bool * Z => replicate (Z.to_nat r.2) r.1) <$> runs).

(** The runs alternate, starting with the bit [v], and none is empty. *)
Fixpoint alternating (v : bool) (runs : list (bool * Z)) : bool :=
  match runs with
  | [] => true
  | r :: runs => Bool.eqb r.1 v && (1 <=? r.2) && alternating (negb v) runs
  end.

Section Receiver.

(** Constants of VanBusRx.h, which is not part of the sources: the CPU
    clock factor [F_CPU / 80000000], the buffer capacity, the queue depth,
    and the pin levels. *)
Variable CPU_F_FACTOR : Z.
Variable VAN_MAX_PACKET_SIZE : Z.
Variable VAN_RX_QUEUE_SIZE : nat.
Variable VAN_LOGICAL_LOW : Z.
Variable VAN_BIT_RECESSIVE : Z.

(** ** Bit-timing decoder

    [nBitsFromCycles nCycles jitter] returns the number of bits and the new
    value of the reference parameter [jitter]. *)
Definition nBitsFromCycles (nCycles jitter : Z) : Z * Z :=
  let nCycles := u32 (nCycles + jitter) in
  let jitter := 0 in
  if nCycles <? 1124 * CPU_F_FACTOR then
    (1, if nCycles >? 800 * CPU_F_FACTOR
        then u32 (nCycles - 800 * CPU_F_FACTOR) else jitter)
  else if nCycles <? 1744 * CPU_F_FACTOR then
    (2, if nCycles >? 1380 * CPU_F_FACTOR
        then u32 (nCycles - 1380 * CPU_F_FACTOR) else jitter)
  else if nCycles <? 2383 * CPU_F_FACTOR then
    (3, if nCycles >? 2100 * CPU_F_FACTOR
        then u32 (nCycles - 2100 * CPU_F_FACTOR) else jitter)
  else if nCycles <? 3045 * CPU_F_FACTOR then
    (4, if nCycles >? 2655 * CPU_F_FACTOR
        then u32 (nCycles - 2655 * CPU_F_FACTOR) else jitter)
  else if nCycles <? 3665 * CPU_F_FACTOR then
    (5, if nCycles >? 3300 * CPU_F_FACTOR
        then u32 (nCycles - 3300 * CPU_F_FACTOR) else jitter)
  else
    let nBits := u32 (u32 (nCycles + 300 * CPU_F_FACTOR) / 650 * CPU_F_FACTOR) in
    (nBits, jitter).

(** ** Queue operations declared in VanBusRx.h *)

(** Modelled from the spec: [TVanPacketRxQueue::_AdvanceHead], defined in
    VanBusRx.h, which is not part of the sources. "Advances the queue head
    (marks current slot DONE, promotes next pool slot to become the new
    producer target)", the head wrapping "modulo capacity"; the frame then
    counts as "fully received", so the monotonic [count] goes up by one. *)
Definition _AdvanceHead (q : TVanPacketRxQueue) : TVanPacketRxQueue :=
  let q := upd_head (fun d => set_state d VAN_RX_DONE) q in
  let q := set_count q (u32 (count q + 1)) in
  set_head q (if decide (S (_head q) = VAN_RX_QUEUE_SIZE) then 0%nat
              else S (_head q)).

(** Modelled from the spec: [TVanPacketRxQueue::AdvanceTail], defined in
    VanBusRx.h: "advances tail", "wrapping modulo capacity". *)
Definition AdvanceTail (q : TVanPacketRxQueue) : TVanPacketRxQueue :=
  set_tail q (if decide (S (tail q) = VAN_RX_QUEUE_SIZE) then 0%nat
              else S (tail q)).

(** Modelled from the spec: [TVanPacketRxDesc::Init], defined in
    VanBusRx.h: the consumer "explicitly re-initializes" the drained slot
    "to VACANT"; the byte count, the decode result and the acknowledge
    field go back to their initial values, the buffer itself is kept. *)
Definition Init (d : TVanPacketRxDesc) : TVanPacketRxDesc :=
  mkDesc (bytes d) 0 VAN_RX_VACANT VAN_RX_PACKET_OK VAN_NO_ACK (seqNo d) (slot d).

(** Modelled from the spec: [TVanPacketRxQueue::Available], defined in
    VanBusRx.h: "true iff the slot at tail is DONE". *)
Definition Available (q : TVanPacketRxQueue) : bool :=
  bool_decide (state (tail_desc q) = VAN_RX_DONE).

(** Modelled from the spec: the accessors [IsQueueOverrun] and
    [ClearQueueOverrun] of VanBusRx.h, which report and clear the latched
    overrun flag. *)
Definition IsQueueOverrun (q : TVanPacketRxQueue) : bool := _overrun q.
Definition ClearQueueOverrun (q : TVanPacketRxQueue) : TVanPacketRxQueue :=
  set_overrun q false.

(** [Receive(pkt, isQueueOverrun)]: [pkt] is the caller's packet,
    [isQueueOverrun] is [None] for a null pointer and [Some b] for a
    pointer to a [bool] that holds [b]. Returns the result, the caller's
    packet, the pointee and the queue. *)
Definition Receive (q : TVanPacketRxQueue) (pkt : TVanPacketRxDesc)
  (isQueueOverrun : option bool)
  : bool * TVanPacketRxDesc * option bool * TVanPacketRxQueue :=
  if negb (Available q) then (false, pkt, isQueueOverrun, q)
  else
    let pkt := tail_desc q in
    let '(isQueueOverrun, q) :=
      match isQueueOverrun with
      | Some _ => (Some (IsQueueOverrun q), ClearQueueOverrun q)
      | None => (None, q)
      end in
    let q := upd_tail Init q in
    let q := AdvanceTail q in
    (true, pkt, isQueueOverrun, q).

(** ** Interrupt handlers *)

(** [SetTxBitTimer]: [timer1_disable()] cancels the acknowledge timeout;
    the transmit-bit timer it may start instead is not modelled. *)
Definition SetTxBitTimer (s : System) : System :=
  mkSystem (VanBusRx s) (isr s) false.

Definition WaitAckIsr (s : System) : System :=
  let s := SetTxBitTimer s in
  mkSystem (_AdvanceHead (VanBusRx s)) (isr s) (ackTimerArmed s).

(** [RxPinChangeIsr], compiled without [VAN_RX_ISR_DEBUGGING].
    [pinLevelChangedTo] is what [GPIP(VanBusRx.pin)] reads and [curr] what
    [ESP.getCycleCount()] returns. *)
Definition RxPinChangeIsr (pinLevelChangedTo curr : Z) (s : System) : System :=
  let q := VanBusRx s in
  let st := isr s in
  if pinLevelChangedTo =? prevPinLevelChangedTo st then s
  else
    let prevPinLevelChangedTo := pinLevelChangedTo in
    let q := if pinLevelChangedTo =? VAN_BIT_RECESSIVE
             then set_lastMediaAccessAt q curr else q in
    let nCycles := u32 (curr - prev st) in
    let prev := curr in
    let bits_jitter := nBitsFromCycles nCycles (jitter st) in
    let nBits := bits_jitter.1 in
    let jitter := bits_jitter.2 in
    let state := state (head_desc q) in
    let q := upd_head (fun d => set_slot d (Z.of_nat (_head q))) q in
    let atBit := atBit st in
    let readBits := readBits st in
    match state with
    | VAN_RX_VACANT =>
        if pinLevelChangedTo =? VAN_LOGICAL_LOW then
          let q := upd_head (fun d =>
                     set_size (set_ack (set_state d VAN_RX_SEARCHING) VAN_NO_ACK) 0) q in
          mkSystem q (mkStatics prevPinLevelChangedTo prev jitter 0 0)
                   (ackTimerArmed s)
        else
          mkSystem q (mkStatics prevPinLevelChangedTo prev jitter atBit readBits)
                   (ackTimerArmed s)
    | VAN_RX_WAITING_ACK =>
        let q := upd_head (fun d => set_ack d VAN_ACK) q in
        mkSystem q (mkStatics prevPinLevelChangedTo prev jitter atBit readBits)
                 (ackTimerArmed s)
    | VAN_RX_DONE =>
        let q := set_overrun q true in
        mkSystem q (mkStatics prevPinLevelChangedTo prev jitter atBit readBits)
                 (ackTimerArmed s)
    | VAN_RX_SEARCHING | VAN_RX_LOADING =>
        if nBits >? 9 then
          if bool_decide (state = VAN_RX_SEARCHING) then
            let q := upd_head (fun d => set_size d 0) q in
            mkSystem q (mkStatics prevPinLevelChangedTo prev jitter 0 0)
                     (ackTimerArmed s)
          else
            let q := upd_head (fun d => set_result d VAN_RX_ERROR_NBITS) q in
            let q := _AdvanceHead q in
            mkSystem q (mkStatics prevPinLevelChangedTo prev jitter atBit readBits)
                     (ackTimerArmed s)
        else
          let eat := (nBits >? 1) && (u32 (atBit + nBits) =? 5) in
          let nBits := if eat then u32 (nBits - 1) else nBits in
          let jitter := if eat then 500 else jitter in
          let atBit := u32 (atBit + nBits) in
          let readBits := u16 (Z.shiftl readBits nBits) in
          let pattern :=
            if pinLevelChangedTo =? VAN_LOGICAL_LOW
            then u16 (Z.shiftl 1 nBits - 1) else 0 in
          let readBits := Z.lor readBits pattern in
          if atBit >=? 10 then
            let atBit := u32 (atBit - 10) in
            let currentByte := Z.shiftr readBits atBit in
            let load := fun (q : TVanPacketRxQueue) =>
              let readBits := Z.land readBits (Z.shiftl 1 atBit - 1) in
              let readByte :=
                u8 (Z.lor (Z.land (Z.shiftr currentByte 2) 0xF0)
                          (Z.land (Z.shiftr currentByte 1) 0x0F)) in
              let q := upd_head (fun d =>
                         set_size (set_bytes d (<[Z.to_nat (size d) := readByte]> (bytes d)))
                                  (size d + 1)) q in
              if Z.land currentByte 0x003 =? 0 then
                let q := upd_head (fun d => set_state d VAN_RX_WAITING_ACK) q in
                mkSystem q (mkStatics prevPinLevelChangedTo prev jitter atBit readBits)
                         true
              else if size (head_desc q) >=? VAN_MAX_PACKET_SIZE then
                let q := upd_head (fun d => set_result d VAN_RX_ERROR_MAX_PACKET) q in
                let q := _AdvanceHead q in
                mkSystem q (mkStatics prevPinLevelChangedTo prev jitter atBit readBits)
                         (ackTimerArmed s)
              else
                mkSystem q (mkStatics prevPinLevelChangedTo prev jitter atBit readBits)
                         (ackTimerArmed s) in
            if bool_decide (state = VAN_RX_SEARCHING) then
              if negb (currentByte =? 0x03D) then
                let q := upd_head (fun d => set_state d VAN_RX_VACANT) q in
                mkSystem q (mkStatics prevPinLevelChangedTo prev jitter atBit readBits)
                         (ackTimerArmed s)
              else load (upd_head (fun d => set_state d VAN_RX_LOADING) q)
            else load q
          else
            mkSystem q (mkStatics prevPinLevelChangedTo prev jitter atBit readBits)
                     (ackTimerArmed s)
    end.

(** ** Reachable states *)

(** The receiver after static initialisation: every slot of the pool is
    vacant with an empty buffer of [VAN_MAX_PACKET_SIZE] bytes, both queue
    pointers are at the first slot, no overrun is latched, the timer is off
    and the statics of [RxPinChangeIsr] hold their initialisers. The [slot]
    and [seqNo] fields are not initialised. *)
Definition vacant_desc (d : TVanPacketRxDesc) : Prop :=
  state d = VAN_RX_VACANT /\ size d = 0 /\ result d = VAN_RX_PACKET_OK /\
  ack d = VAN_NO_ACK /\ Z.of_nat (length (bytes d)) = VAN_MAX_PACKET_SIZE.

Definition power_on (s : System) : Prop :=
  length (pool (VanBusRx s)) = VAN_RX_QUEUE_SIZE /\
  Forall vacant_desc (pool (VanBusRx s)) /\
  _head (VanBusRx s) = 0%nat /\ tail (VanBusRx s) = 0%nat /\
  _overrun (VanBusRx s) = false /\
  ackTimerArmed s = false /\
  isr s = mkStatics VAN_BIT_RECESSIVE 0 0 0 0.

(** One atomic event: a pin interrupt, the acknowledge timer firing (only
    while it is armed), or a consumer call. *)
Inductive step : System -> System -> Prop :=
| step_pin pinLevel curr s :
    0 <= curr < 4294967296 ->
    step s (RxPinChangeIsr pinLevel curr s)
| step_timeout s :
    ackTimerArmed s = true ->
    step s (WaitAckIsr s)
| step_receive pkt isQueueOverrun s :
    step s (mkSystem (Receive (VanBusRx s) pkt isQueueOverrun).2
                     (isr s) (ackTimerArmed s))
| step_repair pkt s :
    step s (mkSystem (CheckCrcAndRepair (VanBusRx s) pkt).2
                     (isr s) (ackTimerArmed s)).

Inductive reachable : System -> Prop :=
| reachable_power_on s : power_on s -> reachable s
| reachable_step s s' : reachable s -> step s s' -> reachable s'.

(** ** Invariants of the reachable states *)

(** The pool has [VAN_RX_QUEUE_SIZE] slots and both pointers are inside. *)
Definition queue_wf (q : TVanPacketRxQueue) : Prop :=
  length (pool q) = VAN_RX_QUEUE_SIZE /\
  (_head q < VAN_RX_QUEUE_SIZE)%nat /\ (tail q < VAN_RX_QUEUE_SIZE)%nat.

(** Every slot that has left VACANT carries its own index in [slot]. *)
Definition slots_named (p : list TVanPacketRxDesc) : Prop :=
  forall i d, p !! i = Some d -> state d <> VAN_RX_VACANT -> slot d = Z.of_nat i.

(** Only the slot at [_head] can be in the middle of a frame. *)
Definition idle_elsewhere (q : TVanPacketRxQueue) : Prop :=
  forall i d, pool q !! i = Some d -> i <> _head q ->
    state d = VAN_RX_VACANT \/ state d = VAN_RX_DONE.

Definition inv (s : System) : Prop :=
  let q := VanBusRx s in
  queue_wf q /\ slots_named (pool q) /\ idle_elsewhere q /\
  (ackTimerArmed s = true -> state (head_desc q) = VAN_RX_WAITING_ACK) /\
  (state (head_desc q) = VAN_RX_SEARCHING \/ state (head_desc q) = VAN_RX_LOADING ->
   ack (head_desc q) = VAN_NO_ACK).

(** A genuine edge: the pin does not read the level recorded at the
    previous invocation. *)
Definition genuine_edge (pinLevelChangedTo : Z) (s : System) : Prop :=
  pinLevelChangedTo <> prevPinLevelChangedTo (isr s).

(** The run length [RxPinChangeIsr] classifies the edge at [curr] to. *)
Definition run_length (curr : Z) (s : System) : Z :=
  (nBitsFromCycles (u32 (curr - prev (isr s))) (jitter (isr s))).1.

(** What the interrupt handler keeps true of every slot: the buffer has
    its capacity, the byte count is within it and is zero until the first
    byte is stored, a frame being loaded has room for one more byte, a
    frame past the start-of-frame test begins with the byte 0x0E, and the
    result is an error only in a completed slot and never the Manchester
    error, which no enabled code assigns. *)
Definition desc_bounded (d : TVanPacketRxDesc) : Prop :=
  Z.of_nat (length (bytes d)) = VAN_MAX_PACKET_SIZE /\
  0 <= size d <= VAN_MAX_PACKET_SIZE /\
  (state d = VAN_RX_VACANT \/ state d = VAN_RX_SEARCHING -> size d = 0) /\
  (state d = VAN_RX_LOADING -> size d < VAN_MAX_PACKET_SIZE) /\
  (state d = VAN_RX_LOADING \/ state d = VAN_RX_WAITING_ACK \/
   state d = VAN_RX_DONE ->
   1 <= size d /\ bytes d !! 0%nat = Some 0x0E) /\
  (state d <> VAN_RX_DONE -> result d = VAN_RX_PACKET_OK) /\
  result d <> VAN_RX_ERROR_MANCHESTER.

(** The bit cursor stays below the ten bits of one unit and the shift
    register within its 16 bits. *)
Definition statics_bounded (st : IsrStatics) : Prop :=
  0 <= atBit st <= 9 /\ 0 <= readBits st < 65536.

Definition inv_bounds (s : System) : Prop :=
  Forall desc_bounded (pool (VanBusRx s)) /\
  statics_bounded (isr s) /\
  (state (head_desc (VanBusRx s)) = VAN_RX_WAITING_ACK -> ackTimerArmed s = true).

(** ** Feeding a train of runs to the pin interrupt handler

    [feed_runs high runs t s]: from the cycle count [t] on, each run lasts
    its number of bit times of 640 cycles at 80 MHz ([640 * CPU_F_FACTOR]
    cycles), and at its end the pin changes to the opposite level: to
    [VAN_LOGICAL_LOW] after a run of ones, to [high] after a run of
    zeros. *)
Fixpoint feed_runs (high : Z) (runs : list (bool * Z)) (t : Z) (s : System)
  : System :=
  match runs with
  | [] => s
  | r :: runs =>
      let t := u32 (t + 640 * CPU_F_FACTOR * r.2) in
      feed_runs high runs t
        (RxPinChangeIsr (if r.1 then VAN_LOGICAL_LOW else high) t s)
  end.

(** The head slot [h] in the middle of a frame: the units [done] have
    been stored, the bits [w] of the next unit have been shifted in, the
    pin was last seen at [level] at the cycle count [t], and no jitter is
    carried over. *)
Definition decoding (s : System) (h : nat) (done : list Z) (w : list bool)
  (level t : Z) : Prop :=
  let d := head_desc (VanBusRx s) in
  _head (VanBusRx s) = h /\
  state d = match done with [] => VAN_RX_SEARCHING | _ => VAN_RX_LOADING end /\
  size d = Z.of_nat (length done) /\
  take (length done) (bytes d) = unit_byte <$> done /\
  ack d = VAN_NO_ACK /\
  atBit (isr s) = Z.of_nat (length w) /\
  readBits (isr s) = bits_value w /\
  (length w < 10)%nat /\
  jitter (isr s) = 0 /\ prev (isr s) = t /\
  prevPinLevelChangedTo (isr s) = level.

End Receiver.

(** ** The CRC in the words of the specification

    "A 15-bit CRC ... polynomial value 0x0F9D, initial register 0x7FFF,
    processing each byte most-significant-bit first, XOR-ing the polynomial
    into the shifted register whenever the shifted-out bit and the current
    input bit disagree." *)
Definition crc15_bit (reg : Z) (inbit : bool) : Z :=
  let shifted_out := Z.testbit reg 14 in
  let reg := Z.land (Z.shiftl reg 1) 0x7FFF in
  if xorb shifted_out inbit then Z.lxor reg 0x0F9D else reg.

Definition bits_msb_first (byte : Z) : list bool :=
  Z.testbit byte <$> [7; 6; 5; 4; 3; 2; 1; 0].

Definition crc15_byte (reg byte : Z) : Z :=
  fold_left crc15_bit (bits_msb_first byte) reg.

Definition crc15 (data : list Z) : Z :=
  fold_left crc15_byte data 0x7FFF.

(** The bytes of a frame the compute variant runs over (all but the first
    byte and the two trailing CRC bytes) and those the verify variant runs
    over (all but the first byte). *)
Definition crc_payload (bs : list Z) (size : Z) : list Z :=
  take (Z.to_nat (size - 3)) (drop 1 bs).
Definition crc_covered (bs : list Z) (size : Z) : list Z :=
  take (Z.to_nat (size - 1)) (drop 1 bs).

(** The trailing two bytes of the frame hold the computed CRC, high byte
    first. *)
Definition crc_valid (d : TVanPacketRxDesc) : Prop :=
  byte_at (bytes d) (size d - 2) = Z.shiftr (Crc d) 8 /\
  byte_at (bytes d) (size d - 1) = Z.land (Crc d) 0xFF.

(** A buffer of [uint8_t]. *)
Definition is_bytes (bs : list Z) : Prop := Forall (fun b => 0 <= b < 256) bs.

(** ** Auxiliary definitions of the proofs *)

(** The register update of [crc_bit] as a function of the tested bit of
    [byte]. *)
Definition crc16_bit (crc16 : Z) (top : bool) : Z :=
  let bit := Z.land crc16 0x4000 in
  let bit := if top then Z.lxor bit 0x4000 else bit in
  let crc16 := u16 (Z.shiftl crc16 1) in
  if bit =? 0 then crc16 else Z.lxor crc16 VAN_CRC_POLYNOM.

(** Bounded universal quantification over [z0, z0 + n), by computation. *)
Fixpoint allZ_from (P : Z -> bool) (n : nat) (z : Z) : bool :=
  match n with
  | O => true
  | S n => P z && allZ_from P n (z + 1)
  end.
Definition allZ (P : Z -> bool) (n : Z) : bool := allZ_from P (Z.to_nat n) 0.

Definition byte_tops (b : Z) : list bool :=
  (fun x => negb (Z.land x 0x80 =? 0)) <$>
    [b; Nat.iter 1 (fun x => u8 (Z.shiftl x 1)) b;
     Nat.iter 2 (fun x => u8 (Z.shiftl x 1)) b;
     Nat.iter 3 (fun x => u8 (Z.shiftl x 1)) b;
     Nat.iter 4 (fun x => u8 (Z.shiftl x 1)) b;
     Nat.iter 5 (fun x => u8 (Z.shiftl x 1)) b;
     Nat.iter 6 (fun x => u8 (Z.shiftl x 1)) b;
     Nat.iter 7 (fun x => u8 (Z.shiftl x 1)) b].

Definition byte_tops_ok (b : Z) : bool :=
  bool_decide (byte_tops b = bits_msb_first b).

Definition crc16_bit_ok (r : Z) : bool :=
  forallb (fun t =>
    (0 <=? crc16_bit r t) && (crc16_bit r t <? 65536) &&
    (Z.land (crc16_bit r t) 0x7FFF =? crc15_bit (Z.land r 0x7FFF) t))
    [true; false].

(** The wire form of the register: what [_crc] does after its loop. *)
Definition crc_final_ok (r : Z) : bool :=
  u16 (Z.shiftl (Z.lxor r 0x7FFF) 1)
  =? Z.shiftl (Z.lxor (Z.land r 0x7FFF) 0x7FFF) 1.

Definition crc15_bit_range_ok (r : Z) : bool :=
  forallb (fun t => (0 <=? crc15_bit r t) && (crc15_bit r t <? 32768))
          [true; false].

Definition flip_byte_ok (b : Z) : bool :=
  allZ (fun j =>
    let m := Z.shiftl 1 j in
    (u8 (Z.lxor b (u8 m)) =? Z.lxor b m) &&
    (0 <=? Z.lxor b m) && (Z.lxor b m <? 256)) 8.

(** The change of the final register caused by flipping bit [j] of a byte
    that is followed by [a] more bytes. *)
Definition syndrome (a : nat) (j : Z) : Z :=
  Nat.iter a (fun r => crc15_byte r 0) (crc15_byte 0 (Z.shiftl 1 j)).

(** The syndromes of the bit flips in the last [n] bytes of a frame, row
    by row: the row of the last byte first. *)
Fixpoint syndrome_rows (n : nat) (row : list Z) : list Z :=
  match n with
  | O => []
  | S n => row ++ syndrome_rows n ((fun r => crc15_byte r 0) <$> row)
  end.

Definition syndromes (n : nat) : list Z :=
  syndrome_rows n ((fun j => crc15_byte 0 (Z.shiftl 1 j)) <$> seqZ 0 8).

Fixpoint nodupb (l : list Z) : bool :=
  match l with
  | [] => true
  | x :: r => negb (existsb (Z.eqb x) r) && nodupb r
  end.

(** No single byte takes the initial register to the residue. *)
Definition one_byte_frame_ok (b : Z) : bool :=
  negb (crc15_byte 0x7FFF b =? 0x19B7).

(** The identifier and the flags against the 16-bit field they are cut
    from. *)
Definition iden_flags_ok (b1 : Z) : bool :=
  allZ (fun b2 =>
    let i := u16 (Z.lor (Z.shiftl b1 4) (Z.shiftr b2 4)) in
    let f := u8 (Z.land b2 0x0F) in
    (0 <=? i) && (i <? 4096) && (0 <=? f) && (f <? 16)
    && (16 * i + f =? 256 * b1 + b2)) 256.

(** A packet that can be checked: a buffer of bytes that holds at least
    [size] of them. *)
Definition wf_packet (d : TVanPacketRxDesc) : Prop :=
  is_bytes (bytes d) /\ size d <= Z.of_nat (length (bytes d)).

(** ** Concrete inputs *)

(** A seven-byte frame: start byte 0x0E, identifier 0x8A4, flags 0x8, two
    data bytes and the CRC 0x9486. *)
Definition example_packet : TVanPacketRxDesc :=
  mkDesc [0x0E; 0x8A; 0x48; 0x0F; 0x07; 0x94; 0x86] 7
         VAN_RX_DONE VAN_RX_PACKET_OK VAN_NO_ACK 0 0.

(** A frame of 225 bytes, all zero but for its trailing CRC. *)
Definition long_bytes : list Z :=
  let zeros := replicate 225 0 in
  <[224%nat := Z.land (_crc zeros 225) 0xFF]>
    (<[223%nat := Z.shiftr (_crc zeros 225) 8]> zeros).

Definition long_packet : TVanPacketRxDesc :=
  mkDesc long_bytes 225 VAN_RX_DONE VAN_RX_PACKET_OK VAN_NO_ACK 0 0.

Definition empty_desc : TVanPacketRxDesc :=
  mkDesc (replicate 32 0) 0 VAN_RX_VACANT VAN_RX_PACKET_OK VAN_NO_ACK 0 0.

(** A receiver with three slots of 32 bytes just after start-up. *)
Definition example_queue : TVanPacketRxQueue :=
  mkQueue (replicate 3 empty_desc) 0 0 false 0 0 0 0.

Definition example_system : System :=
  mkSystem example_queue (mkStatics 1 0 0 0 0) false.

(** [run_runs runs t s]: starting at cycle count [t], the pin changes to
    each listed level after the listed number of bit times (640 cycles at
    80 MHz); the receiver has three slots of 32 bytes, the dominant level
    (logical low) reads 0 and the recessive level 1. *)
Fixpoint run_runs (runs : list (Z * Z)) (t : Z) (s : System) : System :=
  match runs with
  | [] => s
  | (level, n) :: runs =>
      run_runs runs (t + 640 * n)
               (RxPinChangeIsr 1 32 3 0 1 level (t + 640 * n) s)
  end.

(** The start-of-frame unit 0000111101 has been read: the head slot is
    LOADING and holds the start byte. *)
Definition example_loading : System :=
  run_runs [(0, 1000); (1, 4); (0, 4); (1, 1); (0, 1)] 0 example_system.

(** The start-of-frame unit and the unit 1011 0 0010 1 of the byte 0xB2
    have been read, and all but the last two bits of the end-of-data unit
    0101 0 1010 0: the head slot is LOADING. *)
Definition example_before_eod : System :=
  run_runs [(0, 1000); (1, 4); (0, 4); (1, 1); (0, 2); (1, 1); (0, 2); (1, 3);
            (0, 1); (1, 1); (0, 1); (1, 1); (0, 1); (1, 1); (0, 1); (1, 1);
            (0, 1); (1, 1); (0, 1)] 0
           example_system.

(** The same frame once the last two zero bits of the end-of-data unit
    have been read, at cycle count 659200: the head slot is WAITING_ACK
    and the timer is armed. *)
Definition example_waiting_ack : System :=
  RxPinChangeIsr 1 32 3 0 1 1 659200 example_before_eod.

(** Searching for a start of frame, two bits into the unit. *)
Definition example_searching : System :=
  run_runs [(0, 1000); (1, 2)] 0 example_system.

(** All three slots hold a frame that was cut short by an overlong run
    right after its start byte; the head slot is DONE. *)
Definition example_full : System :=
  run_runs [(0, 1000); (1, 4); (0, 4); (1, 1); (0, 1); (1, 20);
            (0, 20); (1, 4); (0, 4); (1, 1); (0, 1); (1, 20);
            (0, 20); (1, 4); (0, 4); (1, 1); (0, 1); (1, 20)] 0
           example_system.

(** The queue is full and one more edge has arrived: the overrun flag is
    latched. *)
Definition example_overrun : System :=
  RxPinChangeIsr 1 32 3 0 1 0 723840 example_full.


(** The runs of the frame made of the start-of-frame unit, the unit
    1011 0 0010 1 of the byte 0xB2 and the end-of-data unit
    0101 0 1010 0. *)
Definition example_frame_runs : list (bool * Z) :=
  [(false, 4); (true, 4); (false, 1); (true, 2); (false, 1); (true, 2);
   (false, 3); (true, 1); (false, 1); (true, 1); (false, 1); (true, 1);
   (false, 1); (true, 1); (false, 1); (true, 1); (false, 1); (true, 1);
   (false, 2)].

(** At 160 MHz (clock factor 2), the start-of-frame unit has been read:
    the head slot is LOADING. *)
Definition example_loading_fast : System :=
  feed_runs 2 32 3 0 1 1 [(false, 4); (true, 4); (false, 1); (true, 1)] 100000
            (RxPinChangeIsr 2 32 3 0 1 0 100000 example_system).

(** Every edge of [run_runs runs t] happens at a cycle count that fits
    the 32-bit counter. *)
Fixpoint runs_ok (runs : list (Z * Z)) (t : Z) : bool :=
  match runs with
  | [] => true
  | (_, n) :: runs =>
      (0 <=? t + 640 * n) && (t + 640 * n <? 4294967296)
      && runs_ok runs (t + 640 * n)
  end.

(** * Proofs *)

(** ** Bounded quantification by computation *)

Lemma allZ_from_spec P n z0 :
  allZ_from P n z0 = true -> forall z, z0 <= z < z0 + Z.of_nat n -> P z = true.
Proof.
  revert z0. induction n as [|n IH]; intros z0 H z Hz; [lia|].
  simpl in H. apply andb_true_iff in H as [H1 H2].
  destruct (decide (z = z0)) as [->|Hne]; [done|].
  apply (IH _ H2). lia.
Qed.

Lemma allZ_spec P n : allZ P n = true -> forall z, 0 <= z < n -> P z = true.
Proof. intros H z Hz. apply (allZ_from_spec _ _ _ H). lia. Qed.

Lemma byte_tops_all : allZ byte_tops_ok 256 = true.
Proof. vm_compute. reflexivity. Qed.

Lemma crc16_bit_all : allZ crc16_bit_ok 65536 = true.
Proof. vm_compute. reflexivity. Qed.

Lemma crc_final_all : allZ crc_final_ok 65536 = true.
Proof. vm_compute. reflexivity. Qed.

(** Running the register over its own wire form leaves 0x19B7. *)
Lemma crc_residue_all :
  allZ (fun r =>
    crc15_byte (crc15_byte r (Z.shiftr (Z.shiftl (Z.lxor r 0x7FFF) 1) 8))
               (Z.land (Z.shiftl (Z.lxor r 0x7FFF) 1) 0xFF) =? 0x19B7) 32768
  = true.
Proof. vm_compute. reflexivity. Qed.

Lemma crc_residue r :
  0 <= r < 32768 ->
  crc15_byte (crc15_byte r (Z.shiftr (Z.shiftl (Z.lxor r 0x7FFF) 1) 8))
             (Z.land (Z.shiftl (Z.lxor r 0x7FFF) 1) 0xFF) = 0x19B7.
Proof.
  intros Hr. apply Z.eqb_eq. exact (allZ_spec _ _ crc_residue_all r Hr).
Qed.

Lemma crc15_bit_range_all : allZ crc15_bit_range_ok 32768 = true.
Proof. vm_compute. reflexivity. Qed.

Lemma flip_byte_all : allZ flip_byte_ok 256 = true.
Proof. vm_compute. reflexivity. Qed.

Lemma syndromes_nodup : nodupb (0 :: syndromes 223) = true.
Proof. vm_compute. reflexivity. Qed.

Lemma bool_cases (t : bool) : In t [true; false].
Proof. destruct t; simpl; auto. Qed.

(** ** The code's 16-bit register against the 15-bit register of the
    specification *)

Lemma crc_bit_top crc16 byte :
  crc_bit (crc16, byte) =
  (crc16_bit crc16 (negb (Z.land byte 0x80 =? 0)), u8 (Z.shiftl byte 1)).
Proof. unfold crc_bit, crc16_bit. by destruct (Z.land byte 128 =? 0). Qed.

Lemma crc_byte_fold crc16 b :
  0 <= b < 256 ->
  crc_byte crc16 b = fold_left crc16_bit (bits_msb_first b) crc16.
Proof.
  intros Hb. apply (allZ_spec _ _ byte_tops_all) in Hb.
  apply bool_decide_eq_true in Hb. rewrite <- Hb.
  unfold crc_byte, byte_tops.
  rewrite !Nat.iter_succ_r. rewrite !crc_bit_top. reflexivity.
Qed.

Lemma crc16_bit_spec r t :
  0 <= r < 65536 ->
  0 <= crc16_bit r t < 65536 /\
  Z.land (crc16_bit r t) 0x7FFF = crc15_bit (Z.land r 0x7FFF) t.
Proof.
  intros Hr. apply (allZ_spec _ _ crc16_bit_all) in Hr.
  unfold crc16_bit_ok in Hr. rewrite forallb_forall in Hr.
  specialize (Hr t (bool_cases t)). lia.
Qed.

Lemma crc16_bits_spec ts r :
  0 <= r < 65536 ->
  0 <= fold_left crc16_bit ts r < 65536 /\
  Z.land (fold_left crc16_bit ts r) 0x7FFF
  = fold_left crc15_bit ts (Z.land r 0x7FFF).
Proof.
  revert r. induction ts as [|t ts IH]; intros r Hr; simpl; [done|].
  destruct (crc16_bit_spec r t Hr) as [Hrange Heq].
  rewrite <- Heq. by apply IH.
Qed.

Lemma crc_byte_spec r b :
  0 <= r < 65536 -> 0 <= b < 256 ->
  0 <= crc_byte r b < 65536 /\
  Z.land (crc_byte r b) 0x7FFF = crc15_byte (Z.land r 0x7FFF) b.
Proof.
  intros Hr Hb. rewrite crc_byte_fold by done. by apply crc16_bits_spec.
Qed.

Lemma crc_bytes_spec bs r :
  is_bytes bs -> 0 <= r < 65536 ->
  0 <= fold_left crc_byte bs r < 65536 /\
  Z.land (fold_left crc_byte bs r) 0x7FFF
  = fold_left crc15_byte bs (Z.land r 0x7FFF).
Proof.
  intros Hbs. revert r. induction Hbs as [|b bs Hb Hbs IH]; intros r Hr; simpl; [done|].
  destruct (crc_byte_spec r b Hr Hb) as [Hrange Heq].
  rewrite <- Heq. by apply IH.
Qed.

(** The [for] loop reads the bytes [from .. to - 1] of the buffer. *)
Lemma crc_loop_fold bs from to r :
  0 <= from -> to <= Z.of_nat (length bs) ->
  crc_loop bs from to r
  = fold_left crc_byte (take (Z.to_nat (to - from)) (drop (Z.to_nat from) bs)) r.
Proof.
  unfold crc_loop. intros Hfrom Hto.
  remember (Z.to_nat (to - from)) as n eqn:Hn.
  revert from r Hfrom Hn. induction n as [|n IH]; intros from r Hfrom Hn.
  - rewrite seqZ_nil by lia. done.
  - rewrite seqZ_cons by lia. simpl.
    assert (Hlt : (Z.to_nat from < length bs)%nat) by lia.
    destruct (lookup_lt_is_Some_2 bs _ Hlt) as [x Hx].
    rewrite (drop_S _ _ _ Hx). simpl.
    replace (byte_at bs from) with x by (unfold byte_at; by rewrite Hx).
    replace (Z.pred (to - from)) with (to - Z.succ from) by lia.
    rewrite IH by lia.
    by replace (Z.to_nat (Z.succ from)) with (S (Z.to_nat from)) by lia.
Qed.

Lemma is_bytes_take_drop bs n m : is_bytes bs -> is_bytes (take n (drop m bs)).
Proof. unfold is_bytes. intros. by apply Forall_take, Forall_drop. Qed.

Lemma crc15_bit_range r t : 0 <= r < 32768 -> 0 <= crc15_bit r t < 32768.
Proof.
  intros Hr. apply (allZ_spec _ _ crc15_bit_range_all) in Hr.
  unfold crc15_bit_range_ok in Hr. rewrite forallb_forall in Hr.
  specialize (Hr t (bool_cases t)). lia.
Qed.

Lemma crc15_byte_range r b : 0 <= r < 32768 -> 0 <= crc15_byte r b < 32768.
Proof.
  unfold crc15_byte. generalize (bits_msb_first b). intros ts. revert r.
  induction ts as [|t ts IH]; intros r Hr; simpl; [done|].
  by apply IH, crc15_bit_range.
Qed.

Lemma crc15_bytes_range bs r :
  0 <= r < 32768 -> 0 <= fold_left crc15_byte bs r < 32768.
Proof.
  revert r. induction bs as [|b bs IH]; intros r Hr; simpl; [done|].
  by apply IH, crc15_byte_range.
Qed.

Lemma crc15_range bs : 0 <= crc15 bs < 32768.
Proof. apply crc15_bytes_range. lia. Qed.

Lemma land_15_small r : 0 <= r < 32768 -> Z.land r 0x7FFF = r.
Proof.
  intros Hr. change 0x7FFF with (Z.ones 15).
  rewrite Z.land_ones by lia. apply Z.mod_small. lia.
Qed.

(** [CheckCrc] in terms of the 15-bit register. *)
Lemma CheckCrc_crc15 d :
  is_bytes (bytes d) -> size d <= Z.of_nat (length (bytes d)) ->
  CheckCrc d = (crc15 (crc_covered (bytes d) (size d)) =? 0x19B7).
Proof.
  intros Hbs Hsz. unfold CheckCrc, crc_covered, crc15.
  rewrite crc_loop_fold by lia.
  pose proof (crc_bytes_spec (take (Z.to_nat (size d - 1)) (drop (Z.to_nat 1) (bytes d)))
                0x7FFF (is_bytes_take_drop _ _ _ Hbs)) as [_ Heq]; [lia|].
  rewrite Heq. done.
Qed.

Lemma _crc_crc15 bs size :
  is_bytes bs -> size <= Z.of_nat (length bs) ->
  _crc bs size = Z.shiftl (Z.lxor (crc15 (crc_payload bs size)) 0x7FFF) 1.
Proof.
  intros Hbs Hsz. unfold _crc, crc_payload, crc15.
  rewrite crc_loop_fold by lia.
  replace (size - 2 - 1) with (size - 3) by lia.
  pose proof (crc_bytes_spec (take (Z.to_nat (size - 3)) (drop (Z.to_nat 1) bs))
                0x7FFF (is_bytes_take_drop _ _ _ Hbs)) as [Hr Heq]; [lia|].
  apply (allZ_spec _ _ crc_final_all) in Hr. unfold crc_final_ok in Hr.
  apply Z.eqb_eq in Hr. rewrite Hr, Heq. done.
Qed.

(** ** Linearity of the CRC register over exclusive or *)

Lemma land_lxor_distr a b c :
  Z.land (Z.lxor a b) c = Z.lxor (Z.land a c) (Z.land b c).
Proof.
  apply Z.bits_inj'. intros n _.
  rewrite !Z.lxor_spec, !Z.land_spec, Z.lxor_spec.
  by destruct (Z.testbit a n), (Z.testbit b n), (Z.testbit c n).
Qed.

Lemma crc15_bit_xor r d a e :
  crc15_bit (Z.lxor r d) (xorb a e)
  = Z.lxor (crc15_bit r a) (crc15_bit d e).
Proof.
  unfold crc15_bit.
  rewrite Z.lxor_spec, Z.shiftl_lxor, land_lxor_distr.
  generalize (Z.land (Z.shiftl r 1) 32767) (Z.land (Z.shiftl d 1) 32767).
  intros x y.
  destruct (Z.testbit r 14), (Z.testbit d 14), a, e; simpl;
    rewrite ?Z.lxor_assoc; try reflexivity; f_equal;
    rewrite 1?(Z.lxor_comm 3997 y), 1?(Z.lxor_comm 3997 (Z.lxor y 3997));
    rewrite ?Z.lxor_assoc, ?Z.lxor_nilpotent, ?Z.lxor_0_r; reflexivity.
Qed.

Lemma crc15_byte_xor r d b m :
  crc15_byte (Z.lxor r d) (Z.lxor b m)
  = Z.lxor (crc15_byte r b) (crc15_byte d m).
Proof.
  unfold crc15_byte, bits_msb_first. cbn [fmap list_fmap fold_left].
  rewrite !Z.lxor_spec, !crc15_bit_xor. reflexivity.
Qed.

Lemma crc15_bytes_xor post s e :
  fold_left crc15_byte post (Z.lxor s e)
  = Z.lxor (fold_left crc15_byte post s)
           (Nat.iter (length post) (fun r => crc15_byte r 0) e).
Proof.
  revert s e. induction post as [|x post IH]; intros s e; [done|].
  cbn [fold_left length]. rewrite Nat.iter_succ_r.
  rewrite <- (Z.lxor_0_r x) at 1. rewrite crc15_byte_xor. apply IH.
Qed.

(** Flipping bit [j] of the byte at index [i] changes the final register
    by the syndrome of that position. *)
Lemma crc15_insert bs i b j :
  bs !! i = Some b ->
  crc15 (<[i := Z.lxor b (Z.shiftl 1 j)]> bs)
  = Z.lxor (crc15 bs) (syndrome (length bs - S i) j).
Proof.
  intros Hi. pose proof (lookup_lt_Some _ _ _ Hi) as Hlt.
  rewrite insert_take_drop by done.
  rewrite <- (length_drop bs (S i)).
  assert (crc15 bs = crc15 (take i bs ++ b :: drop (S i) bs)) as ->
    by (by rewrite take_drop_middle).
  unfold crc15. rewrite !fold_left_app. cbn [fold_left].
  set (r := fold_left crc15_byte (take i bs) 32767).
  rewrite <- (Z.lxor_0_r r) at 1. rewrite crc15_byte_xor.
  by rewrite crc15_bytes_xor.
Qed.

(** ** The syndrome table *)

Lemma nodupb_NoDup l : nodupb l = true -> NoDup l.
Proof.
  induction l as [|x l IH]; simpl; [constructor|].
  rewrite andb_true_iff, negb_true_iff. intros [Hx Hl].
  constructor; [|by apply IH].
  intros Hin. apply list_elem_of_In in Hin.
  assert (existsb (Z.eqb x) l = true); [|congruence].
  apply existsb_exists. exists x. split; [done|apply Z.eqb_refl].
Qed.

Lemma syndrome_rows_lookup n row a i :
  (a < n)%nat -> (i < length row)%nat ->
  syndrome_rows n row !! (length row * a + i)%nat
  = Nat.iter a (fun r => crc15_byte r 0) <$> row !! i.
Proof.
  revert row a. induction n as [|n IH]; intros row a Ha Hi; [lia|].
  cbn [syndrome_rows]. destruct a as [|a].
  - rewrite Nat.mul_0_r, Nat.add_0_l, lookup_app_l by done.
    by destruct (row !! i).
  - rewrite lookup_app_r by lia.
    replace (length row * S a + i - length row)%nat
      with (length ((fun r => crc15_byte r 0) <$> row) * a + i)%nat
      by (rewrite length_fmap; lia).
    rewrite IH by (rewrite ?length_fmap; lia).
    rewrite list_lookup_fmap. destruct (row !! i) as [z|]; [|done].
    cbn [fmap option_fmap option_map]. by rewrite Nat.iter_succ_r.
Qed.

Lemma syndromes_lookup n a j :
  (a < n)%nat -> 0 <= j < 8 ->
  syndromes n !! (8 * a + Z.to_nat j)%nat = Some (syndrome a j).
Proof.
  intros Ha Hj. unfold syndromes.
  pose proof (syndrome_rows_lookup n
    ((fun j => crc15_byte 0 (Z.shiftl 1 j)) <$> seqZ 0 8) a (Z.to_nat j) Ha) as H.
  rewrite length_fmap, length_seqZ in H. change (Z.to_nat 8) with 8%nat in H.
  rewrite H by lia. rewrite list_lookup_fmap.
  rewrite (lookup_seqZ_lt 0 8 (Z.to_nat j)) by lia.
  cbn [fmap option_fmap option_map]. by rewrite Z.add_0_l, Z2Nat.id by lia.
Qed.

Lemma syndrome_nonzero a j :
  (a < 223)%nat -> 0 <= j < 8 -> syndrome a j <> 0.
Proof.
  intros Ha Hj Hz.
  pose proof (nodupb_NoDup _ syndromes_nodup) as Hnd.
  apply NoDup_cons in Hnd as [Hnotin _]. apply Hnotin.
  apply list_elem_of_lookup. exists (8 * a + Z.to_nat j)%nat.
  rewrite <- Hz. by apply syndromes_lookup.
Qed.

Lemma syndrome_inj a j a' j' :
  (a < 223)%nat -> (a' < 223)%nat -> 0 <= j < 8 -> 0 <= j' < 8 ->
  syndrome a j = syndrome a' j' -> a = a' /\ j = j'.
Proof.
  intros Ha Ha' Hj Hj' Heq.
  pose proof (nodupb_NoDup _ syndromes_nodup) as Hnd.
  apply NoDup_cons in Hnd as [_ Hnd].
  pose proof (syndromes_lookup 223 a j Ha Hj) as H1.
  pose proof (syndromes_lookup 223 a' j' Ha' Hj') as H2.
  rewrite <- Heq in H2.
  pose proof (NoDup_lookup _ _ _ _ Hnd H1 H2). lia.
Qed.

(** ** Bit flips in a buffer *)

Lemma u8_range z : 0 <= u8 z < 256.
Proof.
  unfold u8. change 255 with (Z.ones 8). rewrite Z.land_ones by lia.
  apply Z.mod_pos_bound. lia.
Qed.

Lemma byte_at_lookup bs (k : nat) b :
  bs !! k = Some b -> byte_at bs (Z.of_nat k) = b.
Proof. intros H. unfold byte_at. by rewrite Nat2Z.id, H. Qed.

Lemma is_bytes_lookup bs (k : nat) b :
  is_bytes bs -> bs !! k = Some b -> 0 <= b < 256.
Proof. intros Hbs Hk. by apply (Forall_lookup_1 _ _ _ _ Hbs Hk). Qed.

Lemma flip_byte_spec b j :
  0 <= b < 256 -> 0 <= j < 8 ->
  u8 (Z.lxor b (u8 (Z.shiftl 1 j))) = Z.lxor b (Z.shiftl 1 j) /\
  0 <= Z.lxor b (Z.shiftl 1 j) < 256.
Proof.
  intros Hb Hj. apply (allZ_spec _ _ flip_byte_all) in Hb.
  unfold flip_byte_ok in Hb. apply (allZ_spec _ _ Hb) in Hj. lia.
Qed.

Lemma flip_insert bs k j b :
  is_bytes bs -> bs !! k = Some b -> 0 <= j < 8 ->
  flip bs k j = <[k := Z.lxor b (Z.shiftl 1 j)]> bs.
Proof.
  intros Hbs Hk Hj. unfold flip. rewrite (byte_at_lookup _ _ _ Hk).
  by destruct (flip_byte_spec b j (is_bytes_lookup _ _ _ Hbs Hk) Hj) as [-> _].
Qed.

Lemma is_bytes_flip bs k j : is_bytes bs -> is_bytes (flip bs k j).
Proof. intros Hbs. apply Forall_insert; [done|apply u8_range]. Qed.

Lemma length_flip bs k j : length (flip bs k j) = length bs.
Proof. apply length_insert. Qed.

Lemma flip_flip bs k j :
  is_bytes bs -> 0 <= j < 8 -> flip (flip bs k j) k j = bs.
Proof.
  intros Hbs Hj. destruct (bs !! k) as [b|] eqn:Hk.
  - pose proof (lookup_lt_Some _ _ _ Hk) as Hlt.
    destruct (flip_byte_spec b j (is_bytes_lookup _ _ _ Hbs Hk) Hj) as [_ Hb'].
    rewrite (flip_insert bs k j b) by done.
    rewrite (flip_insert _ k j (Z.lxor b (Z.shiftl 1 j))).
    + rewrite list_insert_insert_eq, Z.lxor_assoc, Z.lxor_nilpotent, Z.lxor_0_r.
      by apply list_insert_id.
    + by apply Forall_insert.
    + by apply list_lookup_insert_eq.
    + done.
  - apply lookup_ge_None in Hk. unfold flip.
    rewrite (list_insert_ge bs) by done. by apply list_insert_ge.
Qed.

Lemma length_crc_covered bs size :
  1 <= size <= Z.of_nat (length bs) ->
  length (crc_covered bs size) = Z.to_nat (size - 1).
Proof.
  intros H. unfold crc_covered. rewrite length_take_le; [done|].
  rewrite length_drop. lia.
Qed.

Lemma crc_covered_flip0 bs size j :
  crc_covered (flip bs 0 j) size = crc_covered bs size.
Proof. unfold crc_covered, flip. by rewrite drop_insert_lt by lia. Qed.

Lemma crc_covered_insert bs size (k : nat) x :
  (1 <= k)%nat -> Z.of_nat k < size ->
  crc_covered (<[k := x]> bs) size = <[(k - 1)%nat := x]> (crc_covered bs size).
Proof.
  intros Hk1 Hk. unfold crc_covered.
  rewrite drop_insert_ge by done. by rewrite take_insert_lt by lia.
Qed.

Lemma crc_covered_lookup bs size (k : nat) :
  (1 <= k)%nat -> Z.of_nat k < size ->
  crc_covered bs size !! (k - 1)%nat = bs !! k.
Proof.
  intros Hk1 Hk. unfold crc_covered.
  rewrite lookup_take_lt by lia. rewrite lookup_drop. f_equal. lia.
Qed.

(** The register after a flip of bit [j] of byte [k >= 1]. *)
Lemma crc15_covered_flip bs size (k : nat) j :
  is_bytes bs -> size <= Z.of_nat (length bs) ->
  (1 <= k)%nat -> Z.of_nat k < size -> 0 <= j < 8 ->
  crc15 (crc_covered (flip bs k j) size)
  = Z.lxor (crc15 (crc_covered bs size)) (syndrome (Z.to_nat size - 1 - k) j).
Proof.
  intros Hbs Hsz Hk1 Hk Hj.
  assert (Hlt : (k < length bs)%nat) by lia.
  destruct (lookup_lt_is_Some_2 _ _ Hlt) as [b Hb].
  rewrite (flip_insert _ _ _ _ Hbs Hb Hj).
  rewrite crc_covered_insert by done.
  rewrite crc15_insert by (by rewrite crc_covered_lookup).
  rewrite length_crc_covered by lia. do 2 f_equal. lia.
Qed.

Lemma lxor_cancel x s : Z.lxor x s = x -> s = 0.
Proof.
  intros H.
  assert (E : Z.lxor (Z.lxor x x) s = Z.lxor x x)
    by (rewrite Z.lxor_assoc; congruence).
  rewrite Z.lxor_nilpotent in E. by rewrite Z.lxor_0_l in E.
Qed.

(** ** Well-formed packets *)

Lemma wf_packet_flip d k j :
  wf_packet d -> wf_packet (set_bytes d (flip (bytes d) k j)).
Proof.
  intros [Hbs Hsz]. split; simpl; [by apply is_bytes_flip|by rewrite length_flip].
Qed.

Lemma set_bytes_id d : set_bytes d (bytes d) = d.
Proof. by destruct d. Qed.

Lemma set_bytes_set_bytes d x y : set_bytes (set_bytes d x) y = set_bytes d y.
Proof. done. Qed.

Lemma CheckCrc_flip_byte0 d j :
  wf_packet d ->
  CheckCrc (set_bytes d (flip (bytes d) 0 j)) = CheckCrc d.
Proof.
  intros Hwf. rewrite !CheckCrc_crc15; try apply Hwf; try apply (wf_packet_flip _ _ _ Hwf).
  simpl. by rewrite crc_covered_flip0.
Qed.

(** A single flipped bit outside byte 0 is always detected. *)
Lemma CheckCrc_flip1 d (k : nat) j :
  wf_packet d -> size d <= 224 -> CheckCrc d = true ->
  (1 <= k)%nat -> Z.of_nat k < size d -> 0 <= j < 8 ->
  CheckCrc (set_bytes d (flip (bytes d) k j)) = false.
Proof.
  intros Hwf Hmax Hok Hk1 Hk Hj.
  rewrite CheckCrc_crc15 in Hok by apply Hwf.
  rewrite CheckCrc_crc15 by apply (wf_packet_flip _ _ _ Hwf).
  apply Z.eqb_eq in Hok. apply Z.eqb_neq. simpl. intros H.
  rewrite crc15_covered_flip in H by (done || apply Hwf).
  rewrite <- Hok in H. apply lxor_cancel in H.
  by apply syndrome_nonzero in H; [|lia|].
Qed.

(** So is a second one at any other position. *)
Lemma CheckCrc_flip2 d (k k' : nat) j j' :
  wf_packet d -> size d <= 224 -> CheckCrc d = true ->
  (1 <= k)%nat -> Z.of_nat k < size d -> 0 <= j < 8 ->
  Z.of_nat k' < size d -> 0 <= j' < 8 -> (k', j') <> (k, j) ->
  let d1 := set_bytes d (flip (bytes d) k j) in
  CheckCrc (set_bytes d1 (flip (bytes d1) k' j')) = false.
Proof.
  intros Hwf Hmax Hok Hk1 Hk Hj Hk' Hj' Hne d1.
  pose proof (wf_packet_flip d k j Hwf) as Hwf1. fold d1 in Hwf1.
  destruct (decide (k' = 0%nat)) as [->|Hk0].
  { rewrite CheckCrc_flip_byte0 by done. by apply CheckCrc_flip1. }
  rewrite CheckCrc_crc15 in Hok by apply Hwf.
  rewrite CheckCrc_crc15 by apply (wf_packet_flip _ _ _ Hwf1).
  apply Z.eqb_eq in Hok. apply Z.eqb_neq. simpl. intros H.
  rewrite crc15_covered_flip in H;
    [|by apply is_bytes_flip, Hwf|rewrite length_flip; apply Hwf|lia|done|done].
  rewrite crc15_covered_flip in H by (done || apply Hwf).
  rewrite <- Hok, Z.lxor_assoc in H. apply lxor_cancel, Z.lxor_eq in H.
  apply syndrome_inj in H as [Ha ->]; [|lia..].
  apply Hne. f_equal. lia.
Qed.

(** ** A frame with a valid trailing CRC passes the check *)

Lemma crc_covered_split bs size :
  3 <= size <= Z.of_nat (length bs) ->
  crc_covered bs size
  = crc_payload bs size ++ [byte_at bs (size - 2); byte_at bs (size - 1)].
Proof.
  intros Hsz. unfold crc_covered, crc_payload.
  set (n := Z.to_nat (size - 3)).
  replace (Z.to_nat (size - 1)) with (S (S n)) by lia.
  assert (H1 : (1 + n < length bs)%nat) by lia.
  assert (H2 : (1 + S n < length bs)%nat) by lia.
  destruct (lookup_lt_is_Some_2 _ _ H1) as [x1 Hx1].
  destruct (lookup_lt_is_Some_2 _ _ H2) as [x2 Hx2].
  rewrite (take_S_r _ _ x2) by (by rewrite lookup_drop).
  rewrite (take_S_r _ _ x1) by (by rewrite lookup_drop).
  rewrite <- app_assoc. simpl. unfold byte_at.
  replace (Z.to_nat (size - 2)) with (1 + n)%nat by lia.
  replace (Z.to_nat (size - 1)) with (1 + S n)%nat by lia.
  by rewrite Hx1, Hx2.
Qed.

Lemma CheckCrc_valid d :
  wf_packet d -> 3 <= size d -> crc_valid d -> CheckCrc d = true.
Proof.
  intros [Hbs Hsz] H3 [Hhi Hlo].
  rewrite CheckCrc_crc15 by done. apply Z.eqb_eq.
  rewrite crc_covered_split by lia. rewrite Hhi, Hlo.
  unfold Crc. rewrite _crc_crc15 by done.
  unfold crc15 at 1. rewrite fold_left_app.
  change (fold_left crc15_byte (crc_payload (bytes d) (size d)) 32767)
    with (crc15 (crc_payload (bytes d) (size d))).
  generalize (crc15_range (crc_payload (bytes d) (size d))).
  generalize (crc15 (crc_payload (bytes d) (size d))). intros r Hr.
  exact (crc_residue r Hr).
Qed.

(** ** The repair loops *)

Lemma repair_bits_miss k js d :
  (forall j, j ∈ js ->
     CheckCrc (set_bytes d (flip (bytes d) k j)) = false /\
     flip (flip (bytes d) k j) k j = bytes d) ->
  repair_bits k js d = (false, d).
Proof.
  induction js as [|j js IH]; intros H; [done|].
  cbn [repair_bits]. destruct (H j) as [Hc Hf]; [by left|].
  rewrite Hc. cbn [bytes set_bytes]. rewrite Hf.
  rewrite set_bytes_set_bytes, set_bytes_id. apply IH. intros j' Hj'. apply H. by right.
Qed.

Lemma repair_bits_hit k js1 j js2 d :
  (forall j', j' ∈ js1 ->
     CheckCrc (set_bytes d (flip (bytes d) k j')) = false /\
     flip (flip (bytes d) k j') k j' = bytes d) ->
  CheckCrc (set_bytes d (flip (bytes d) k j)) = true ->
  repair_bits k (js1 ++ j :: js2) d = (true, set_bytes d (flip (bytes d) k j)).
Proof.
  induction js1 as [|j1 js1 IH]; intros H Hj.
  - cbn [app repair_bits]. by rewrite Hj.
  - cbn [app repair_bits]. destruct (H j1) as [Hc Hf]; [by left|].
    rewrite Hc. cbn [bytes set_bytes]. rewrite Hf.
    rewrite set_bytes_set_bytes, set_bytes_id. apply IH; [|done]. intros j' Hj'. apply H. by right.
Qed.

Lemma repair_bytes_hit ks1 k ks2 d d' :
  (forall k', k' ∈ ks1 -> repair_bits k' (seqZ 0 8) d = (false, d)) ->
  repair_bits k (seqZ 0 8) d = (true, d') ->
  repair_bytes (ks1 ++ k :: ks2) d = (true, d').
Proof.
  induction ks1 as [|k1 ks1 IH]; intros H Hk.
  - cbn [app repair_bytes]. by rewrite Hk.
  - cbn [app repair_bytes]. rewrite (H k1) by (by left).
    apply IH; [|done]. intros k' Hk'. apply H. by right.
Qed.

Lemma seqZ_split j :
  0 <= j < 8 -> seqZ 0 8 = seqZ 0 j ++ j :: seqZ (j + 1) (8 - j - 1).
Proof.
  intros Hj. replace 8 with (j + (8 - j)) at 1 by lia.
  rewrite seqZ_app by lia. f_equal. rewrite seqZ_cons by lia.
  rewrite Z.add_0_l. reflexivity.
Qed.

Lemma seq_split (k n : nat) :
  (k < n)%nat -> seq 0 n = seq 0 k ++ k :: seq (S k) (n - k - 1).
Proof.
  intros Hk. replace n with (k + S (n - k - 1))%nat at 1 by lia.
  by rewrite seq_app.
Qed.

(** The repair of a frame that was valid before one bit outside byte 0
    was flipped finds that bit. *)
Lemma repair_bytes_single_flip d (k : nat) j :
  wf_packet d -> size d <= 224 -> CheckCrc d = true ->
  (1 <= k)%nat -> Z.of_nat k < size d -> 0 <= j < 8 ->
  let d1 := set_bytes d (flip (bytes d) k j) in
  repair_bytes (seq 0 (Z.to_nat (size d1))) d1 = (true, d).
Proof.
  intros Hwf Hmax Hok Hk1 Hk Hj d1.
  pose proof (wf_packet_flip d k j Hwf) as Hwf1. fold d1 in Hwf1.
  assert (Hback : forall k' j', 0 <= j' < 8 ->
            flip (flip (bytes d1) k' j') k' j' = bytes d1)
    by (intros; apply flip_flip; [apply Hwf1|done]).
  assert (Hmiss : forall (k' : nat) j', Z.of_nat k' < size d -> 0 <= j' < 8 ->
            (k', j') <> (k, j) ->
            CheckCrc (set_bytes d1 (flip (bytes d1) k' j')) = false)
    by (intros; by apply CheckCrc_flip2).
  change (size d1) with (size d).
  rewrite (seq_split k) by lia.
  apply repair_bytes_hit.
  - intros k' Hk'. apply elem_of_seq in Hk'. apply repair_bits_miss.
    intros j' Hj'. apply elem_of_seqZ in Hj'. split; [|by apply Hback].
    apply Hmiss; [lia|lia|]. intros Heq. inversion Heq. lia.
  - rewrite (seqZ_split j Hj).
    assert (Hd : set_bytes d1 (flip (bytes d1) k j) = d).
    { unfold d1. cbn [bytes set_bytes]. rewrite flip_flip by (done || apply Hwf).
      by rewrite set_bytes_set_bytes, set_bytes_id. }
    rewrite (repair_bits_hit k (seqZ 0 j) j _ d1); [by rewrite Hd| |by rewrite Hd].
    intros j' Hj'. apply elem_of_seqZ in Hj'. split; [|by apply Hback; lia].
    apply Hmiss; [lia|lia|]. intros Heq. inversion Heq. lia.
Qed.

(** ** The claims about the CRC engine *)

Lemma example_packet_wf : wf_packet example_packet.
Proof.
  split; [|vm_compute; discriminate].
  unfold is_bytes, example_packet, bytes. repeat (constructor; [lia|]). constructor.
Qed.

Lemma example_packet_valid : crc_valid example_packet.
Proof. split; vm_compute; reflexivity. Qed.

(** C1, as amended. A frame of 3 to 224 bytes whose two trailing bytes
    hold the computed CRC passes [CheckCrc]. Flipping one bit of any byte
    but the first makes [CheckCrc] fail, and [CheckCrcAndRepair] then
    returns true, restores the original packet and counts one corrupt and
    one repaired packet. Byte 0 is not covered by the CRC: a flipped bit
    there still passes [CheckCrc], and [CheckCrcAndRepair] returns true
    without touching the packet or the counters. *)
Theorem crc_single_bit_round_trip q d :
  wf_packet d -> 3 <= size d <= 224 -> crc_valid d ->
  CheckCrc d = true /\
  (forall (atByte : nat) (atBit : Z),
     (1 <= atByte)%nat -> Z.of_nat atByte < size d -> 0 <= atBit < 8 ->
     let d' := set_bytes d (flip (bytes d) atByte atBit) in
     CheckCrc d' = false /\
     CheckCrcAndRepair q d'
     = (true, d, set_nRepaired (set_nCorrupt q (u32 (nCorrupt q + 1)))
                               (u32 (nRepaired q + 1)))) /\
  (forall atBit : Z,
     0 <= atBit < 8 ->
     let d' := set_bytes d (flip (bytes d) 0 atBit) in
     CheckCrc d' = true /\ CheckCrcAndRepair q d' = (true, d', q)).
Proof.
  intros Hwf [H3 Hmax] Hvalid.
  pose proof (CheckCrc_valid d Hwf H3 Hvalid) as Hok.
  split; [done|]. split.
  - intros atByte atBit Hk1 Hk Hj d'.
    pose proof (CheckCrc_flip1 d atByte atBit Hwf Hmax Hok Hk1 Hk Hj) as Hbad.
    fold d' in Hbad. split; [done|].
    unfold CheckCrcAndRepair. rewrite Hbad.
    unfold d'. by rewrite repair_bytes_single_flip.
  - intros atBit Hj d'.
    assert (Hok' : CheckCrc d' = true) by (unfold d'; by rewrite CheckCrc_flip_byte0).
    split; [done|]. unfold CheckCrcAndRepair. by rewrite Hok'.
Qed.

Lemma crc_single_bit_round_trip_witness :
  CheckCrc example_packet = true /\
  (forall (atByte : nat) (atBit : Z),
     (1 <= atByte)%nat -> Z.of_nat atByte < size example_packet -> 0 <= atBit < 8 ->
     let d' := set_bytes example_packet (flip (bytes example_packet) atByte atBit) in
     CheckCrc d' = false /\
     CheckCrcAndRepair example_queue d'
     = (true, example_packet,
        set_nRepaired (set_nCorrupt example_queue (u32 (nCorrupt example_queue + 1)))
                      (u32 (nRepaired example_queue + 1)))) /\
  (forall atBit : Z,
     0 <= atBit < 8 ->
     let d' := set_bytes example_packet (flip (bytes example_packet) 0 atBit) in
     CheckCrc d' = true /\ CheckCrcAndRepair example_queue d' = (true, d', example_queue)).
Proof.
  apply (crc_single_bit_round_trip example_queue example_packet).
  - exact example_packet_wf.
  - simpl. lia.
  - exact example_packet_valid.
Defined.

(** C1 as stated fails on byte 0: in a frame with a valid CRC, flipping
    bit 0 of byte 0 does not make [CheckCrc] fail, and the packet
    [CheckCrcAndRepair] leaves is the corrupted one, not the original. *)
Lemma crc_flip_in_byte0_not_detected :
  crc_valid example_packet /\
  (let d' := set_bytes example_packet (flip (bytes example_packet) 0 0) in
   CheckCrc d' <> false /\
   (CheckCrcAndRepair example_queue d').1.2 <> example_packet).
Proof.
  split; [exact example_packet_valid|].
  split; vm_compute; discriminate.
Qed.

(** The bound of 224 bytes is sharp: in a valid frame of 225 bytes the
    flips of bit 0 of the last byte and of bit 1 of byte 1 cancel in the
    CRC (they are 1785 bit positions apart), so after the first the repair
    stops at the second and leaves a buffer that passes [CheckCrc] but is
    not the original. *)
Remark crc_round_trip_bound_sharp :
  crc_valid long_packet /\ CheckCrc long_packet = true /\
  (let d' := set_bytes long_packet (flip (bytes long_packet) 224 0) in
   CheckCrc d' = false /\
   (CheckCrcAndRepair example_queue d').1.1 = true /\
   bytes (CheckCrcAndRepair example_queue d').1.2
   = flip (flip (bytes long_packet) 224 0) 1 1 /\
   (CheckCrcAndRepair example_queue d').1.2 <> long_packet).
Proof. vm_compute. repeat split; discriminate. Qed.

(** C3, as amended. [_crc] runs the 15-bit CRC register (polynomial
    0x0F9D, initial value 0x7FFF, most significant bit first) over the
    bytes of the frame except the first and the last two, then complements
    the register (XOR with 0x7FFF) and shifts the result left by one bit. *)
Theorem _crc_complement_then_shift bs size :
  is_bytes bs -> size <= Z.of_nat (length bs) ->
  _crc bs size = Z.shiftl (Z.lxor (crc15 (crc_payload bs size)) 0x7FFF) 1.
Proof. apply _crc_crc15. Qed.

Lemma _crc_complement_then_shift_witness :
  _crc (bytes example_packet) 7
  = Z.shiftl (Z.lxor (crc15 (crc_payload (bytes example_packet) 7)) 0x7FFF) 1.
Proof.
  apply (_crc_complement_then_shift (bytes example_packet) 7).
  - apply example_packet_wf.
  - vm_compute. discriminate.
Defined.

(** C3 as stated fails: the value [_crc] returns is not the register
    shifted left by one bit; for the example frame [_crc] returns 0x9486
    and the shifted register is 0x6B78. *)
Lemma _crc_not_only_shifted :
  _crc (bytes example_packet) 7 = 0x9486 /\
  Z.shiftl (crc15 (crc_payload (bytes example_packet) 7)) 1 = 0x6B78 /\
  _crc (bytes example_packet) 7
  <> Z.shiftl (crc15 (crc_payload (bytes example_packet) 7)) 1.
Proof. vm_compute. repeat split; discriminate. Qed.

(** C5. [CheckCrc] runs the 15-bit CRC register (polynomial 0x0F9D,
    initial value 0x7FFF, most significant bit first) over the whole frame
    after its start byte, the two trailing CRC bytes included, and returns
    true exactly when the final register, masked to 15 bits, is 0x19B7. *)
Theorem CheckCrc_iff_residue d :
  wf_packet d ->
  (CheckCrc d = true <->
   Z.land (crc15 (crc_covered (bytes d) (size d))) 0x7FFF = 0x19B7) /\
  (3 <= size d ->
   crc_covered (bytes d) (size d)
   = crc_payload (bytes d) (size d)
     ++ [byte_at (bytes d) (size d - 2); byte_at (bytes d) (size d - 1)]).
Proof.
  intros [Hbs Hsz]. split.
  - rewrite CheckCrc_crc15 by done.
    rewrite land_15_small by apply crc15_range. apply Z.eqb_eq.
  - intros H3. apply crc_covered_split. lia.
Qed.

Lemma CheckCrc_iff_residue_witness :
  (CheckCrc example_packet = true <->
   Z.land (crc15 (crc_covered (bytes example_packet) (size example_packet))) 0x7FFF
   = 0x19B7) /\
  (3 <= size example_packet ->
   crc_covered (bytes example_packet) (size example_packet)
   = crc_payload (bytes example_packet) (size example_packet)
     ++ [byte_at (bytes example_packet) (size example_packet - 2);
         byte_at (bytes example_packet) (size example_packet - 1)]).
Proof. apply (CheckCrc_iff_residue example_packet), example_packet_wf. Defined.

(** ** The bit-timing decoder *)

Lemma u32_idemp z : u32 (u32 z + 0) = u32 z.
Proof. unfold u32. rewrite Z.add_0_r. apply Z.mod_mod. lia. Qed.

Lemma nBitsFromCycles_effective F nCycles jitter :
  nBitsFromCycles F nCycles jitter
  = nBitsFromCycles F (u32 (nCycles + jitter)) 0.
Proof. unfold nBitsFromCycles. by rewrite u32_idemp. Qed.

Lemma nBitsFromCycles_jitter_range F nCycles jitter :
  0 <= (nBitsFromCycles F nCycles jitter).2 < 4294967296.
Proof.
  unfold nBitsFromCycles.
  assert (Hu : forall z, 0 <= u32 z < 4294967296)
    by (intros z; apply Z.mod_pos_bound; lia).
  repeat match goal with
         | |- context [if ?c then _ else _] => destruct c
         end; simpl; try apply Hu; lia.
Qed.

(** C4, as amended. Whatever remainder the first of two consecutive calls
    stores in [jitter], the second call adds it to its cycle count (modulo
    2^32) and classifies the sum: it behaves as a call on [nCycles + jitter]
    with no carried jitter, so the variable is consumed (reset to zero)
    right after it has been added and the value the second call stores is
    computed from the sum alone. Unless the sum wraps around, the effective
    cycle count is therefore not smaller than [nCycles], and strictly
    larger when the stored remainder is not zero. *)
Theorem jitter_added_once F nCycles1 jitter0 nCycles2 :
  0 <= nCycles2 < 4294967296 ->
  let jitter1 := (nBitsFromCycles F nCycles1 jitter0).2 in
  nBitsFromCycles F nCycles2 jitter1
  = nBitsFromCycles F (u32 (nCycles2 + jitter1)) 0 /\
  0 <= jitter1 /\
  (nCycles2 + jitter1 < 4294967296 ->
   u32 (nCycles2 + jitter1) = nCycles2 + jitter1 /\
   nCycles2 <= u32 (nCycles2 + jitter1) /\
   (jitter1 <> 0 -> nCycles2 < u32 (nCycles2 + jitter1))).
Proof.
  intros Hc jitter1.
  pose proof (nBitsFromCycles_jitter_range F nCycles1 jitter0) as Hj.
  fold jitter1 in Hj.
  split; [apply nBitsFromCycles_effective|]. split; [lia|].
  intros Hsum. unfold u32. rewrite Z.mod_small by lia. lia.
Qed.

Lemma jitter_added_once_witness :
  let jitter1 := (nBitsFromCycles 1 900 0).2 in
  nBitsFromCycles 1 1100 jitter1 = nBitsFromCycles 1 (u32 (1100 + jitter1)) 0 /\
  0 <= jitter1 /\
  (1100 + jitter1 < 4294967296 ->
   u32 (1100 + jitter1) = 1100 + jitter1 /\
   1100 <= u32 (1100 + jitter1) /\
   (jitter1 <> 0 -> 1100 < u32 (1100 + jitter1))).
Proof. apply (jitter_added_once 1 900 0 1100). lia. Defined.

(** C4 as stated fails: at 80 MHz a first run of 900 cycles stores the
    remainder 100; a second run of 1100 cycles is then classified as 1200
    cycles (2 bits, nothing stored), not as the 1000 cycles (1 bit, 200
    stored) that subtracting the remainder would give. *)
Lemma jitter_not_subtracted :
  nBitsFromCycles 1 900 0 = (1, 100) /\
  nBitsFromCycles 1 1100 100 = (2, 0) /\
  nBitsFromCycles 1 (1100 - 100) 0 = (1, 200) /\
  nBitsFromCycles 1 1100 100 <> nBitsFromCycles 1 (1100 - 100) 0 /\
  ~ u32 (1100 + 100) < 1100.
Proof. vm_compute. repeat split; discriminate. Qed.

(** ** The receive queue and the interrupt handlers *)

Section ReceiverProofs.

Variable CPU_F_FACTOR : Z.
Variable VAN_MAX_PACKET_SIZE : Z.
Variable VAN_RX_QUEUE_SIZE : nat.
Variable VAN_LOGICAL_LOW : Z.
Variable VAN_BIT_RECESSIVE : Z.

Local Abbreviation ISR :=
  (RxPinChangeIsr CPU_F_FACTOR VAN_MAX_PACKET_SIZE VAN_RX_QUEUE_SIZE
                  VAN_LOGICAL_LOW VAN_BIT_RECESSIVE).
Local Abbreviation next i :=
  (if decide (S i = VAN_RX_QUEUE_SIZE) then 0%nat else S i).
Local Abbreviation Inv := (inv VAN_RX_QUEUE_SIZE).

Lemma next_lt i : (i < VAN_RX_QUEUE_SIZE)%nat -> (next i < VAN_RX_QUEUE_SIZE)%nat.
Proof. intros. case_decide; lia. Qed.

Lemma head_desc_lookup q :
  (_head q < length (pool q))%nat -> pool q !! _head q = Some (head_desc q).
Proof. intros H. by apply list_lookup_lookup_total_lt. Qed.

Lemma set_slot_id d : set_slot d (slot d) = d.
Proof. by destruct d. Qed.

Lemma slots_named_alter p h f :
  slots_named p ->
  (forall d, p !! h = Some d -> state (f d) <> VAN_RX_VACANT ->
             slot (f d) = Z.of_nat h) ->
  slots_named (alter f h p).
Proof.
  intros Hp Hf i d Hi Hst. destruct (decide (h = i)) as [->|Hne].
  - rewrite list_lookup_alter_eq in Hi.
    destruct (p !! i) as [d0|] eqn:Hd0; [|done].
    injection Hi as <-. by apply Hf.
  - rewrite list_lookup_alter_ne in Hi by done. by apply Hp.
Qed.

(** An event that rewrites the head slot in place keeps the invariant if
    the new content of the slot fits. *)
Lemma inv_local s q' st' armed' g :
  Inv s ->
  pool q' = alter g (_head (VanBusRx s)) (pool (VanBusRx s)) ->
  _head q' = _head (VanBusRx s) -> tail q' = tail (VanBusRx s) ->
  (let d := head_desc (VanBusRx s) in
   (state (g d) <> VAN_RX_VACANT -> slot (g d) = Z.of_nat (_head (VanBusRx s))) /\
   (armed' = true -> state (g d) = VAN_RX_WAITING_ACK) /\
   (state (g d) = VAN_RX_SEARCHING \/ state (g d) = VAN_RX_LOADING ->
    ack (g d) = VAN_NO_ACK)) ->
  Inv (mkSystem q' st' armed').
Proof.
  intros ((Hlen & Hh & Ht) & Hnamed & Hidle & Harmed & Hack) Hpool Hhead Htail
         (Hg1 & Hg2 & Hg3).
  assert (Hlt : (_head (VanBusRx s) < length (pool (VanBusRx s)))%nat) by lia.
  assert (Hd' : head_desc q' = g (head_desc (VanBusRx s))).
  { unfold head_desc. rewrite Hpool, Hhead. by apply list_lookup_total_alter_eq. }
  unfold inv. cbn [VanBusRx ackTimerArmed]. rewrite Hd'.
  split; [|split; [|split; [|split]]]; try done.
  - unfold queue_wf. by rewrite Hpool, length_alter, Hhead, Htail.
  - rewrite Hpool. apply slots_named_alter; [done|].
    intros d Hd. rewrite head_desc_lookup in Hd by done. by injection Hd as <-.
  - intros i d Hi Hne. rewrite Hpool, Hhead in *.
    rewrite list_lookup_alter_ne in Hi by done. by apply (Hidle i).
Qed.

(** An event that completes the frame in the head slot (marks it DONE and
    moves on to the next slot) keeps the invariant. *)
Lemma inv_advance s q' st' g :
  Inv s ->
  pool q' = alter g (_head (VanBusRx s)) (pool (VanBusRx s)) ->
  _head q' = next (_head (VanBusRx s)) -> tail q' = tail (VanBusRx s) ->
  (let d := head_desc (VanBusRx s) in
   state (g d) = VAN_RX_DONE /\ slot (g d) = Z.of_nat (_head (VanBusRx s))) ->
  Inv (mkSystem q' st' false).
Proof.
  intros ((Hlen & Hh & Ht) & Hnamed & Hidle & Harmed & Hack) Hpool Hhead Htail
         (Hg1 & Hg2).
  assert (Hlt : (_head (VanBusRx s) < length (pool (VanBusRx s)))%nat) by lia.
  assert (Hnew : state (head_desc q') = VAN_RX_VACANT \/
                 state (head_desc q') = VAN_RX_DONE).
  { unfold head_desc. rewrite Hpool, Hhead.
    destruct (decide (next (_head (VanBusRx s)) = _head (VanBusRx s))) as [->|Hne].
    - rewrite list_lookup_total_alter_eq by done. by right.
    - rewrite list_lookup_total_alter_ne by done.
      apply (Hidle (next (_head (VanBusRx s)))); [|done].
      apply list_lookup_lookup_total_lt. rewrite Hlen. by apply next_lt. }
  unfold inv. cbn [VanBusRx ackTimerArmed].
  split; [|split; [|split; [|split]]]; try done.
  - unfold queue_wf. rewrite Hpool, length_alter, Hhead, Htail.
    split; [done|]. split; [by apply next_lt|done].
  - rewrite Hpool. apply slots_named_alter; [done|].
    intros d Hd. rewrite head_desc_lookup in Hd by done. by injection Hd as <-.
  - intros i d Hi Hne. rewrite Hpool in Hi.
    destruct (decide (_head (VanBusRx s) = i)) as [<-|Hne'].
    + rewrite list_lookup_alter_eq, head_desc_lookup in Hi by done.
      injection Hi as <-. by right.
    + rewrite list_lookup_alter_ne in Hi by done. by apply (Hidle i).
  - intros [H|H]; destruct Hnew as [Hn|Hn]; congruence.
Qed.

Lemma not_armed s st :
  Inv s -> state (head_desc (VanBusRx s)) = st -> st <> VAN_RX_WAITING_ACK ->
  ackTimerArmed s = false.
Proof.
  intros (_ & _ & _ & Harmed & _) Hst Hne.
  destruct (ackTimerArmed s); [|done]. rewrite Harmed in Hst by done. congruence.
Qed.

(** Projections of the queue after each operation. *)
Lemma pool_upd_head f q : pool (upd_head f q) = alter f (_head q) (pool q).
Proof. reflexivity. Qed.
Lemma head_upd_head f q : _head (upd_head f q) = _head q.
Proof. reflexivity. Qed.
Lemma tail_upd_head f q : tail (upd_head f q) = tail q.
Proof. reflexivity. Qed.
Lemma overrun_upd_head f q : _overrun (upd_head f q) = _overrun q.
Proof. reflexivity. Qed.
Lemma lastMediaAccessAt_upd_head f q : lastMediaAccessAt (upd_head f q) = lastMediaAccessAt q.
Proof. reflexivity. Qed.
Lemma count_upd_head f q : count (upd_head f q) = count q.
Proof. reflexivity. Qed.
Lemma nCorrupt_upd_head f q : nCorrupt (upd_head f q) = nCorrupt q.
Proof. reflexivity. Qed.
Lemma nRepaired_upd_head f q : nRepaired (upd_head f q) = nRepaired q.
Proof. reflexivity. Qed.
Lemma pool_upd_tail f q : pool (upd_tail f q) = alter f (tail q) (pool q).
Proof. reflexivity. Qed.
Lemma head_upd_tail f q : _head (upd_tail f q) = _head q.
Proof. reflexivity. Qed.
Lemma tail_upd_tail f q : tail (upd_tail f q) = tail q.
Proof. reflexivity. Qed.
Lemma overrun_upd_tail f q : _overrun (upd_tail f q) = _overrun q.
Proof. reflexivity. Qed.
Lemma lastMediaAccessAt_upd_tail f q : lastMediaAccessAt (upd_tail f q) = lastMediaAccessAt q.
Proof. reflexivity. Qed.
Lemma count_upd_tail f q : count (upd_tail f q) = count q.
Proof. reflexivity. Qed.
Lemma nCorrupt_upd_tail f q : nCorrupt (upd_tail f q) = nCorrupt q.
Proof. reflexivity. Qed.
Lemma nRepaired_upd_tail f q : nRepaired (upd_tail f q) = nRepaired q.
Proof. reflexivity. Qed.
Lemma pool_set_overrun q b : pool (set_overrun q b) = pool q.
Proof. reflexivity. Qed.
Lemma head_set_overrun q b : _head (set_overrun q b) = _head q.
Proof. reflexivity. Qed.
Lemma tail_set_overrun q b : tail (set_overrun q b) = tail q.
Proof. reflexivity. Qed.
Lemma overrun_set_overrun q b : _overrun (set_overrun q b) = b.
Proof. reflexivity. Qed.
Lemma lastMediaAccessAt_set_overrun q b : lastMediaAccessAt (set_overrun q b) = lastMediaAccessAt q.
Proof. reflexivity. Qed.
Lemma count_set_overrun q b : count (set_overrun q b) = count q.
Proof. reflexivity. Qed.
Lemma nCorrupt_set_overrun q b : nCorrupt (set_overrun q b) = nCorrupt q.
Proof. reflexivity. Qed.
Lemma nRepaired_set_overrun q b : nRepaired (set_overrun q b) = nRepaired q.
Proof. reflexivity. Qed.
Lemma pool_set_lastMediaAccessAt q t : pool (set_lastMediaAccessAt q t) = pool q.
Proof. reflexivity. Qed.
Lemma head_set_lastMediaAccessAt q t : _head (set_lastMediaAccessAt q t) = _head q.
Proof. reflexivity. Qed.
Lemma tail_set_lastMediaAccessAt q t : tail (set_lastMediaAccessAt q t) = tail q.
Proof. reflexivity. Qed.
Lemma overrun_set_lastMediaAccessAt q t : _overrun (set_lastMediaAccessAt q t) = _overrun q.
Proof. reflexivity. Qed.
Lemma lastMediaAccessAt_set_lastMediaAccessAt q t : lastMediaAccessAt (set_lastMediaAccessAt q t) = t.
Proof. reflexivity. Qed.
Lemma count_set_lastMediaAccessAt q t : count (set_lastMediaAccessAt q t) = count q.
Proof. reflexivity. Qed.
Lemma nCorrupt_set_lastMediaAccessAt q t : nCorrupt (set_lastMediaAccessAt q t) = nCorrupt q.
Proof. reflexivity. Qed.
Lemma nRepaired_set_lastMediaAccessAt q t : nRepaired (set_lastMediaAccessAt q t) = nRepaired q.
Proof. reflexivity. Qed.
Lemma pool_set_count q n : pool (set_count q n) = pool q.
Proof. reflexivity. Qed.
Lemma head_set_count q n : _head (set_count q n) = _head q.
Proof. reflexivity. Qed.
Lemma tail_set_count q n : tail (set_count q n) = tail q.
Proof. reflexivity. Qed.
Lemma overrun_set_count q n : _overrun (set_count q n) = _overrun q.
Proof. reflexivity. Qed.
Lemma lastMediaAccessAt_set_count q n : lastMediaAccessAt (set_count q n) = lastMediaAccessAt q.
Proof. reflexivity. Qed.
Lemma count_set_count q n : count (set_count q n) = n.
Proof. reflexivity. Qed.
Lemma nCorrupt_set_count q n : nCorrupt (set_count q n) = nCorrupt q.
Proof. reflexivity. Qed.
Lemma nRepaired_set_count q n : nRepaired (set_count q n) = nRepaired q.
Proof. reflexivity. Qed.
Lemma pool_set_nCorrupt q n : pool (set_nCorrupt q n) = pool q.
Proof. reflexivity. Qed.
Lemma head_set_nCorrupt q n : _head (set_nCorrupt q n) = _head q.
Proof. reflexivity. Qed.
Lemma tail_set_nCorrupt q n : tail (set_nCorrupt q n) = tail q.
Proof. reflexivity. Qed.
Lemma overrun_set_nCorrupt q n : _overrun (set_nCorrupt q n) = _overrun q.
Proof. reflexivity. Qed.
Lemma lastMediaAccessAt_set_nCorrupt q n : lastMediaAccessAt (set_nCorrupt q n) = lastMediaAccessAt q.
Proof. reflexivity. Qed.
Lemma count_set_nCorrupt q n : count (set_nCorrupt q n) = count q.
Proof. reflexivity. Qed.
Lemma nCorrupt_set_nCorrupt q n : nCorrupt (set_nCorrupt q n) = n.
Proof. reflexivity. Qed.
Lemma nRepaired_set_nCorrupt q n : nRepaired (set_nCorrupt q n) = nRepaired q.
Proof. reflexivity. Qed.
Lemma pool_set_nRepaired q n : pool (set_nRepaired q n) = pool q.
Proof. reflexivity. Qed.
Lemma head_set_nRepaired q n : _head (set_nRepaired q n) = _head q.
Proof. reflexivity. Qed.
Lemma tail_set_nRepaired q n : tail (set_nRepaired q n) = tail q.
Proof. reflexivity. Qed.
Lemma overrun_set_nRepaired q n : _overrun (set_nRepaired q n) = _overrun q.
Proof. reflexivity. Qed.
Lemma lastMediaAccessAt_set_nRepaired q n : lastMediaAccessAt (set_nRepaired q n) = lastMediaAccessAt q.
Proof. reflexivity. Qed.
Lemma count_set_nRepaired q n : count (set_nRepaired q n) = count q.
Proof. reflexivity. Qed.
Lemma nCorrupt_set_nRepaired q n : nCorrupt (set_nRepaired q n) = nCorrupt q.
Proof. reflexivity. Qed.
Lemma nRepaired_set_nRepaired q n : nRepaired (set_nRepaired q n) = n.
Proof. reflexivity. Qed.
Lemma pool_ClearQueueOverrun q : pool (ClearQueueOverrun q) = pool q.
Proof. reflexivity. Qed.
Lemma head_ClearQueueOverrun q : _head (ClearQueueOverrun q) = _head q.
Proof. reflexivity. Qed.
Lemma tail_ClearQueueOverrun q : tail (ClearQueueOverrun q) = tail q.
Proof. reflexivity. Qed.
Lemma overrun_ClearQueueOverrun q : _overrun (ClearQueueOverrun q) = false.
Proof. reflexivity. Qed.
Lemma lastMediaAccessAt_ClearQueueOverrun q : lastMediaAccessAt (ClearQueueOverrun q) = lastMediaAccessAt q.
Proof. reflexivity. Qed.
Lemma count_ClearQueueOverrun q : count (ClearQueueOverrun q) = count q.
Proof. reflexivity. Qed.
Lemma nCorrupt_ClearQueueOverrun q : nCorrupt (ClearQueueOverrun q) = nCorrupt q.
Proof. reflexivity. Qed.
Lemma nRepaired_ClearQueueOverrun q : nRepaired (ClearQueueOverrun q) = nRepaired q.
Proof. reflexivity. Qed.
Lemma pool_AdvanceHead q : pool (_AdvanceHead VAN_RX_QUEUE_SIZE q) = alter (fun d => set_state d VAN_RX_DONE) (_head q) (pool q).
Proof. reflexivity. Qed.
Lemma head_AdvanceHead q : _head (_AdvanceHead VAN_RX_QUEUE_SIZE q) = next (_head q).
Proof. reflexivity. Qed.
Lemma tail_AdvanceHead q : tail (_AdvanceHead VAN_RX_QUEUE_SIZE q) = tail q.
Proof. reflexivity. Qed.
Lemma overrun_AdvanceHead q : _overrun (_AdvanceHead VAN_RX_QUEUE_SIZE q) = _overrun q.
Proof. reflexivity. Qed.
Lemma lastMediaAccessAt_AdvanceHead q : lastMediaAccessAt (_AdvanceHead VAN_RX_QUEUE_SIZE q) = lastMediaAccessAt q.
Proof. reflexivity. Qed.
Lemma count_AdvanceHead q : count (_AdvanceHead VAN_RX_QUEUE_SIZE q) = u32 (count q + 1).
Proof. reflexivity. Qed.
Lemma nCorrupt_AdvanceHead q : nCorrupt (_AdvanceHead VAN_RX_QUEUE_SIZE q) = nCorrupt q.
Proof. reflexivity. Qed.
Lemma nRepaired_AdvanceHead q : nRepaired (_AdvanceHead VAN_RX_QUEUE_SIZE q) = nRepaired q.
Proof. reflexivity. Qed.
Lemma pool_AdvanceTail q : pool (AdvanceTail VAN_RX_QUEUE_SIZE q) = pool q.
Proof. reflexivity. Qed.
Lemma head_AdvanceTail q : _head (AdvanceTail VAN_RX_QUEUE_SIZE q) = _head q.
Proof. reflexivity. Qed.
Lemma tail_AdvanceTail q : tail (AdvanceTail VAN_RX_QUEUE_SIZE q) = next (tail q).
Proof. reflexivity. Qed.
Lemma overrun_AdvanceTail q : _overrun (AdvanceTail VAN_RX_QUEUE_SIZE q) = _overrun q.
Proof. reflexivity. Qed.
Lemma lastMediaAccessAt_AdvanceTail q : lastMediaAccessAt (AdvanceTail VAN_RX_QUEUE_SIZE q) = lastMediaAccessAt q.
Proof. reflexivity. Qed.
Lemma count_AdvanceTail q : count (AdvanceTail VAN_RX_QUEUE_SIZE q) = count q.
Proof. reflexivity. Qed.
Lemma nCorrupt_AdvanceTail q : nCorrupt (AdvanceTail VAN_RX_QUEUE_SIZE q) = nCorrupt q.
Proof. reflexivity. Qed.
Lemma nRepaired_AdvanceTail q : nRepaired (AdvanceTail VAN_RX_QUEUE_SIZE q) = nRepaired q.
Proof. reflexivity. Qed.

Create Rewrite HintDb queue.
#[local] Hint Rewrite pool_upd_head head_upd_head tail_upd_head overrun_upd_head lastMediaAccessAt_upd_head count_upd_head nCorrupt_upd_head nRepaired_upd_head pool_upd_tail head_upd_tail tail_upd_tail overrun_upd_tail lastMediaAccessAt_upd_tail count_upd_tail nCorrupt_upd_tail nRepaired_upd_tail pool_set_overrun head_set_overrun tail_set_overrun overrun_set_overrun lastMediaAccessAt_set_overrun count_set_overrun nCorrupt_set_overrun nRepaired_set_overrun pool_set_lastMediaAccessAt head_set_lastMediaAccessAt tail_set_lastMediaAccessAt overrun_set_lastMediaAccessAt lastMediaAccessAt_set_lastMediaAccessAt count_set_lastMediaAccessAt nCorrupt_set_lastMediaAccessAt nRepaired_set_lastMediaAccessAt pool_set_count head_set_count tail_set_count overrun_set_count lastMediaAccessAt_set_count count_set_count nCorrupt_set_count nRepaired_set_count pool_set_nCorrupt head_set_nCorrupt tail_set_nCorrupt overrun_set_nCorrupt lastMediaAccessAt_set_nCorrupt count_set_nCorrupt nCorrupt_set_nCorrupt nRepaired_set_nCorrupt pool_set_nRepaired head_set_nRepaired tail_set_nRepaired overrun_set_nRepaired lastMediaAccessAt_set_nRepaired count_set_nRepaired nCorrupt_set_nRepaired nRepaired_set_nRepaired pool_ClearQueueOverrun head_ClearQueueOverrun tail_ClearQueueOverrun overrun_ClearQueueOverrun lastMediaAccessAt_ClearQueueOverrun count_ClearQueueOverrun nCorrupt_ClearQueueOverrun nRepaired_ClearQueueOverrun pool_AdvanceHead head_AdvanceHead tail_AdvanceHead overrun_AdvanceHead lastMediaAccessAt_AdvanceHead count_AdvanceHead nCorrupt_AdvanceHead nRepaired_AdvanceHead pool_AdvanceTail head_AdvanceTail tail_AdvanceTail overrun_AdvanceTail lastMediaAccessAt_AdvanceTail count_AdvanceTail nCorrupt_AdvanceTail nRepaired_AdvanceTail : queue.

Ltac q_simpl := autorewrite with queue.

Ltac d_simpl :=
  cbn [compose set_slot set_state set_size set_ack set_result set_bytes
       bytes size state result ack seqNo slot].

Ltac isr_local Hinv :=
  eapply (inv_local _ _ _ _ _ Hinv);
  [ q_simpl; rewrite ?list_alter_alter_eq; reflexivity
  | q_simpl; reflexivity
  | q_simpl; reflexivity
  | d_simpl ].

Ltac isr_advance Hinv :=
  eapply (inv_advance _ _ _ _ Hinv);
  [ q_simpl; rewrite ?list_alter_alter_eq; reflexivity
  | q_simpl; reflexivity
  | q_simpl; reflexivity
  | d_simpl ].

Lemma inv_RxPinChangeIsr pin curr s : Inv s -> Inv (ISR pin curr s).
Proof.
  intros Hinv. pose proof Hinv as ((Hlen & Hh & Ht) & Hnamed & Hidle & Harmed & Hack).
  unfold RxPinChangeIsr. cbv zeta.
  destruct (pin =? prevPinLevelChangedTo (isr s)); [done|].
  repeat match goal with
         | |- context [if ?c && ?c' then ?a else ?b] =>
             generalize (if c && c' then a else b); intro
         end.
  generalize (nBitsFromCycles CPU_F_FACTOR (u32 (curr - prev (isr s))) (jitter (isr s))).
  intros bj.
  assert (Hq0 : head_desc (set_lastMediaAccessAt (VanBusRx s) curr)
                = head_desc (VanBusRx s)) by done.
  destruct (pin =? VAN_BIT_RECESSIVE); rewrite ?Hq0;
    destruct (state (head_desc (VanBusRx s))) eqn:Hst;
    rewrite ?bool_decide_true by done; rewrite ?bool_decide_false by done;
    repeat match goal with
           | |- context [if ?c then _ else _] => destruct c eqn:?
           end.
  all: lazymatch goal with
       | |- context [_AdvanceHead] =>
           rewrite (not_armed s _ Hinv Hst) by done; isr_advance Hinv; done
       | |- _ => isr_local Hinv; rewrite ?Hst
       end.
  all: split_and!; intros; try first [done | by apply Harmed | by apply Hack; auto].
  all: match goal with
       | H : _ \/ _ |- _ => by destruct H
       | H : ackTimerArmed _ = true |- _ => by apply Harmed in H
       end.
Qed.

Lemma inv_WaitAckIsr s :
  Inv s -> ackTimerArmed s = true -> Inv (WaitAckIsr VAN_RX_QUEUE_SIZE s).
Proof.
  intros Hinv Harmed. unfold WaitAckIsr, SetTxBitTimer. cbv zeta.
  cbn [VanBusRx isr ackTimerArmed].
  isr_advance Hinv.
  split; [done|].
  destruct Hinv as ((Hlen & Hh & Ht) & Hnamed & Hidle & Ha & Hack).
  assert (Hlt : (_head (VanBusRx s) < length (pool (VanBusRx s)))%nat) by lia.
  apply (Hnamed _ _ (head_desc_lookup _ Hlt)).
  by rewrite Ha.
Qed.

Lemma Receive_queue q pkt isQueueOverrun :
  state (tail_desc q) = VAN_RX_DONE ->
  let q' := (Receive VAN_RX_QUEUE_SIZE q pkt isQueueOverrun).2 in
  pool q' = alter Init (tail q) (pool q) /\
  _head q' = _head q /\ tail q' = next (tail q) /\
  count q' = count q /\ nCorrupt q' = nCorrupt q /\ nRepaired q' = nRepaired q /\
  _overrun q' = match isQueueOverrun with Some _ => false | None => _overrun q end.
Proof.
  intros Hdone. unfold Receive, Available.
  rewrite bool_decide_true by done. cbn [negb].
  destruct isQueueOverrun; cbn [snd]; by autorewrite with queue.
Qed.

Lemma Receive_empty q pkt isQueueOverrun :
  state (tail_desc q) <> VAN_RX_DONE ->
  Receive VAN_RX_QUEUE_SIZE q pkt isQueueOverrun = (false, pkt, isQueueOverrun, q).
Proof.
  intros Hnot. unfold Receive, Available. by rewrite bool_decide_false by done.
Qed.

Lemma inv_Receive pkt isQueueOverrun s :
  Inv s ->
  Inv (mkSystem (Receive VAN_RX_QUEUE_SIZE (VanBusRx s) pkt isQueueOverrun).2
                (isr s) (ackTimerArmed s)).
Proof.
  intros Hinv. pose proof Hinv as ((Hlen & Hh & Ht) & Hnamed & Hidle & Harmed & Hack).
  destruct (decide (state (tail_desc (VanBusRx s)) = VAN_RX_DONE)) as [Hdone|Hnot];
    [|rewrite Receive_empty by done; by destruct s].
  destruct (Receive_queue (VanBusRx s) pkt isQueueOverrun Hdone)
    as (Hpool & Hhead & Htail & _).
  set (q' := (Receive VAN_RX_QUEUE_SIZE (VanBusRx s) pkt isQueueOverrun).2) in *.
  assert (Hlt : (_head (VanBusRx s) < length (pool (VanBusRx s)))%nat) by lia.
  assert (Hd' : head_desc q' = head_desc (VanBusRx s) \/
                state (head_desc q') = VAN_RX_VACANT /\
                state (head_desc (VanBusRx s)) = VAN_RX_DONE).
  { unfold head_desc at 1 3. rewrite Hpool, Hhead.
    destruct (decide (tail (VanBusRx s) = _head (VanBusRx s))) as [Heq|Hne].
    - right. rewrite Heq, list_lookup_total_alter_eq by done.
      split; [done|]. unfold tail_desc in Hdone. by rewrite Heq in Hdone.
    - left. by rewrite list_lookup_total_alter_ne. }
  unfold inv. cbn [VanBusRx ackTimerArmed]. split_and!.
  - unfold queue_wf. rewrite Hpool, length_alter, Hhead, Htail.
    split; [done|]. split; [done|by apply next_lt].
  - rewrite Hpool. by apply slots_named_alter.
  - intros i d Hi Hne. rewrite Hpool in Hi. rewrite Hhead in Hne.
    destruct (decide (tail (VanBusRx s) = i)) as [<-|Hne'].
    + rewrite list_lookup_alter_eq in Hi.
      destruct (pool (VanBusRx s) !! tail (VanBusRx s)); [|done].
      injection Hi as <-. by left.
    + rewrite list_lookup_alter_ne in Hi by done. by apply (Hidle i).
  - intros Ha. destruct Hd' as [->|[_ Hd]]; [by apply Harmed|].
    rewrite Harmed in Hd by done. done.
  - intros Hs. destruct Hd' as [Heq|[Hv _]].
    + rewrite Heq in *. by apply Hack.
    + rewrite Hv in Hs. by destruct Hs.
Qed.

Lemma CheckCrcAndRepair_queue q d :
  let q' := (CheckCrcAndRepair q d).2 in
  pool q' = pool q /\ _head q' = _head q /\ tail q' = tail q /\
  _overrun q' = _overrun q /\ count q' = count q.
Proof.
  unfold CheckCrcAndRepair. destruct (CheckCrc d); [done|].
  destruct (repair_bytes _ _) as [[] ?]; done.
Qed.

Lemma inv_same_queue s q' st' :
  Inv s ->
  pool q' = pool (VanBusRx s) -> _head q' = _head (VanBusRx s) ->
  tail q' = tail (VanBusRx s) ->
  Inv (mkSystem q' st' (ackTimerArmed s)).
Proof.
  intros Hinv Hpool Hhead Htail. unfold inv, queue_wf, idle_elsewhere, head_desc in *.
  cbn [VanBusRx ackTimerArmed]. by rewrite Hpool, Hhead, Htail.
Qed.

Lemma inv_power_on s :
  (0 < VAN_RX_QUEUE_SIZE)%nat ->
  power_on VAN_MAX_PACKET_SIZE VAN_RX_QUEUE_SIZE VAN_BIT_RECESSIVE s -> Inv s.
Proof.
  intros Hq (Hlen & Hvac & Hhead & Htail & Hov & Harmed & Hst).
  assert (Hall : forall i d, pool (VanBusRx s) !! i = Some d ->
                             state d = VAN_RX_VACANT).
  { intros i d Hi. by destruct (Forall_lookup_1 _ _ _ _ Hvac Hi). }
  assert (Hd : state (head_desc (VanBusRx s)) = VAN_RX_VACANT).
  { apply (Hall (_head (VanBusRx s))), head_desc_lookup. lia. }
  unfold inv. split_and!.
  - unfold queue_wf. lia.
  - intros i d Hi Hne. by rewrite (Hall i d Hi) in Hne.
  - intros i d Hi _. left. by apply (Hall i).
  - by rewrite Harmed.
  - rewrite Hd. by intros [|].
Qed.

Lemma inv_step s s' :
  Inv s ->
  step CPU_F_FACTOR VAN_MAX_PACKET_SIZE VAN_RX_QUEUE_SIZE VAN_LOGICAL_LOW
       VAN_BIT_RECESSIVE s s' ->
  Inv s'.
Proof.
  intros Hinv Hstep. destruct Hstep.
  - by apply inv_RxPinChangeIsr.
  - by apply inv_WaitAckIsr.
  - by apply inv_Receive.
  - destruct (CheckCrcAndRepair_queue (VanBusRx s) pkt) as (? & ? & ? & _).
    by apply inv_same_queue.
Qed.

Lemma reachable_inv s :
  (0 < VAN_RX_QUEUE_SIZE)%nat ->
  reachable CPU_F_FACTOR VAN_MAX_PACKET_SIZE VAN_RX_QUEUE_SIZE VAN_LOGICAL_LOW
            VAN_BIT_RECESSIVE s ->
  Inv s.
Proof.
  intros Hq Hreach. induction Hreach as [s Hs|s s' _ IH Hstep].
  - by apply inv_power_on.
  - by apply (inv_step s).
Qed.

(** *** The paths of [RxPinChangeIsr] the claims are about *)

Lemma edge_queue_proj (c : bool) q t :
  let q0 := if c then set_lastMediaAccessAt q t else q in
  pool q0 = pool q /\ _head q0 = _head q /\ tail q0 = tail q /\
  _overrun q0 = _overrun q /\ count q0 = count q /\
  nCorrupt q0 = nCorrupt q /\ nRepaired q0 = nRepaired q /\
  head_desc q0 = head_desc q.
Proof. by destruct c. Qed.

Lemma head_desc_upd_head f q :
  (_head q < length (pool q))%nat -> head_desc (upd_head f q) = f (head_desc q).
Proof. intros H. unfold head_desc, upd_head. cbn. by apply list_lookup_total_alter_eq. Qed.

Lemma alter_id_at {A} (f : A -> A) (l : list A) i x :
  l !! i = Some x -> f x = x -> alter f i l = l.
Proof.
  intros Hi Hf. apply list_eq. intros j. destruct (decide (i = j)) as [<-|Hne].
  - by rewrite list_lookup_alter_eq, Hi; simpl; rewrite Hf.
  - by rewrite list_lookup_alter_ne.
Qed.

Lemma RxPinChangeIsr_spurious pin curr s :
  pin = prevPinLevelChangedTo (isr s) -> ISR pin curr s = s.
Proof. intros ->. unfold RxPinChangeIsr. by rewrite Z.eqb_refl. Qed.

Lemma RxPinChangeIsr_done pin curr s :
  genuine_edge pin s -> state (head_desc (VanBusRx s)) = VAN_RX_DONE ->
  let q0 := if pin =? VAN_BIT_RECESSIVE
            then set_lastMediaAccessAt (VanBusRx s) curr else VanBusRx s in
  ISR pin curr s
  = mkSystem
      (set_overrun (upd_head (fun d => set_slot d (Z.of_nat (_head q0))) q0) true)
      (mkStatics pin curr
         (nBitsFromCycles CPU_F_FACTOR (u32 (curr - prev (isr s))) (jitter (isr s))).2
         (atBit (isr s)) (readBits (isr s)))
      (ackTimerArmed s).
Proof.
  intros Hedge Hst q0. unfold RxPinChangeIsr.
  rewrite (proj2 (Z.eqb_neq _ _) Hedge). cbv zeta. fold q0.
  destruct (edge_queue_proj (pin =? VAN_BIT_RECESSIVE) (VanBusRx s) curr)
    as (_ & _ & _ & _ & _ & _ & _ & Hd).
  fold q0 in Hd. by rewrite Hd, Hst.
Qed.


Lemma RxPinChangeIsr_long_run_searching pin curr s :
  genuine_edge pin s -> run_length CPU_F_FACTOR curr s > 9 ->
  state (head_desc (VanBusRx s)) = VAN_RX_SEARCHING ->
  let q0 := if pin =? VAN_BIT_RECESSIVE
            then set_lastMediaAccessAt (VanBusRx s) curr else VanBusRx s in
  ISR pin curr s
  = mkSystem
      (upd_head (fun d => set_size d 0)
         (upd_head (fun d => set_slot d (Z.of_nat (_head q0))) q0))
      (mkStatics pin curr
         (nBitsFromCycles CPU_F_FACTOR (u32 (curr - prev (isr s))) (jitter (isr s))).2
         0 0)
      (ackTimerArmed s).
Proof.
  intros Hedge Hlong Hst q0. unfold RxPinChangeIsr.
  rewrite (proj2 (Z.eqb_neq _ _) Hedge). cbv zeta. fold q0.
  destruct (edge_queue_proj (pin =? VAN_BIT_RECESSIVE) (VanBusRx s) curr)
    as (_ & _ & _ & _ & _ & _ & _ & Hd).
  fold q0 in Hd. rewrite Hd, Hst. unfold run_length in Hlong.
  rewrite (proj2 (Z.gtb_gt _ _)) by lia. by rewrite bool_decide_true.
Qed.

Lemma RxPinChangeIsr_long_run_loading pin curr s :
  genuine_edge pin s -> run_length CPU_F_FACTOR curr s > 9 ->
  state (head_desc (VanBusRx s)) = VAN_RX_LOADING ->
  let q0 := if pin =? VAN_BIT_RECESSIVE
            then set_lastMediaAccessAt (VanBusRx s) curr else VanBusRx s in
  ISR pin curr s
  = mkSystem
      (_AdvanceHead VAN_RX_QUEUE_SIZE
         (upd_head (fun d => set_result d VAN_RX_ERROR_NBITS)
            (upd_head (fun d => set_slot d (Z.of_nat (_head q0))) q0)))
      (mkStatics pin curr
         (nBitsFromCycles CPU_F_FACTOR (u32 (curr - prev (isr s))) (jitter (isr s))).2
         (atBit (isr s)) (readBits (isr s)))
      (ackTimerArmed s).
Proof.
  intros Hedge Hlong Hst q0. unfold RxPinChangeIsr.
  rewrite (proj2 (Z.eqb_neq _ _) Hedge). cbv zeta. fold q0.
  destruct (edge_queue_proj (pin =? VAN_BIT_RECESSIVE) (VanBusRx s) curr)
    as (_ & _ & _ & _ & _ & _ & _ & Hd).
  fold q0 in Hd. rewrite Hd, Hst. unfold run_length in Hlong.
  rewrite (proj2 (Z.gtb_gt _ _)) by lia. by rewrite bool_decide_false.
Qed.

Lemma local_head_desc q q' g :
  pool q' = alter g (_head q) (pool q) -> _head q' = _head q ->
  (_head q < length (pool q))%nat ->
  head_desc q' = g (head_desc q).
Proof.
  intros Hpool Hhead Hlt. unfold head_desc. rewrite Hpool, Hhead.
  by apply list_lookup_total_alter_eq.
Qed.

Lemma advance_head_idle s q' g :
  Inv s ->
  pool q' = alter g (_head (VanBusRx s)) (pool (VanBusRx s)) ->
  _head q' = next (_head (VanBusRx s)) ->
  state (g (head_desc (VanBusRx s))) = VAN_RX_DONE ->
  state (head_desc q') <> VAN_RX_WAITING_ACK.
Proof.
  intros ((Hlen & Hh & Ht) & Hnamed & Hidle & Harmed & Hack) Hpool Hhead Hg.
  assert (Hlt : (_head (VanBusRx s) < length (pool (VanBusRx s)))%nat) by lia.
  unfold head_desc. rewrite Hpool, Hhead.
  destruct (decide (next (_head (VanBusRx s)) = _head (VanBusRx s))) as [->|Hne].
  - rewrite list_lookup_total_alter_eq by done. fold (head_desc (VanBusRx s)).
    by rewrite Hg.
  - rewrite list_lookup_total_alter_ne by done.
    destruct (Hidle (next (_head (VanBusRx s))) (pool (VanBusRx s) !!! next (_head (VanBusRx s))))
      as [->| ->]; try done.
    apply list_lookup_lookup_total_lt. rewrite Hlen. by apply next_lt.
Qed.



(** ** The claims about the receiver *)

(** C9. A spurious interrupt, with the pin at the level recorded at the
    previous invocation, leaves the whole receiver as it was: descriptors,
    queue, decoder statics and the saved cycle count [prev]. The next
    genuine edge is therefore handled exactly as if the spurious interrupt
    had not happened, its cycle delta being taken from the last genuine
    edge. *)
Theorem spurious_interrupt_ignored pin curr s :
  pin = prevPinLevelChangedTo (isr s) ->
  ISR pin curr s = s /\
  prev (isr (ISR pin curr s)) = prev (isr s) /\
  (forall pin' curr',
     ISR pin' curr' (ISR pin curr s) = ISR pin' curr' s /\
     u32 (curr' - prev (isr (ISR pin curr s))) = u32 (curr' - prev (isr s)) /\
     run_length CPU_F_FACTOR curr' (ISR pin curr s)
     = run_length CPU_F_FACTOR curr' s).
Proof.
  intros Hsame. pose proof (RxPinChangeIsr_spurious pin curr s Hsame) as Heq.
  by rewrite Heq.
Qed.





(** C7. On a genuine edge whose run is classified to more than 9 bits:
    while SEARCHING, the bit count, the accumulated bits and the size of
    the head descriptor are reset, the descriptor stays SEARCHING with its
    result untouched, and the queue pointers, the counters, the overrun
    flag and what [Available] reports are unchanged; while LOADING, the
    result of the head descriptor is set to ERROR_NBITS and the frame is
    force-completed by [_AdvanceHead] (slot DONE, head on the next slot). *)
Theorem overlong_run_restarts_search_or_fails_frame pin curr s :
  (_head (VanBusRx s) < length (pool (VanBusRx s)))%nat ->
  genuine_edge pin s -> run_length CPU_F_FACTOR curr s > 9 ->
  let q := VanBusRx s in
  let h := _head q in
  let q' := VanBusRx (ISR pin curr s) in
  (state (head_desc q) = VAN_RX_SEARCHING ->
   atBit (isr (ISR pin curr s)) = 0 /\ readBits (isr (ISR pin curr s)) = 0 /\
   pool q' = alter (fun d => set_size (set_slot d (Z.of_nat h)) 0) h (pool q) /\
   state (head_desc q') = VAN_RX_SEARCHING /\ size (head_desc q') = 0 /\
   result (head_desc q') = result (head_desc q) /\
   _head q' = h /\ tail q' = tail q /\ _overrun q' = _overrun q /\
   count q' = count q /\ nCorrupt q' = nCorrupt q /\ nRepaired q' = nRepaired q /\
   Available q' = Available q /\
   ackTimerArmed (ISR pin curr s) = ackTimerArmed s) /\
  (state (head_desc q) = VAN_RX_LOADING ->
   atBit (isr (ISR pin curr s)) = atBit (isr s) /\
   readBits (isr (ISR pin curr s)) = readBits (isr s) /\
   pool q'
   = alter (fun d => set_state (set_result (set_slot d (Z.of_nat h))
                                           VAN_RX_ERROR_NBITS) VAN_RX_DONE)
           h (pool q) /\
   result (pool q' !!! h) = VAN_RX_ERROR_NBITS /\
   state (pool q' !!! h) = VAN_RX_DONE /\
   _head q' = next h /\ tail q' = tail q /\ count q' = u32 (count q + 1)).
Proof.
  intros Hlt Hedge Hlong q h q'.
  destruct (edge_queue_proj (pin =? VAN_BIT_RECESSIVE) (VanBusRx s) curr)
    as (Hp & Hhd & Htl & Hov & Hc & Hnc & Hnr & Hd).
  split; intros Hst; unfold q'.
  - rewrite RxPinChangeIsr_long_run_searching by done.
    cbn [VanBusRx isr ackTimerArmed atBit readBits].
    assert (Hpool : pool (upd_head (fun d => set_size d 0)
               (upd_head (fun d => set_slot d (Z.of_nat (_head
                  (if pin =? VAN_BIT_RECESSIVE
                   then set_lastMediaAccessAt (VanBusRx s) curr else VanBusRx s))))
                  (if pin =? VAN_BIT_RECESSIVE
                   then set_lastMediaAccessAt (VanBusRx s) curr else VanBusRx s)))
             = alter (fun d => set_size (set_slot d (Z.of_nat h)) 0) h (pool q)).
    { q_simpl. by rewrite list_alter_alter_eq, Hp, Hhd. }
    rewrite !head_desc_upd_head by (q_simpl; by rewrite ?length_alter, ?Hp, ?Hhd).
    rewrite Hd. d_simpl. split_and!; try done; try (q_simpl; congruence).
    unfold Available, tail_desc. rewrite Hpool. q_simpl. rewrite Htl.
    assert (Hsame : state (alter (fun d => set_size (set_slot d (Z.of_nat h)) 0)
                                 h (pool q) !!! tail q)
                    = state (pool q !!! tail q)).
    { destruct (decide (h = tail q)) as [Heq|Hne].
      - rewrite <- Heq, list_lookup_total_alter_eq by done. by d_simpl.
      - by rewrite list_lookup_total_alter_ne. }
    subst q. by rewrite Hsame.
  - rewrite RxPinChangeIsr_long_run_loading by done.
    cbn [VanBusRx isr ackTimerArmed atBit readBits].
    assert (Hpool : pool (_AdvanceHead VAN_RX_QUEUE_SIZE
               (upd_head (fun d => set_result d VAN_RX_ERROR_NBITS)
               (upd_head (fun d => set_slot d (Z.of_nat (_head
                  (if pin =? VAN_BIT_RECESSIVE
                   then set_lastMediaAccessAt (VanBusRx s) curr else VanBusRx s))))
                  (if pin =? VAN_BIT_RECESSIVE
                   then set_lastMediaAccessAt (VanBusRx s) curr else VanBusRx s))))
             = alter (fun d => set_state (set_result (set_slot d (Z.of_nat h))
                                           VAN_RX_ERROR_NBITS) VAN_RX_DONE)
                     h (pool q)).
    { q_simpl. by rewrite !list_alter_alter_eq, Hp, Hhd. }
    rewrite Hpool. rewrite list_lookup_total_alter_eq by done. d_simpl.
    split_and!; try done; q_simpl; by rewrite ?Hhd, ?Htl, ?Hc.
Qed.

(** C8, as amended. [Receive] returns false and changes nothing while the
    slot at the tail is not DONE. When it is DONE, [Receive] returns true,
    hands the caller a copy of the whole descriptor, resets the slot to
    VACANT and advances the tail; if the caller passed a pointer for the
    overrun condition, the latched flag is reported through it and then
    cleared, and if the caller passed none, the flag is neither reported
    nor cleared. *)
Theorem Receive_drains_tail q pkt isQueueOverrun :
  (tail q < length (pool q))%nat ->
  (state (tail_desc q) <> VAN_RX_DONE ->
   Receive VAN_RX_QUEUE_SIZE q pkt isQueueOverrun = (false, pkt, isQueueOverrun, q)) /\
  (state (tail_desc q) = VAN_RX_DONE ->
   let '(ok, pkt', reported, q') := Receive VAN_RX_QUEUE_SIZE q pkt isQueueOverrun in
   ok = true /\ pkt' = tail_desc q /\
   pool q' = alter Init (tail q) (pool q) /\
   state (pool q' !!! tail q) = VAN_RX_VACANT /\
   tail q' = next (tail q) /\ _head q' = _head q /\
   match isQueueOverrun with
   | Some _ => reported = Some (_overrun q) /\ _overrun q' = false
   | None => reported = None /\ _overrun q' = _overrun q
   end).
Proof.
  intros Hlt. split; [apply Receive_empty|].
  intros Hdone.
  destruct (Receive_queue q pkt isQueueOverrun Hdone) as (Hp & Hh & Ht & _ & _ & _ & Hov).
  revert Hp Hh Ht Hov. unfold Receive, Available.
  rewrite bool_decide_true by done. cbn [negb].
  destruct isQueueOverrun; cbn [snd]; intros Hp Hh Ht Hov;
    rewrite Hp, list_lookup_total_alter_eq by done; by split_and!.
Qed.

(** C10. [DataLen] is the size minus 5, never clamped: it is negative for
    every descriptor of fewer than 5 bytes, while the length [DumpRaw]
    prints is clamped at zero. A frame cut short by an overlong run right
    after its start byte is such a descriptor: it is DONE with result
    ERROR_NBITS and size 1, its [DataLen] is -4 and the dump shows 0. *)
Theorem DataLen_not_clamped :
  (forall d,
     DataLen d = size d - 5 /\
     (size d < 5 -> DataLen d < 0) /\
     DumpRaw_dataLen d = Z.max 0 (size d - 5) /\
     0 <= DumpRaw_dataLen d) /\
  (let d := pool (VanBusRx example_full) !!! 0%nat in
   state d = VAN_RX_DONE /\ result d = VAN_RX_ERROR_NBITS /\ size d = 1 /\
   DataLen d = -4 /\ DumpRaw_dataLen d = 0).
Proof.
  split.
  - intros d. unfold DataLen, DumpRaw_dataLen.
    destruct (Z.ltb_spec (size d - 5) 0); lia.
  - vm_compute. by repeat split.
Qed.

End ReceiverProofs.

(** ** The claims at concrete inputs *)

Lemma example_system_power_on : power_on 32 3 1 example_system.
Proof.
  unfold power_on. split_and!; try reflexivity.
  repeat constructor.
Qed.

Lemma reachable_run_runs runs t s :
  reachable 1 32 3 0 1 s -> runs_ok runs t = true ->
  reachable 1 32 3 0 1 (run_runs runs t s).
Proof.
  revert t s. induction runs as [|[level n] runs IH]; intros t s Hs Hok; [done|].
  cbn [runs_ok] in Hok. apply andb_true_iff in Hok as [Hrange Hok].
  cbn [run_runs]. apply IH; [|done].
  apply (reachable_step _ _ _ _ _ s); [done|]. apply step_pin. lia.
Qed.

Lemma example_searching_reachable : reachable 1 32 3 0 1 example_searching.
Proof.
  apply reachable_run_runs; [|reflexivity].
  apply reachable_power_on, example_system_power_on.
Qed.

Lemma example_full_reachable : reachable 1 32 3 0 1 example_full.
Proof.
  apply reachable_run_runs; [|reflexivity].
  apply reachable_power_on, example_system_power_on.
Qed.

Lemma example_overrun_reachable : reachable 1 32 3 0 1 example_overrun.
Proof.
  apply (reachable_step _ _ _ _ _ example_full); [|apply step_pin; lia].
  exact example_full_reachable.
Qed.


Lemma example_waiting_ack_reachable : reachable 1 32 3 0 1 example_waiting_ack.
Proof.
  apply (reachable_step _ _ _ _ _ example_before_eod); [|apply step_pin; lia].
  apply reachable_run_runs; [|reflexivity].
  apply reachable_power_on, example_system_power_on.
Qed.

Lemma spurious_interrupt_ignored_witness :
  RxPinChangeIsr 1 32 3 0 1 1 650000 example_searching = example_searching /\
  prev (isr (RxPinChangeIsr 1 32 3 0 1 1 650000 example_searching))
  = prev (isr example_searching) /\
  (forall pin' curr',
     RxPinChangeIsr 1 32 3 0 1 pin' curr'
       (RxPinChangeIsr 1 32 3 0 1 1 650000 example_searching)
     = RxPinChangeIsr 1 32 3 0 1 pin' curr' example_searching /\
     u32 (curr' - prev (isr (RxPinChangeIsr 1 32 3 0 1 1 650000 example_searching)))
     = u32 (curr' - prev (isr example_searching)) /\
     run_length 1 curr' (RxPinChangeIsr 1 32 3 0 1 1 650000 example_searching)
     = run_length 1 curr' example_searching).
Proof.
  apply (spurious_interrupt_ignored 1 32 3 0 1 1 650000 example_searching).
  reflexivity.
Defined.





Lemma overlong_run_restarts_search_or_fails_frame_witness :
  (let s := example_searching in
   let q := VanBusRx s in
   let h := _head q in
   let q' := VanBusRx (RxPinChangeIsr 1 32 3 0 1 0 654080 s) in
   (state (head_desc q) = VAN_RX_SEARCHING ->
    atBit (isr (RxPinChangeIsr 1 32 3 0 1 0 654080 s)) = 0 /\
    readBits (isr (RxPinChangeIsr 1 32 3 0 1 0 654080 s)) = 0 /\
    pool q' = alter (fun d => set_size (set_slot d (Z.of_nat h)) 0) h (pool q) /\
    state (head_desc q') = VAN_RX_SEARCHING /\ size (head_desc q') = 0 /\
    result (head_desc q') = result (head_desc q) /\
    _head q' = h /\ tail q' = tail q /\ _overrun q' = _overrun q /\
    count q' = count q /\ nCorrupt q' = nCorrupt q /\ nRepaired q' = nRepaired q /\
    Available q' = Available q /\
    ackTimerArmed (RxPinChangeIsr 1 32 3 0 1 0 654080 s) = ackTimerArmed s) /\
   (state (head_desc q) = VAN_RX_LOADING ->
    atBit (isr (RxPinChangeIsr 1 32 3 0 1 0 654080 s)) = atBit (isr s) /\
    readBits (isr (RxPinChangeIsr 1 32 3 0 1 0 654080 s)) = readBits (isr s) /\
    pool q'
    = alter (fun d => set_state (set_result (set_slot d (Z.of_nat h))
                                            VAN_RX_ERROR_NBITS) VAN_RX_DONE)
            h (pool q) /\
    result (pool q' !!! h) = VAN_RX_ERROR_NBITS /\
    state (pool q' !!! h) = VAN_RX_DONE /\
    _head q' = (if decide (S h = 3%nat) then 0%nat else S h) /\
    tail q' = tail q /\ count q' = u32 (count q + 1))) /\
  (let s := example_loading in
   let q := VanBusRx s in
   let h := _head q in
   let q' := VanBusRx (RxPinChangeIsr 1 32 3 0 1 1 659200 s) in
   (state (head_desc q) = VAN_RX_SEARCHING ->
    atBit (isr (RxPinChangeIsr 1 32 3 0 1 1 659200 s)) = 0 /\
    readBits (isr (RxPinChangeIsr 1 32 3 0 1 1 659200 s)) = 0 /\
    pool q' = alter (fun d => set_size (set_slot d (Z.of_nat h)) 0) h (pool q) /\
    state (head_desc q') = VAN_RX_SEARCHING /\ size (head_desc q') = 0 /\
    result (head_desc q') = result (head_desc q) /\
    _head q' = h /\ tail q' = tail q /\ _overrun q' = _overrun q /\
    count q' = count q /\ nCorrupt q' = nCorrupt q /\ nRepaired q' = nRepaired q /\
    Available q' = Available q /\
    ackTimerArmed (RxPinChangeIsr 1 32 3 0 1 1 659200 s) = ackTimerArmed s) /\
   (state (head_desc q) = VAN_RX_LOADING ->
    atBit (isr (RxPinChangeIsr 1 32 3 0 1 1 659200 s)) = atBit (isr s) /\
    readBits (isr (RxPinChangeIsr 1 32 3 0 1 1 659200 s)) = readBits (isr s) /\
    pool q'
    = alter (fun d => set_state (set_result (set_slot d (Z.of_nat h))
                                            VAN_RX_ERROR_NBITS) VAN_RX_DONE)
            h (pool q) /\
    result (pool q' !!! h) = VAN_RX_ERROR_NBITS /\
    state (pool q' !!! h) = VAN_RX_DONE /\
    _head q' = (if decide (S h = 3%nat) then 0%nat else S h) /\
    tail q' = tail q /\ count q' = u32 (count q + 1))).
Proof.
  split.
  - apply (overlong_run_restarts_search_or_fails_frame 1 32 3 0 1 0 654080
             example_searching).
    + vm_compute. lia.
    + vm_compute. discriminate.
    + vm_compute. reflexivity.
  - apply (overlong_run_restarts_search_or_fails_frame 1 32 3 0 1 1 659200
             example_loading).
    + vm_compute. lia.
    + vm_compute. discriminate.
    + vm_compute. reflexivity.
Defined.

Lemma Receive_drains_tail_witness :
  let q := VanBusRx example_overrun in
  (state (tail_desc q) <> VAN_RX_DONE ->
   Receive 3 q empty_desc (Some false) = (false, empty_desc, Some false, q)) /\
  (state (tail_desc q) = VAN_RX_DONE ->
   let '(ok, pkt', reported, q') := Receive 3 q empty_desc (Some false) in
   ok = true /\ pkt' = tail_desc q /\
   pool q' = alter Init (tail q) (pool q) /\
   state (pool q' !!! tail q) = VAN_RX_VACANT /\
   tail q' = (if decide (S (tail q) = 3%nat) then 0%nat else S (tail q)) /\
   _head q' = _head q /\
   reported = Some (_overrun q) /\ _overrun q' = false).
Proof.
  apply (Receive_drains_tail 3 (VanBusRx example_overrun) empty_desc (Some false)).
  vm_compute. lia.
Defined.

(** C8 as stated fails when the caller passes no pointer for the overrun
    condition: [Receive] still drains the frame and returns true, but the
    latched overrun flag is neither reported nor cleared. *)
Lemma Receive_without_pointer_keeps_overrun :
  let q := VanBusRx example_overrun in
  state (tail_desc q) = VAN_RX_DONE /\ _overrun q = true /\
  (Receive 3 q empty_desc None).1.1.1 = true /\
  (Receive 3 q empty_desc None).1.2 = None /\
  _overrun (Receive 3 q empty_desc None).2 <> false.
Proof. vm_compute. repeat split; discriminate. Qed.

(** ** Further properties of the CRC engine and of the packet accessors *)

Lemma fold_left_ext_in {A B} (f g : A -> B -> A) l a :
  (forall a x, x ∈ l -> f a x = g a x) -> fold_left f l a = fold_left g l a.
Proof.
  revert a. induction l as [|x l IH]; intros a H; [done|]. cbn [fold_left].
  rewrite H by left. apply IH. intros a' y Hy. apply H. by right.
Qed.

Lemma crc_loop_ext bs bs' from to r :
  (forall i, from <= i < to -> byte_at bs' i = byte_at bs i) ->
  crc_loop bs' from to r = crc_loop bs from to r.
Proof.
  intros H. unfold crc_loop. apply fold_left_ext_in.
  intros a i Hi. apply elem_of_seqZ in Hi. rewrite H; [done|lia].
Qed.

Lemma byte_at_range bs i : is_bytes bs -> 0 <= byte_at bs i < 256.
Proof.
  intros Hbs. unfold byte_at. destruct (bs !! Z.to_nat i) as [b|] eqn:Hb; simpl.
  - by apply (is_bytes_lookup bs (Z.to_nat i)).
  - lia.
Qed.

Lemma mod_pow2_land a n : 0 <= n -> a mod 2 ^ n = Z.land a (Z.ones n).
Proof. intros Hn. by rewrite Z.land_ones. Qed.

Lemma lxor_range n a b :
  0 <= n -> 0 <= a < 2 ^ n -> 0 <= b < 2 ^ n -> 0 <= Z.lxor a b < 2 ^ n.
Proof.
  intros Hn Ha Hb.
  assert (Hmod : Z.lxor a b = Z.lxor a b mod 2 ^ n).
  { rewrite mod_pow2_land, land_lxor_distr, <- !mod_pow2_land by done.
    by rewrite !Z.mod_small. }
  rewrite Hmod. apply Z.mod_pos_bound. by apply Z.pow_pos_nonneg.
Qed.

Lemma lxor_swap a b c : Z.lxor a b = c <-> a = Z.lxor b c.
Proof.
  split; intros H.
  - rewrite <- H, (Z.lxor_comm a b), <- Z.lxor_assoc, Z.lxor_nilpotent.
    by rewrite Z.lxor_0_l.
  - rewrite H, (Z.lxor_comm b c), Z.lxor_assoc, Z.lxor_nilpotent.
    by rewrite Z.lxor_0_r.
Qed.

(** Which pairs of bytes, fed to a zero register, leave it zero: by
    linearity, those where the register after the first byte and a zero
    byte equals the register after the second byte alone. *)
Lemma trailer_deltas_all :
  allZ (fun hi =>
    (fun a =>
       allZ (fun lo =>
         Bool.eqb (a =? crc15_byte 0 lo)
                  (((hi =? 0) && (lo =? 0)) || ((hi =? 0x8F) && (lo =? 0x9D))))
            256)
    (crc15_byte (crc15_byte 0 hi) 0)) 256 = true.
Proof. vm_compute. reflexivity. Qed.

Lemma trailer_cell hi lo :
  0 <= hi < 256 -> 0 <= lo < 256 ->
  Bool.eqb (crc15_byte (crc15_byte 0 hi) 0 =? crc15_byte 0 lo)
           (((hi =? 0) && (lo =? 0)) || ((hi =? 0x8F) && (lo =? 0x9D))) = true.
Proof.
  intros Hhi Hlo.
  exact (allZ_spec _ _ (allZ_spec _ _ trailer_deltas_all hi Hhi) lo Hlo).
Qed.

Lemma one_byte_frame_all : allZ one_byte_frame_ok 256 = true.
Proof. vm_compute. reflexivity. Qed.

Lemma iden_flags_all : allZ iden_flags_ok 256 = true.
Proof. vm_compute. reflexivity. Qed.

(** Two trailing bytes fed to a zero register leave it zero only if both
    are zero or if they spell the generator, 0x8F9D. *)
Lemma trailer_delta hi lo :
  0 <= hi < 256 -> 0 <= lo < 256 ->
  crc15_byte (crc15_byte 0 hi) lo = 0 <->
  (hi = 0 /\ lo = 0) \/ (hi = 0x8F /\ lo = 0x9D).
Proof.
  intros Hhi Hlo.
  pose proof (trailer_cell hi lo Hhi Hlo) as Hrow. apply eqb_prop in Hrow.
  assert (Hlin : crc15_byte (crc15_byte 0 hi) lo
                 = Z.lxor (crc15_byte (crc15_byte 0 hi) 0) (crc15_byte 0 lo)).
  { rewrite <- crc15_byte_xor. by rewrite Z.lxor_0_r, Z.lxor_0_l. }
  rewrite Hlin. rewrite lxor_swap, Z.lxor_0_r.
  rewrite <- Z.eqb_eq, Hrow.
  rewrite orb_true_iff, !andb_true_iff, !Z.eqb_eq. done.
Qed.

Lemma crc15_snoc2 l hi lo :
  crc15 (l ++ [hi; lo]) = crc15_byte (crc15_byte (crc15 l) hi) lo.
Proof. unfold crc15. by rewrite fold_left_app. Qed.

Lemma Crc_bytes_range r :
  0 <= r < 32768 ->
  let c := Z.shiftl (Z.lxor r 0x7FFF) 1 in
  0 <= c < 65536 /\ Z.even c = true /\
  0 <= Z.shiftr c 8 < 256 /\ 0 <= Z.land c 0xFF < 256.
Proof.
  intros Hr c.
  assert (Hx : 0 <= Z.lxor r 0x7FFF < 2 ^ 15) by (apply lxor_range; lia).
  assert (Hc : c = 2 * Z.lxor r 0x7FFF).
  { unfold c. rewrite Z.shiftl_mul_pow2 by lia. lia. }
  assert (Hrange : 0 <= c < 65536) by lia.
  split; [done|]. split.
  { rewrite Hc, Z.even_mul. done. }
  split.
  - rewrite Z.shiftr_div_pow2 by lia. change (2 ^ 8) with 256.
    split; [apply Z.div_pos; lia|apply Z.div_lt_upper_bound; lia].
  - change 0xFF with (Z.ones 8). rewrite Z.land_ones by lia.
    apply Z.mod_pos_bound. lia.
Qed.

(** What the repair loops do, on any packet: either no flip in the range
    scanned passes [CheckCrc] and the packet is left as it was, or the
    result is the packet with one flipped bit, which passes. *)
Lemma repair_bits_sound k js d :
  is_bytes (bytes d) -> (forall j, j ∈ js -> 0 <= j < 8) ->
  (repair_bits k js d = (false, d) /\
   forall j, j ∈ js -> CheckCrc (set_bytes d (flip (bytes d) k j)) = false) \/
  (exists j, j ∈ js /\
     CheckCrc (set_bytes d (flip (bytes d) k j)) = true /\
     repair_bits k js d = (true, set_bytes d (flip (bytes d) k j))).
Proof.
  intros Hbs. induction js as [|j js IH]; intros Hjs.
  - left. split; [done|]. intros j Hj. by apply elem_of_nil in Hj.
  - cbn [repair_bits]. cbv zeta.
    destruct (CheckCrc (set_bytes d (flip (bytes d) k j))) eqn:Hc.
    + right. exists j. split; [left|done].
    + assert (Hback : set_bytes (set_bytes d (flip (bytes d) k j))
                        (flip (bytes (set_bytes d (flip (bytes d) k j))) k j) = d).
      { cbn [bytes set_bytes]. rewrite flip_flip; [by destruct d|done|].
        apply Hjs. left. }
      rewrite Hback.
      destruct IH as [[Hr Hall]|(j' & Hin & Hc' & Hr)].
      * intros j' Hj'. apply Hjs. by right.
      * left. split; [done|]. intros j' Hj'.
        apply elem_of_cons in Hj' as [->|Hj']; [done|by apply Hall].
      * right. exists j'. split; [by right|done].
Qed.

Lemma repair_bytes_sound ks d :
  is_bytes (bytes d) ->
  (repair_bytes ks d = (false, d) /\
   forall (k : nat) j, k ∈ ks -> 0 <= j < 8 ->
     CheckCrc (set_bytes d (flip (bytes d) k j)) = false) \/
  (exists (k : nat) j, k ∈ ks /\ 0 <= j < 8 /\
     CheckCrc (set_bytes d (flip (bytes d) k j)) = true /\
     repair_bytes ks d = (true, set_bytes d (flip (bytes d) k j))).
Proof.
  intros Hbs. induction ks as [|k ks IH].
  - left. split; [done|]. intros k j Hk. by apply elem_of_nil in Hk.
  - cbn [repair_bytes].
    destruct (repair_bits_sound k (seqZ 0 8) d Hbs) as [[Hr Hall]|(j & Hin & Hc & Hr)].
    { intros j Hj. apply elem_of_seqZ in Hj. lia. }
    + rewrite Hr. destruct IH as [[Hr' Hall']|(k' & j' & Hin' & Hj' & Hc' & Hr')].
      * left. split; [done|]. intros k' j' Hk' Hj'.
        apply elem_of_cons in Hk' as [->|Hk'].
        -- apply Hall, elem_of_seqZ. lia.
        -- by apply Hall'.
      * right. exists k', j'. split; [by right|done].
    + rewrite Hr. right. exists k, j. split; [left|].
      apply elem_of_seqZ in Hin. split; [lia|done].
Qed.

Lemma CheckCrcAndRepair_cases q d :
  is_bytes (bytes d) ->
  (CheckCrc d = true /\ CheckCrcAndRepair q d = (true, d, q)) \/
  (CheckCrc d = false /\
   CheckCrcAndRepair q d = (false, d, set_nCorrupt q (u32 (nCorrupt q + 1))) /\
   forall (k : nat) j, Z.of_nat k < size d -> 0 <= j < 8 ->
     CheckCrc (set_bytes d (flip (bytes d) k j)) = false) \/
  (CheckCrc d = false /\
   exists (k : nat) j, Z.of_nat k < size d /\ 0 <= j < 8 /\
     CheckCrc (set_bytes d (flip (bytes d) k j)) = true /\
     CheckCrcAndRepair q d
     = (true, set_bytes d (flip (bytes d) k j),
        set_nRepaired (set_nCorrupt q (u32 (nCorrupt q + 1)))
                      (u32 (nRepaired q + 1)))).
Proof.
  intros Hbs. unfold CheckCrcAndRepair.
  destruct (CheckCrc d) eqn:Hc; [by left|right].
  destruct (repair_bytes_sound (seq 0 (Z.to_nat (size d))) d Hbs)
    as [[Hr Hall]|(k & j & Hin & Hj & Hc' & Hr)].
  - left. rewrite Hr. split; [done|]. split; [done|].
    intros k j Hk Hj. apply Hall; [|done]. apply elem_of_seq. lia.
  - right. rewrite Hr. split; [done|]. exists k, j.
    apply elem_of_seq in Hin. split; [lia|]. done.
Qed.

(** X1. [CheckCrc] and [Crc] read the buffer only at the indices from 1
    up to [size - 1]: a buffer that agrees with the packet's there gives
    the same results, whatever its start byte and whatever follows the
    frame. *)
Theorem crc_reads_only_bytes_after_start d bs' :
  (forall i, 1 <= i < size d -> byte_at bs' i = byte_at (bytes d) i) ->
  CheckCrc (set_bytes d bs') = CheckCrc d /\ Crc (set_bytes d bs') = Crc d.
Proof.
  intros H. unfold CheckCrc, Crc, _crc. cbn [bytes size set_bytes]. split.
  - by rewrite (crc_loop_ext (bytes d) bs').
  - rewrite (crc_loop_ext (bytes d) bs'); [done|]. intros i Hi. apply H. lia.
Qed.

Lemma crc_reads_only_bytes_after_start_witness :
  CheckCrc (set_bytes example_packet [0xFF; 0x8A; 0x48; 0x0F; 0x07; 0x94; 0x86; 0x55])
  = CheckCrc example_packet /\
  Crc (set_bytes example_packet [0xFF; 0x8A; 0x48; 0x0F; 0x07; 0x94; 0x86; 0x55])
  = Crc example_packet.
Proof.
  apply (crc_reads_only_bytes_after_start example_packet).
  intros i Hi. simpl in Hi.
  assert (Hc : i = 1 \/ i = 2 \/ i = 3 \/ i = 4 \/ i = 5 \/ i = 6) by lia.
  destruct Hc as [->|[->|[->|[->|[->| ->]]]]]; reflexivity.
Defined.

(** X2. [CheckCrcAndRepair] on a buffer of bytes: when it returns true the
    packet it leaves passes [CheckCrc] and is the given packet, either
    untouched or with exactly one bit flipped inside the frame; when it
    returns false the packet is the given one, which fails [CheckCrc], and
    so does every packet obtained from it by flipping one bit of the
    frame. All other fields of the packet are never changed. *)
Theorem CheckCrcAndRepair_sound_and_exhaustive q d ok d' q' :
  is_bytes (bytes d) ->
  CheckCrcAndRepair q d = (ok, d', q') ->
  (ok = true ->
   CheckCrc d' = true /\
   (d' = d \/ exists (k : nat) j, Z.of_nat k < size d /\ 0 <= j < 8 /\
               d' = set_bytes d (flip (bytes d) k j))) /\
  (ok = false ->
   d' = d /\ CheckCrc d = false /\
   forall (k : nat) j, Z.of_nat k < size d -> 0 <= j < 8 ->
     CheckCrc (set_bytes d (flip (bytes d) k j)) = false).
Proof.
  intros Hbs Hcall.
  destruct (CheckCrcAndRepair_cases q d Hbs)
    as [[Hc Hr]|[(Hc & Hr & Hall)|(Hc & k & j & Hk & Hj & Hc' & Hr)]];
    rewrite Hr in Hcall; inversion Hcall; subst.
  - split; [|done]. intros _. split; [done|by left].
  - split; [done|]. intros _. split_and!; done.
  - split; [|done]. intros _. split; [done|]. right. by exists k, j.
Qed.

Lemma CheckCrcAndRepair_sound_and_exhaustive_witness :
  let d := set_bytes example_packet (flip (bytes example_packet) 3 5) in
  let q' := set_nRepaired (set_nCorrupt example_queue 1) 1 in
  (true = true ->
   CheckCrc example_packet = true /\
   (example_packet = d \/ exists (k : nat) j, Z.of_nat k < size d /\ 0 <= j < 8 /\
               example_packet = set_bytes d (flip (bytes d) k j))) /\
  (true = false ->
   example_packet = d /\ CheckCrc d = false /\
   forall (k : nat) j, Z.of_nat k < size d -> 0 <= j < 8 ->
     CheckCrc (set_bytes d (flip (bytes d) k j)) = false).
Proof.
  intros d q'.
  apply (CheckCrcAndRepair_sound_and_exhaustive example_queue d true example_packet q').
  - apply is_bytes_flip. exact (proj1 example_packet_wf).
  - vm_compute. reflexivity.
Defined.

(** X3. Calling [CheckCrcAndRepair] a second time: after a call that
    returned true the second call returns true and changes neither the
    packet nor the counters; after a call that returned false the second
    call fails again and counts the same packet as corrupt once more. *)
Theorem CheckCrcAndRepair_second_call q d ok d' q' :
  is_bytes (bytes d) ->
  CheckCrcAndRepair q d = (ok, d', q') ->
  CheckCrcAndRepair q' d'
  = if ok then (true, d', q')
    else (false, d', set_nCorrupt q' (u32 (nCorrupt q' + 1))).
Proof.
  intros Hbs Hcall.
  destruct (CheckCrcAndRepair_cases q d Hbs)
    as [[Hc Hr]|[(Hc & Hr & Hall)|(Hc & k & j & Hk & Hj & Hc' & Hr)]];
    rewrite Hr in Hcall; inversion Hcall; subst.
  - unfold CheckCrcAndRepair. by rewrite Hc.
  - destruct (CheckCrcAndRepair_cases (set_nCorrupt q (u32 (nCorrupt q + 1))) d' Hbs)
      as [[Hc2 _]|[(_ & Hr2 & _)|(_ & k & j & Hk & Hj & Hc2 & _)]].
    + congruence.
    + done.
    + rewrite Hall in Hc2 by done. discriminate.
  - unfold CheckCrcAndRepair. by rewrite Hc'.
Qed.

Lemma CheckCrcAndRepair_second_call_witness :
  let d := set_bytes example_packet (flip (bytes example_packet) 3 5) in
  let q' := set_nRepaired (set_nCorrupt example_queue 1) 1 in
  CheckCrcAndRepair q' example_packet = (true, example_packet, q').
Proof.
  intros d q'.
  apply (CheckCrcAndRepair_second_call example_queue d true example_packet q').
  - apply is_bytes_flip. exact (proj1 example_packet_wf).
  - vm_compute. reflexivity.
Defined.

(** X4. The statistics stay consistent as long as the 32-bit corrupt
    counter does not wrap: [CheckCrcAndRepair] keeps [nRepaired] at most
    [nCorrupt], so the difference [DumpStats] prints as the overall number
    of corrupt packets does not underflow, and that number goes up by one
    exactly when the call returns false. *)
Theorem overallCorrupt_counts_failures q d ok d' q' :
  0 <= nRepaired q <= nCorrupt q -> nCorrupt q < 4294967295 ->
  CheckCrcAndRepair q d = (ok, d', q') ->
  0 <= nRepaired q' <= nCorrupt q' /\
  DumpStats_overallCorrupt q' = nCorrupt q' - nRepaired q' /\
  DumpStats_overallCorrupt q'
  = DumpStats_overallCorrupt q + (if ok then 0 else 1).
Proof.
  intros Hle Hmax Hcall. unfold DumpStats_overallCorrupt.
  assert (Hc : u32 (nCorrupt q + 1) = nCorrupt q + 1)
    by (unfold u32; rewrite Z.mod_small; lia).
  assert (Hr : u32 (nRepaired q + 1) = nRepaired q + 1)
    by (unfold u32; rewrite Z.mod_small; lia).
  unfold CheckCrcAndRepair in Hcall.
  destruct (CheckCrc d).
  - inversion Hcall; subst. unfold u32. rewrite Z.mod_small by lia. lia.
  - destruct (repair_bytes _ _) as [[] d1]; inversion Hcall; subst;
      cbn [nCorrupt nRepaired set_nCorrupt set_nRepaired]; rewrite ?Hc, ?Hr;
      unfold u32; rewrite !Z.mod_small by lia; lia.
Qed.

Lemma overallCorrupt_counts_failures_witness :
  let d := set_bytes example_packet (flip (bytes example_packet) 3 5) in
  let q' := set_nRepaired (set_nCorrupt example_queue 1) 1 in
  0 <= nRepaired q' <= nCorrupt q' /\
  DumpStats_overallCorrupt q' = nCorrupt q' - nRepaired q' /\
  DumpStats_overallCorrupt q'
  = DumpStats_overallCorrupt example_queue + 0.
Proof.
  intros d q'.
  apply (overallCorrupt_counts_failures example_queue d true example_packet q').
  - simpl. lia.
  - simpl. lia.
  - vm_compute. reflexivity.
Defined.

(** X5. In a frame of at most 224 bytes that passes [CheckCrc], no two
    bit errors at different positions after the start byte cancel: the
    frame with both bits flipped fails [CheckCrc]. *)
Theorem double_bit_error_detected d (k k' : nat) j j' :
  wf_packet d -> size d <= 224 -> CheckCrc d = true ->
  (1 <= k)%nat -> Z.of_nat k < size d -> 0 <= j < 8 ->
  (1 <= k')%nat -> Z.of_nat k' < size d -> 0 <= j' < 8 ->
  (k', j') <> (k, j) ->
  CheckCrc (set_bytes d (flip (flip (bytes d) k j) k' j')) = false.
Proof.
  intros Hwf Hmax Hok Hk1 Hk Hj _ Hk' Hj' Hne.
  pose proof (CheckCrc_flip2 d k k' j j' Hwf Hmax Hok Hk1 Hk Hj Hk' Hj' Hne) as H.
  cbv zeta in H. by rewrite set_bytes_set_bytes in H.
Qed.

Lemma double_bit_error_detected_witness :
  CheckCrc (set_bytes example_packet (flip (flip (bytes example_packet) 2 7) 5 0))
  = false.
Proof.
  apply (double_bit_error_detected example_packet 2 5 7 0).
  - exact example_packet_wf.
  - simpl. lia.
  - vm_compute. reflexivity.
  - lia.
  - simpl. lia.
  - lia.
  - lia.
  - simpl. lia.
  - lia.
  - intros Heq. inversion Heq.
Defined.

(** X6. Which trailers [CheckCrc] accepts. A frame of at least 3 bytes
    passes exactly when its two trailing bytes are the high and low byte
    of what [Crc] computes from the bytes before them, or those two bytes
    XORed with 0x8F and 0x9D (the generator polynomial with its leading
    term): comparing the trailer with [Crc] is the stricter test. *)
Theorem CheckCrc_accepts_two_trailers d :
  wf_packet d -> 3 <= size d ->
  (CheckCrc d = true <->
   crc_valid d \/
   (byte_at (bytes d) (size d - 2) = Z.lxor (Z.shiftr (Crc d) 8) 0x8F /\
    byte_at (bytes d) (size d - 1) = Z.lxor (Z.land (Crc d) 0xFF) 0x9D)).
Proof.
  intros [Hbs Hsz] H3. unfold crc_valid.
  rewrite CheckCrc_crc15 by done.
  rewrite crc_covered_split by lia. rewrite crc15_snoc2.
  unfold Crc. rewrite _crc_crc15 by done.
  set (r := crc15 (crc_payload (bytes d) (size d))).
  set (hi := byte_at (bytes d) (size d - 2)).
  set (lo := byte_at (bytes d) (size d - 1)).
  assert (Hr : 0 <= r < 32768) by apply crc15_range.
  pose proof (crc_residue r Hr) as Hres.
  destruct (Crc_bytes_range r Hr) as (_ & _ & Hchi & Hclo).
  cbv zeta in Hchi, Hclo.
  set (chi := Z.shiftr (Z.shiftl (Z.lxor r 0x7FFF) 1) 8) in *.
  set (clo := Z.land (Z.shiftl (Z.lxor r 0x7FFF) 1) 0xFF) in *.
  assert (Hhi : 0 <= hi < 256) by by apply byte_at_range.
  assert (Hlo : 0 <= lo < 256) by by apply byte_at_range.
  assert (Hdhi : 0 <= Z.lxor hi chi < 2 ^ 8) by (apply lxor_range; lia).
  assert (Hdlo : 0 <= Z.lxor lo clo < 2 ^ 8) by (apply lxor_range; lia).
  assert (Hsplit : crc15_byte (crc15_byte r hi) lo
                   = Z.lxor 0x19B7 (crc15_byte (crc15_byte 0 (Z.lxor hi chi))
                                               (Z.lxor lo clo))).
  { rewrite <- Hres, <- !crc15_byte_xor. rewrite Z.lxor_0_r.
    f_equal; [f_equal|]; by apply lxor_swap. }
  rewrite Hsplit, Z.eqb_eq.
  assert (Hzero : forall s, Z.lxor 0x19B7 s = 0x19B7 <-> s = 0).
  { intros s. split; [apply lxor_cancel|intros ->; apply Z.lxor_0_r]. }
  rewrite Hzero, trailer_delta by (change 256 with (2 ^ 8); lia).
  rewrite !lxor_swap, !Z.lxor_0_r. done.
Qed.

Lemma CheckCrc_accepts_two_trailers_witness :
  CheckCrc example_packet = true <->
  crc_valid example_packet \/
  (byte_at (bytes example_packet) (size example_packet - 2)
   = Z.lxor (Z.shiftr (Crc example_packet) 8) 0x8F /\
   byte_at (bytes example_packet) (size example_packet - 1)
   = Z.lxor (Z.land (Crc example_packet) 0xFF) 0x9D).
Proof.
  apply (CheckCrc_accepts_two_trailers example_packet).
  - exact example_packet_wf.
  - simpl. lia.
Defined.

(** X7. What [Crc] returns is an even number below 65536: the 15-bit
    checksum sits in the bits 15 to 1 and bit 0 is always clear. *)
Theorem Crc_is_even_16_bit d :
  wf_packet d -> 0 <= Crc d < 65536 /\ Z.even (Crc d) = true.
Proof.
  intros [Hbs Hsz]. unfold Crc. rewrite _crc_crc15 by done.
  destruct (Crc_bytes_range (crc15 (crc_payload (bytes d) (size d))))
    as (H1 & H2 & _); [apply crc15_range|done].
Qed.

Lemma Crc_is_even_16_bit_witness :
  0 <= Crc example_packet < 65536 /\ Z.even (Crc example_packet) = true.
Proof. apply (Crc_is_even_16_bit example_packet), example_packet_wf. Defined.

(** X8. [Iden] and [CommandFlags] cut the 16 bits of the second and third
    byte into a 12-bit identifier and a 4-bit flags field without losing
    any: the identifier is below 4096, the flags below 16, and
    [16 * Iden + CommandFlags] is the big-endian value of the two bytes. *)
Theorem Iden_CommandFlags_split d :
  is_bytes (bytes d) ->
  0 <= Iden d < 4096 /\ 0 <= CommandFlags d < 16 /\
  16 * Iden d + CommandFlags d
  = 256 * byte_at (bytes d) 1 + byte_at (bytes d) 2.
Proof.
  intros Hbs. unfold Iden, CommandFlags.
  pose proof (byte_at_range (bytes d) 1 Hbs) as H1.
  pose proof (byte_at_range (bytes d) 2 Hbs) as H2.
  pose proof (allZ_spec _ _ iden_flags_all _ H1) as Hrow.
  unfold iden_flags_ok in Hrow.
  pose proof (allZ_spec _ _ Hrow _ H2) as Hcell. cbv beta zeta in Hcell.
  rewrite !andb_true_iff in Hcell.
  destruct Hcell as ((((Ha & Hb) & Hc) & Hd) & He).
  apply Z.leb_le in Ha, Hc. apply Z.ltb_lt in Hb, Hd. apply Z.eqb_eq in He.
  done.
Qed.

Lemma Iden_CommandFlags_split_witness :
  0 <= Iden example_packet < 4096 /\ 0 <= CommandFlags example_packet < 16 /\
  16 * Iden example_packet + CommandFlags example_packet
  = 256 * byte_at (bytes example_packet) 1 + byte_at (bytes example_packet) 2.
Proof.
  apply (Iden_CommandFlags_split example_packet).
  exact (proj1 example_packet_wf).
Defined.

(** X9. No packet of fewer than 3 bytes passes: with [size] at most 2
    [CheckCrc] returns false, and [CheckCrcAndRepair] returns false as
    well, leaves the packet as it was and counts it as corrupt. *)
Theorem short_packet_never_passes q d :
  is_bytes (bytes d) -> size d <= 2 ->
  CheckCrc d = false /\
  CheckCrcAndRepair q d = (false, d, set_nCorrupt q (u32 (nCorrupt q + 1))).
Proof.
  intros Hbs Hsz.
  assert (Hshort : forall d0, is_bytes (bytes d0) -> size d0 <= 2 ->
                              CheckCrc d0 = false).
  { clear. intros d Hbs Hsz. unfold CheckCrc, crc_loop.
    destruct (decide (size d = 2)) as [->|Hne].
    - change (seqZ 1 (2 - 1)) with [1]. cbn [fold_left].
      pose proof (byte_at_range (bytes d) 1 Hbs) as Hb.
      destruct (crc_byte_spec 0x7FFF (byte_at (bytes d) 1)) as [_ ->]; [lia|done|].
      pose proof (allZ_spec _ _ one_byte_frame_all _ Hb) as Hone.
      unfold one_byte_frame_ok in Hone. by apply negb_true_iff in Hone.
    - assert (Hnil : seqZ 1 (size d - 1) = []).
      { unfold seqZ. replace (Z.to_nat (size d - 1)) with 0%nat by lia. done. }
      rewrite Hnil. reflexivity. }
  split; [by apply Hshort|].
  destruct (CheckCrcAndRepair_cases q d Hbs)
    as [[Hc _]|[(_ & Hr & _)|(_ & k & j & _ & _ & Hc & _)]].
  - rewrite Hshort in Hc by done. discriminate.
  - done.
  - rewrite Hshort in Hc; [discriminate|by apply is_bytes_flip|done].
Qed.

Lemma short_packet_never_passes_witness :
  let d := set_size example_packet 2 in
  CheckCrc d = false /\
  CheckCrcAndRepair example_queue d
  = (false, d, set_nCorrupt example_queue (u32 (nCorrupt example_queue + 1))).
Proof.
  intros d. apply (short_packet_never_passes example_queue d).
  - exact (proj1 example_packet_wf).
  - simpl. lia.
Defined.

(** ** Further properties of the bit-timing decoder *)

Lemma u32_small z : 0 <= z < 4294967296 -> u32 z = z.
Proof. intros Hz. unfold u32. by rewrite Z.mod_small. Qed.

Lemma u32_range z : 0 <= u32 z < 4294967296.
Proof. unfold u32. apply Z.mod_pos_bound. lia. Qed.

(** The value computed past the 5-bit window, when nothing wraps. *)
Lemma nBitsFromCycles_fallback F e :
  0 < F <= 650 -> 3665 * F <= e -> e + 300 * F < 4294967296 ->
  nBitsFromCycles F e 0 = ((e + 300 * F) / 650 * F, 0) /\
  6 <= (e + 300 * F) / 650 /\
  (e + 300 * F) / 650 * F < 4294967296.
Proof.
  intros HF He Hmax. unfold nBitsFromCycles.
  rewrite Z.add_0_r. rewrite (u32_small e) by lia.
  repeat match goal with
         | |- context [?a <? ?b] =>
             destruct (Z.ltb_spec a b); [lia|]
         end.
  rewrite (u32_small (e + 300 * F)) by lia.
  assert (Hq : 6 <= (e + 300 * F) / 650).
  { apply Z.div_le_lower_bound; lia. }
  assert (Hle : (e + 300 * F) / 650 * 650 <= e + 300 * F).
  { rewrite Z.mul_comm. apply Z.mul_div_le. lia. }
  assert (Hprod : (e + 300 * F) / 650 * F < 4294967296) by nia.
  rewrite u32_small by nia. done.
Qed.

Lemma nBitsFromCycles_in_window F e :
  0 < F -> 0 <= e < 3665 * F -> e < 4294967296 ->
  1 <= (nBitsFromCycles F e 0).1 <= 5.
Proof.
  intros HF He Hmax. unfold nBitsFromCycles.
  rewrite !Z.add_0_r, !u32_small by lia.
  repeat match goal with
         | |- context [?a <? ?b] => destruct (Z.ltb_spec a b)
         end; cbn [fst]; lia.
Qed.

(** X10. Inside the 5-bit window the decoder returns 1 to 5 bits and
    carries over less than 390 clock-factor units of cycles, well under
    one bit time; past the window it carries nothing. Here the effective
    count is the elapsed cycles plus the carried jitter, modulo 2^32. *)
Theorem nBitsFromCycles_window F nCycles jitter :
  0 < F ->
  let e := u32 (nCycles + jitter) in
  let r := nBitsFromCycles F nCycles jitter in
  (e < 3665 * F -> 1 <= r.1 <= 5 /\ 0 <= r.2 < 390 * F /\ r.2 <= e) /\
  (3665 * F <= e -> r.2 = 0).
Proof.
  intros HF e r. unfold r, nBitsFromCycles. fold e.
  pose proof (u32_range (nCycles + jitter)) as He. fold e in He.
  repeat match goal with
         | |- context [?a <? ?b] => destruct (Z.ltb_spec a b)
         | |- context [?a >? ?b] =>
             let H := fresh in
             destruct (a >? b) eqn:H;
             [apply Z.gtb_lt in H
             |rewrite Z.gtb_ltb in H; apply Z.ltb_ge in H]
         end; cbn [fst snd]; rewrite ?u32_small by lia; lia.
Qed.

Lemma nBitsFromCycles_window_witness :
  let e := u32 (900 + 100) in
  let r := nBitsFromCycles 1 900 100 in
  (e < 3665 * 1 -> 1 <= r.1 <= 5 /\ 0 <= r.2 < 390 * 1 /\ r.2 <= e) /\
  (3665 * 1 <= e -> r.2 = 0).
Proof. apply (nBitsFromCycles_window 1 900 100). lia. Defined.

(** X11. Past the 5-bit window (and with no 32-bit wrap-around) the
    decoder returns the cycles plus 300 factor units, divided by 650, then
    multiplied by the clock factor: at least 6 bits at any clock factor,
    and with a clock factor of 2 or more always more than 9 bits, the
    limit above which the interrupt handler gives the frame up. *)
Theorem nBitsFromCycles_beyond_window F nCycles jitter :
  0 < F <= 650 ->
  nCycles + jitter < 4294967296 - 300 * F ->
  3665 * F <= nCycles + jitter ->
  let r := nBitsFromCycles F nCycles jitter in
  r = ((nCycles + jitter + 300 * F) / 650 * F, 0) /\
  6 <= r.1 /\ (2 <= F -> 9 < r.1).
Proof.
  intros HF Hmax He r. unfold r.
  rewrite nBitsFromCycles_effective, u32_small by lia.
  destruct (nBitsFromCycles_fallback F (nCycles + jitter)) as (-> & Hq & _);
    [lia..|].
  cbn [fst]. split; [done|]. split; nia.
Qed.

Lemma nBitsFromCycles_beyond_window_witness :
  let r := nBitsFromCycles 2 7000 400 in
  r = ((7000 + 400 + 300 * 2) / 650 * 2, 0) /\
  6 <= r.1 /\ (2 <= 2 -> 9 < r.1).
Proof. apply (nBitsFromCycles_beyond_window 2 7000 400); lia. Defined.

(** X12. A longer run never decodes to fewer bits: with no carried
    jitter and no 32-bit wrap-around, the number of bits returned is
    monotone in the cycle count, across the window thresholds and into
    the division past them. *)
Theorem nBitsFromCycles_monotone F e1 e2 :
  0 < F <= 650 ->
  0 <= e1 <= e2 -> e2 + 300 * F < 4294967296 ->
  (nBitsFromCycles F e1 0).1 <= (nBitsFromCycles F e2 0).1.
Proof.
  intros HF He Hmax.
  destruct (Z.lt_ge_cases e2 (3665 * F)) as [H2|H2].
  - unfold nBitsFromCycles.
    rewrite !Z.add_0_r, !(u32_small e1), !(u32_small e2) by lia.
    repeat match goal with
           | |- context [?a <? ?b] => destruct (Z.ltb_spec a b)
           end; cbn [fst]; lia.
  - destruct (nBitsFromCycles_fallback F e2) as (-> & Hq2 & _); [lia..|].
    cbn [fst].
    destruct (Z.lt_ge_cases e1 (3665 * F)) as [H1|H1].
    + pose proof (nBitsFromCycles_in_window F e1) as W1. nia.
    + destruct (nBitsFromCycles_fallback F e1) as (-> & Hq1 & _); [lia..|].
      cbn [fst]. apply Z.mul_le_mono_nonneg_r; [lia|].
      apply Z.div_le_mono; lia.
Qed.

Lemma nBitsFromCycles_monotone_witness :
  (nBitsFromCycles 1 1300 0).1 <= (nBitsFromCycles 1 4000 0).1.
Proof. apply (nBitsFromCycles_monotone 1 1300 4000); lia. Defined.

(** ** Further properties of the interrupt handlers and of the queue *)

Section ReceiverBounds.

Variable CPU_F_FACTOR : Z.
Variable VAN_MAX_PACKET_SIZE : Z.
Variable VAN_RX_QUEUE_SIZE : nat.
Variable VAN_LOGICAL_LOW : Z.
Variable VAN_BIT_RECESSIVE : Z.

Local Abbreviation ISR :=
  (RxPinChangeIsr CPU_F_FACTOR VAN_MAX_PACKET_SIZE VAN_RX_QUEUE_SIZE
                  VAN_LOGICAL_LOW VAN_BIT_RECESSIVE).
Local Abbreviation next i :=
  (if decide (S i = VAN_RX_QUEUE_SIZE) then 0%nat else S i).
Local Abbreviation Inv := (inv VAN_RX_QUEUE_SIZE).
Local Abbreviation Bounded := (desc_bounded VAN_MAX_PACKET_SIZE).
Local Abbreviation Reachable :=
  (reachable CPU_F_FACTOR VAN_MAX_PACKET_SIZE VAN_RX_QUEUE_SIZE VAN_LOGICAL_LOW
             VAN_BIT_RECESSIVE).

Create Rewrite HintDb queue.
#[local] Hint Rewrite pool_upd_head head_upd_head tail_upd_head
  overrun_upd_head lastMediaAccessAt_upd_head count_upd_head
  nCorrupt_upd_head nRepaired_upd_head pool_upd_tail head_upd_tail
  tail_upd_tail overrun_upd_tail lastMediaAccessAt_upd_tail count_upd_tail
  nCorrupt_upd_tail nRepaired_upd_tail pool_set_overrun head_set_overrun
  tail_set_overrun overrun_set_overrun lastMediaAccessAt_set_overrun
  count_set_overrun nCorrupt_set_overrun nRepaired_set_overrun
  pool_set_lastMediaAccessAt head_set_lastMediaAccessAt
  tail_set_lastMediaAccessAt overrun_set_lastMediaAccessAt
  lastMediaAccessAt_set_lastMediaAccessAt count_set_lastMediaAccessAt
  nCorrupt_set_lastMediaAccessAt nRepaired_set_lastMediaAccessAt
  pool_set_count head_set_count tail_set_count overrun_set_count
  lastMediaAccessAt_set_count count_set_count nCorrupt_set_count
  nRepaired_set_count pool_set_nCorrupt head_set_nCorrupt tail_set_nCorrupt
  overrun_set_nCorrupt lastMediaAccessAt_set_nCorrupt count_set_nCorrupt
  nCorrupt_set_nCorrupt nRepaired_set_nCorrupt pool_set_nRepaired
  head_set_nRepaired tail_set_nRepaired overrun_set_nRepaired
  lastMediaAccessAt_set_nRepaired count_set_nRepaired nCorrupt_set_nRepaired
  nRepaired_set_nRepaired pool_ClearQueueOverrun head_ClearQueueOverrun
  tail_ClearQueueOverrun overrun_ClearQueueOverrun
  lastMediaAccessAt_ClearQueueOverrun count_ClearQueueOverrun
  nCorrupt_ClearQueueOverrun nRepaired_ClearQueueOverrun pool_AdvanceHead
  head_AdvanceHead tail_AdvanceHead overrun_AdvanceHead
  lastMediaAccessAt_AdvanceHead count_AdvanceHead nCorrupt_AdvanceHead
  nRepaired_AdvanceHead pool_AdvanceTail head_AdvanceTail tail_AdvanceTail
  overrun_AdvanceTail lastMediaAccessAt_AdvanceTail count_AdvanceTail
  nCorrupt_AdvanceTail nRepaired_AdvanceTail : queue.

Ltac q_simpl := autorewrite with queue.

Ltac d_simpl :=
  cbn [compose set_slot set_state set_size set_ack set_result set_bytes
       bytes size state result ack seqNo slot].

(** What one invocation of the pin interrupt handler can do to the queue:
    it rewrites the slot at [_head] and nothing else of the pool, leaves
    the consumer's pointer and the statistics alone, moves [_head] at most
    one slot on, and latches the overrun flag exactly on a genuine edge
    that finds the head slot DONE. *)
Lemma RxPinChangeIsr_shape pin curr s :
  let q := VanBusRx s in
  let q' := VanBusRx (ISR pin curr s) in
  (exists g, pool q' = alter g (_head q) (pool q)) /\
  tail q' = tail q /\ nCorrupt q' = nCorrupt q /\ nRepaired q' = nRepaired q /\
  (_head q' = _head q \/ _head q' = next (_head q)) /\
  _overrun q'
  = _overrun q || (negb (pin =? prevPinLevelChangedTo (isr s))
                   && bool_decide (state (head_desc q) = VAN_RX_DONE)).
Proof.
  unfold RxPinChangeIsr. cbv zeta.
  destruct (pin =? prevPinLevelChangedTo (isr s)).
  { cbn [negb andb]. rewrite orb_false_r. split_and!; try done; [|by left].
    exists id. by rewrite list_alter_id. }
  repeat match goal with
         | |- context [if ?c && ?c' then ?a else ?b] =>
             generalize (if c && c' then a else b); intro
         end.
  generalize (nBitsFromCycles CPU_F_FACTOR (u32 (curr - prev (isr s))) (jitter (isr s))).
  intros bj.
  assert (Hq0 : head_desc (set_lastMediaAccessAt (VanBusRx s) curr)
                = head_desc (VanBusRx s)) by done.
  cbn [negb andb].
  destruct (pin =? VAN_BIT_RECESSIVE); rewrite ?Hq0;
    destruct (state (head_desc (VanBusRx s))) eqn:Hst;
    rewrite ?bool_decide_true by done; rewrite ?bool_decide_false by done;
    repeat match goal with
           | |- context [if ?c then _ else _] =>
               lazymatch type of c with bool => destruct c eqn:? end
           end.
  all: cbn [VanBusRx]; q_simpl; rewrite ?orb_false_r, ?orb_true_r.
  all: split_and!; try done; try (by left); try (by right).
  all: eexists; rewrite ?list_alter_alter_eq; reflexivity.
Qed.

(** X13. The pin interrupt handler writes to the queue only through
    [_head]: every slot other than the one at [_head] is left exactly as
    it was, the pool keeps its length, the consumer's [tail] pointer and
    the statistics counters are not touched, and [_head] stays or moves to
    the next slot. *)
Theorem RxPinChangeIsr_touches_head_slot_only pin curr s :
  let q := VanBusRx s in
  let q' := VanBusRx (RxPinChangeIsr CPU_F_FACTOR VAN_MAX_PACKET_SIZE
                               VAN_RX_QUEUE_SIZE VAN_LOGICAL_LOW
                               VAN_BIT_RECESSIVE pin curr s) in
  (forall i, i <> _head q -> pool q' !! i = pool q !! i) /\
  length (pool q') = length (pool q) /\
  tail q' = tail q /\ nCorrupt q' = nCorrupt q /\ nRepaired q' = nRepaired q /\
  (_head q' = _head q \/ _head q' = next (_head q)).
Proof.
  destruct (RxPinChangeIsr_shape pin curr s) as ([g Hg] & Ht & Hc & Hr & Hh & _).
  cbv zeta. rewrite Hg. split_and!; try done.
  - intros i Hi. by rewrite list_lookup_alter_ne.
  - by rewrite length_alter.
Qed.

(** X14. The overrun flag after an invocation of the pin interrupt
    handler: it is set if it was set before, or if the invocation was a
    genuine edge that found the head slot DONE, and in no other case. The
    handler never clears it. *)
Theorem overrun_latched_exactly_on_full_queue pin curr s :
  _overrun (VanBusRx (RxPinChangeIsr CPU_F_FACTOR VAN_MAX_PACKET_SIZE
                               VAN_RX_QUEUE_SIZE VAN_LOGICAL_LOW
                               VAN_BIT_RECESSIVE pin curr s))
  = _overrun (VanBusRx s)
    || (negb (pin =? prevPinLevelChangedTo (isr s))
        && bool_decide (state (head_desc (VanBusRx s)) = VAN_RX_DONE)).
Proof. by destruct (RxPinChangeIsr_shape pin curr s) as (_ & _ & _ & _ & _ & ->). Qed.

(** X15. The bookkeeping of an edge does not depend on the state of the
    receiver: whatever the head slot holds, a genuine edge records the pin
    level and the cycle count, and stores the cycle count as the time of
    the last media access exactly when the new level is the recessive
    one; a spurious interrupt changes none of the three. *)
Theorem edge_bookkeeping_in_every_state pin curr s :
  let s' := (RxPinChangeIsr CPU_F_FACTOR VAN_MAX_PACKET_SIZE
                               VAN_RX_QUEUE_SIZE VAN_LOGICAL_LOW
                               VAN_BIT_RECESSIVE pin curr s) in
  let genuine := negb (pin =? prevPinLevelChangedTo (isr s)) in
  prevPinLevelChangedTo (isr s') = pin /\
  prev (isr s') = (if genuine then curr else prev (isr s)) /\
  lastMediaAccessAt (VanBusRx s')
  = (if genuine && (pin =? VAN_BIT_RECESSIVE) then curr
     else lastMediaAccessAt (VanBusRx s)).
Proof.
  unfold RxPinChangeIsr. cbv zeta.
  destruct (Z.eqb_spec pin (prevPinLevelChangedTo (isr s))) as [Heq|Hne].
  { by cbn [negb andb]. }
  cbn [negb andb].
  repeat match goal with
         | |- context [if ?c && ?c' then ?a else ?b] =>
             generalize (if c && c' then a else b); intro
         end.
  generalize (nBitsFromCycles CPU_F_FACTOR (u32 (curr - prev (isr s))) (jitter (isr s))).
  intros bj.
  assert (Hq0 : head_desc (set_lastMediaAccessAt (VanBusRx s) curr)
                = head_desc (VanBusRx s)) by done.
  cbn [negb andb].
  destruct (pin =? VAN_BIT_RECESSIVE); rewrite ?Hq0;
    destruct (state (head_desc (VanBusRx s))) eqn:Hst;
    rewrite ?bool_decide_true by done; rewrite ?bool_decide_false by done;
    repeat match goal with
           | |- context [if ?c then _ else _] =>
               lazymatch type of c with bool => destruct c eqn:? end
           end.
  all: cbn [VanBusRx isr prevPinLevelChangedTo prev]; q_simpl; done.
Qed.

(** *** The bounds the handlers keep *)

Lemma u16_range z : 0 <= u16 z < 65536.
Proof.
  unfold u16. change 0xFFFF with (Z.ones 16). rewrite Z.land_ones by lia.
  apply Z.mod_pos_bound. lia.
Qed.

Lemma land_range16 x m : 0 <= x < 65536 -> 0 <= Z.land x m < 65536.
Proof.
  intros Hx.
  assert (Hmod : Z.land x m = Z.land x m mod 2 ^ 16).
  { rewrite mod_pow2_land by lia.
    rewrite (Z.land_comm x m), <- Z.land_assoc, <- mod_pow2_land by lia.
    by rewrite (Z.mod_small x) by lia. }
  rewrite Hmod. apply Z.mod_pos_bound. lia.
Qed.

Lemma lor_range16 x y :
  0 <= x < 65536 -> 0 <= y < 65536 -> 0 <= Z.lor x y < 65536.
Proof.
  intros Hx Hy.
  assert (Hmod : Z.lor x y = Z.lor x y mod 2 ^ 16).
  { rewrite mod_pow2_land, Z.land_lor_distr_l, <- !mod_pow2_land by lia.
    by rewrite !Z.mod_small by lia. }
  rewrite Hmod. apply Z.mod_pos_bound. lia.
Qed.

Lemma nBitsFromCycles_nonneg nCycles jitter :
  0 <= (nBitsFromCycles CPU_F_FACTOR nCycles jitter).1.
Proof.
  unfold nBitsFromCycles.
  repeat match goal with
         | |- context [if ?c then _ else _] => destruct c
         end; cbn [fst]; try lia; apply u32_range.
Qed.

(** One decoding step on the bit cursor and the shift register. *)
Lemma decode_statics a rb n (low : bool) :
  0 <= a <= 9 -> 0 <= n <= 9 ->
  let a1 := u32 (a + n) in
  let rb1 := Z.lor (u16 (Z.shiftl rb n))
                   (if low then u16 (Z.shiftl 1 n - 1) else 0) in
  0 <= rb1 < 65536 /\
  (if a1 >=? 10
   then 0 <= u32 (a1 - 10) <= 9 /\
        0 <= Z.land rb1 (Z.shiftl 1 (u32 (a1 - 10)) - 1) < 65536
   else 0 <= a1 <= 9).
Proof.
  intros Ha Hn a1 rb1.
  assert (Hrb1 : 0 <= rb1 < 65536).
  { apply lor_range16; [apply u16_range|]. destruct low; [apply u16_range|lia]. }
  split; [done|]. unfold a1. rewrite (u32_small (a + n)) by lia.
  destruct (Z.geb_spec (a + n) 10) as [Hge|Hlt].
  - rewrite u32_small by lia. split; [lia|]. by apply land_range16.
  - lia.
Qed.

Lemma statics_RxPinChangeIsr pin curr s :
  statics_bounded (isr s) -> statics_bounded (isr (ISR pin curr s)).
Proof.
  intros [Ha Hrb]. unfold RxPinChangeIsr. cbv zeta.
  destruct (pin =? prevPinLevelChangedTo (isr s)); [done|].
  pose proof (nBitsFromCycles_nonneg (u32 (curr - prev (isr s))) (jitter (isr s)))
    as Hn0.
  destruct (nBitsFromCycles CPU_F_FACTOR (u32 (curr - prev (isr s))) (jitter (isr s)))
    as [n j].
  cbn [fst snd] in *.
  generalize (if pin =? VAN_BIT_RECESSIVE
              then set_lastMediaAccessAt (VanBusRx s) curr else VanBusRx s).
  intros q0.
  assert (Hdecode : forall n', 0 <= n' <= 9 ->
            statics_bounded (isr s) ->
            let a1 := u32 (atBit (isr s) + n') in
            let rb1 := Z.lor (u16 (Z.shiftl (readBits (isr s)) n'))
                             (if pin =? VAN_LOGICAL_LOW
                              then u16 (Z.shiftl 1 n' - 1) else 0) in
            0 <= rb1 < 65536 /\
            (if a1 >=? 10
             then 0 <= u32 (a1 - 10) <= 9 /\
                  0 <= Z.land rb1 (Z.shiftl 1 (u32 (a1 - 10)) - 1) < 65536
             else 0 <= a1 <= 9)).
  { intros n' Hn' _. by apply decode_statics. }
  destruct (state (head_desc q0));
    rewrite ?bool_decide_true by done; rewrite ?bool_decide_false by done.
  1: destruct (pin =? VAN_LOGICAL_LOW); split; cbn; lia.
  3, 4: done.
  all: destruct (Z.gtb_spec n 9) as [Hn9|Hn9]; [split; cbn; lia|].
  all: set (eat := (n >? 1) && (u32 (atBit (isr s) + n) =? 5)).
  all: assert (Hn' : 0 <= (if eat then u32 (n - 1) else n) <= 9)
         by (destruct eat eqn:He;
             [apply andb_true_iff in He as [He _]; apply Z.gtb_lt in He;
              rewrite u32_small by lia; lia
             |lia]).
  all: generalize dependent (if eat then u32 (n - 1) else n); intros n' Hn'.
  all: generalize (if eat then 500 else j); intros j'.
  all: destruct (Hdecode n' Hn' (conj Ha Hrb)) as [H1 H2]; cbv zeta in H1, H2.
  all: destruct (u32 (atBit (isr s) + n') >=? 10).
  all: repeat match goal with
              | |- context [if ?c then _ else _] =>
                  lazymatch type of c with bool => destruct c eqn:? end
              end.
  all: cbn [isr]; unfold statics_bounded; cbn [atBit readBits]; tauto.
Qed.

Lemma bounded_lookup_head s :
  Inv s -> inv_bounds VAN_MAX_PACKET_SIZE s ->
  Bounded (head_desc (VanBusRx s)).
Proof.
  intros ((Hlen & Hh & Ht) & _) (Hall & _).
  apply (Forall_lookup_1 _ _ (_head (VanBusRx s)) _ Hall).
  apply head_desc_lookup. lia.
Qed.

Lemma bounded_alter p h g :
  Forall Bounded p ->
  (forall d, p !! h = Some d -> Bounded (g d)) ->
  Forall Bounded (alter g h p).
Proof.
  intros Hp Hg. apply Forall_lookup. intros i d Hi.
  destruct (decide (h = i)) as [->|Hne].
  - rewrite list_lookup_alter_eq in Hi.
    destruct (p !! i) as [d0|] eqn:Hd0; [|done].
    injection Hi as <-. by apply Hg.
  - rewrite list_lookup_alter_ne in Hi by done.
    by apply (Forall_lookup_1 _ _ _ _ Hp Hi).
Qed.

(** An event that rewrites the head slot in place. *)
Lemma bounded_local s q' armed' g :
  Inv s -> inv_bounds VAN_MAX_PACKET_SIZE s ->
  pool q' = alter g (_head (VanBusRx s)) (pool (VanBusRx s)) ->
  _head q' = _head (VanBusRx s) ->
  (let d := head_desc (VanBusRx s) in
   Bounded d -> (state d = VAN_RX_WAITING_ACK -> ackTimerArmed s = true) ->
   Bounded (g d) /\ (state (g d) = VAN_RX_WAITING_ACK -> armed' = true)) ->
  Forall Bounded (pool q') /\
  (state (head_desc q') = VAN_RX_WAITING_ACK -> armed' = true).
Proof.
  intros Hinv Hb Hpool Hhead Hg.
  pose proof (bounded_lookup_head s Hinv Hb) as Hd.
  destruct Hinv as ((Hlen & Hh & Ht) & _). destruct Hb as (Hall & _ & Hw).
  assert (Hlt : (_head (VanBusRx s) < length (pool (VanBusRx s)))%nat) by lia.
  destruct (Hg Hd Hw) as [Hg1 Hg2].
  rewrite (local_head_desc (VanBusRx s) q' g) by done. split; [|done].
  rewrite Hpool. apply bounded_alter; [done|].
  intros d Hi. rewrite head_desc_lookup in Hi by done. by injection Hi as <-.
Qed.

(** An event that completes the frame in the head slot. *)
Lemma bounded_advance s q' armed' g :
  Inv s -> inv_bounds VAN_MAX_PACKET_SIZE s ->
  pool q' = alter g (_head (VanBusRx s)) (pool (VanBusRx s)) ->
  _head q' = next (_head (VanBusRx s)) ->
  (let d := head_desc (VanBusRx s) in
   Bounded d -> Bounded (g d) /\ state (g d) = VAN_RX_DONE) ->
  Forall Bounded (pool q') /\
  (state (head_desc q') = VAN_RX_WAITING_ACK -> armed' = true).
Proof.
  intros Hinv Hb Hpool Hhead Hg.
  pose proof (bounded_lookup_head s Hinv Hb) as Hd.
  destruct (Hg Hd) as [Hg1 Hg2]. split.
  - destruct Hinv as ((Hlen & Hh & Ht) & _). destruct Hb as (Hall & _).
    assert (Hlt : (_head (VanBusRx s) < length (pool (VanBusRx s)))%nat) by lia.
    rewrite Hpool. apply bounded_alter; [done|].
    intros d Hi. rewrite head_desc_lookup in Hi by done. by injection Hi as <-.
  - intros Hw. by destruct (advance_head_idle VAN_RX_QUEUE_SIZE s q' g).
Qed.

Lemma start_byte_decoded :
  u8 (Z.lor (Z.land (Z.shiftr 0x03D 2) 0xF0) (Z.land (Z.shiftr 0x03D 1) 0x0F))
  = 0x0E.
Proof. reflexivity. Qed.

Lemma descs_RxPinChangeIsr pin curr s :
  0 < VAN_MAX_PACKET_SIZE ->
  Inv s -> inv_bounds VAN_MAX_PACKET_SIZE s ->
  Forall Bounded (pool (VanBusRx (ISR pin curr s))) /\
  (state (head_desc (VanBusRx (ISR pin curr s))) = VAN_RX_WAITING_ACK ->
   ackTimerArmed (ISR pin curr s) = true).
Proof.
  intros Hmax Hinv Hb.
  pose proof Hinv as ((Hlen & Hh & Ht) & Hnamed & Hidle & Harmed & Hack).
  pose proof Hb as (Hall & _ & Hw).
  assert (Hlt : (_head (VanBusRx s) < length (pool (VanBusRx s)))%nat) by lia.
  unfold RxPinChangeIsr. cbv zeta.
  destruct (pin =? prevPinLevelChangedTo (isr s)); [done|].
  repeat match goal with
         | |- context [if ?c && ?c' then ?a else ?b] =>
             generalize (if c && c' then a else b); intro
         end.
  generalize (nBitsFromCycles CPU_F_FACTOR (u32 (curr - prev (isr s))) (jitter (isr s))).
  intros bj.
  repeat match goal with
         | |- context [Z.shiftr (Z.lor ?x ?y) ?a] =>
             generalize (Z.shiftr (Z.lor x y) a); intro
         end.
  assert (Hq0 : head_desc (set_lastMediaAccessAt (VanBusRx s) curr)
                = head_desc (VanBusRx s)) by done.
  destruct (pin =? VAN_BIT_RECESSIVE); rewrite ?Hq0;
    destruct (state (head_desc (VanBusRx s))) eqn:Hst;
    rewrite ?bool_decide_true by done; rewrite ?bool_decide_false by done;
    repeat match goal with
           | |- context [if ?c then _ else _] =>
               lazymatch type of c with bool => destruct c eqn:? end
           end.
  all: repeat match goal with
              | H : context [head_desc (upd_head _ _)] |- _ =>
                  rewrite head_desc_upd_head in H
                    by (q_simpl; rewrite ?length_alter; exact Hlt)
              end.
  all: rewrite ?Hq0 in *.
  all: cbn [compose set_slot set_state set_size set_ack set_result set_bytes
            bytes size state result ack seqNo slot] in *.
  all: cbn [VanBusRx ackTimerArmed].
  all: lazymatch goal with
       | |- context [_AdvanceHead] =>
           eapply (bounded_advance _ _ _ _ Hinv Hb);
           [ q_simpl; rewrite ?list_alter_alter_eq; reflexivity
           | q_simpl; reflexivity
           | d_simpl ]
       | |- _ =>
           eapply (bounded_local _ _ _ _ Hinv Hb);
           [ q_simpl; rewrite ?list_alter_alter_eq; reflexivity
           | q_simpl; reflexivity
           | d_simpl ]
       end.
  all: unfold desc_bounded; d_simpl; rewrite ?Hst.
  all: intros (Hl & Hsz & H0 & HL & HS & HR & HM); try intros HW.
  all: repeat match goal with
              | H : ?A -> _ |- _ =>
                  let HA := fresh in
                  assert (HA : A) by (first [done | by left | by right | by right; left | by right; right]);
                  specialize (H HA); clear HA
              end.
  all: rewrite ?length_insert.
  all: split_and!; intros;
         repeat match goal with H : _ \/ _ |- _ => destruct H end;
         try discriminate; try done; try lia.
  all: repeat match goal with
              | H : negb (?z =? 61) = false |- _ =>
                  apply negb_false_iff, Z.eqb_eq in H; subst z
              | H : (_ >=? _) = true |- _ => apply Z.geb_le in H
              | H : (_ >=? _) = false |- _ =>
                  rewrite Z.geb_leb in H; apply Z.leb_gt in H
              | H : _ /\ _ |- _ => destruct H
              end.
  all: try lia.
  all: split; [lia|].
  all: try (rewrite list_lookup_insert_ne by lia; done).
  all: rewrite H0, start_byte_decoded; apply list_lookup_insert_eq; simpl; lia.
Qed.

Lemma bounds_RxPinChangeIsr pin curr s :
  0 < VAN_MAX_PACKET_SIZE ->
  Inv s -> inv_bounds VAN_MAX_PACKET_SIZE s ->
  inv_bounds VAN_MAX_PACKET_SIZE (ISR pin curr s).
Proof.
  intros Hmax Hinv Hb.
  destruct (descs_RxPinChangeIsr pin curr s Hmax Hinv Hb) as [Hall Hw].
  split; [done|]. split; [|done].
  apply statics_RxPinChangeIsr. by destruct Hb as (_ & ? & _).
Qed.

Lemma bounds_WaitAckIsr s :
  Inv s -> inv_bounds VAN_MAX_PACKET_SIZE s -> ackTimerArmed s = true ->
  inv_bounds VAN_MAX_PACKET_SIZE (WaitAckIsr VAN_RX_QUEUE_SIZE s).
Proof.
  intros Hinv Hb Ha.
  pose proof Hinv as (_ & _ & _ & Harmed & _). specialize (Harmed Ha).
  unfold WaitAckIsr, SetTxBitTimer. cbv zeta. cbn [VanBusRx isr ackTimerArmed].
  assert (Hd : Forall Bounded (pool (_AdvanceHead VAN_RX_QUEUE_SIZE (VanBusRx s))) /\
               (state (head_desc (_AdvanceHead VAN_RX_QUEUE_SIZE (VanBusRx s)))
                = VAN_RX_WAITING_ACK -> false = true)).
  { eapply (bounded_advance _ _ _ _ Hinv Hb);
      [q_simpl; reflexivity|q_simpl; reflexivity|d_simpl].
    unfold desc_bounded. d_simpl. rewrite Harmed.
    intros (Hl & Hsz & H0 & HL & HS & HR & HM). split; [|done].
    destruct HS as [H1 Hsof]; [by right; left|].
    split_and!; try done; intros;
      repeat match goal with H : _ \/ _ |- _ => destruct H end;
      try discriminate; try congruence; lia. }
  destruct Hd as [Hall Hw]. split; [done|]. split; [|done].
  by destruct Hb as (_ & ? & _).
Qed.

Lemma bounds_Receive pkt isQueueOverrun s :
  Inv s -> inv_bounds VAN_MAX_PACKET_SIZE s ->
  inv_bounds VAN_MAX_PACKET_SIZE
    (mkSystem (Receive VAN_RX_QUEUE_SIZE (VanBusRx s) pkt isQueueOverrun).2
              (isr s) (ackTimerArmed s)).
Proof.
  intros Hinv Hb.
  pose proof Hinv as ((Hlen & Hh & Ht) & _). pose proof Hb as (Hall & Hst & Hw).
  destruct (decide (state (tail_desc (VanBusRx s)) = VAN_RX_DONE)) as [Hdone|Hnot];
    [|rewrite Receive_empty by done; by destruct s].
  destruct (Receive_queue VAN_RX_QUEUE_SIZE (VanBusRx s) pkt isQueueOverrun Hdone)
    as (Hpool & Hhead & _).
  set (q' := (Receive VAN_RX_QUEUE_SIZE (VanBusRx s) pkt isQueueOverrun).2) in *.
  assert (Hlt : (_head (VanBusRx s) < length (pool (VanBusRx s)))%nat) by lia.
  unfold inv_bounds. cbn [VanBusRx isr ackTimerArmed]. split_and!; [|done|].
  - rewrite Hpool. apply bounded_alter; [done|].
    intros d Hd. pose proof (Forall_lookup_1 _ _ _ _ Hall Hd) as (Hl & Hsz & _).
    unfold desc_bounded, Init. d_simpl.
    split_and!; try done; try lia; intros;
      repeat match goal with H : _ \/ _ |- _ => destruct H end;
      try discriminate; done.
  - unfold head_desc. rewrite Hpool, Hhead.
    destruct (decide (tail (VanBusRx s) = _head (VanBusRx s))) as [Heq|Hne].
    + rewrite Heq, list_lookup_total_alter_eq by done. done.
    + rewrite list_lookup_total_alter_ne by done. exact Hw.
Qed.

Lemma bounds_power_on s :
  (0 < VAN_RX_QUEUE_SIZE)%nat ->
  power_on VAN_MAX_PACKET_SIZE VAN_RX_QUEUE_SIZE VAN_BIT_RECESSIVE s ->
  inv_bounds VAN_MAX_PACKET_SIZE s.
Proof.
  intros Hq (Hlen & Hvac & Hhead & Htail & Hov & Harmed & Hst).
  split_and!.
  - eapply Forall_impl; [exact Hvac|].
    intros d (Hv & Hsz & Hres & _ & Hl). unfold desc_bounded.
    rewrite Hv, Hsz, Hres.
    split_and!; try done; try lia; intros;
      repeat match goal with H : _ \/ _ |- _ => destruct H end;
      try discriminate; done.
  - rewrite Hst. split; cbn; lia.
  - assert (Hd : pool (VanBusRx s) !! _head (VanBusRx s)
                 = Some (head_desc (VanBusRx s)))
      by (apply head_desc_lookup; lia).
    destruct (Forall_lookup_1 _ _ _ _ Hvac Hd) as (Hv & _). by rewrite Hv.
Qed.

Lemma bounds_step s s' :
  0 < VAN_MAX_PACKET_SIZE ->
  Inv s -> inv_bounds VAN_MAX_PACKET_SIZE s ->
  step CPU_F_FACTOR VAN_MAX_PACKET_SIZE VAN_RX_QUEUE_SIZE VAN_LOGICAL_LOW
       VAN_BIT_RECESSIVE s s' ->
  inv_bounds VAN_MAX_PACKET_SIZE s'.
Proof.
  intros Hmax Hinv Hb Hstep. destruct Hstep.
  - by apply bounds_RxPinChangeIsr.
  - by apply bounds_WaitAckIsr.
  - by apply bounds_Receive.
  - destruct (CheckCrcAndRepair_queue (VanBusRx s) pkt) as (Hp & Hh & _).
    unfold inv_bounds, head_desc in *. cbn [VanBusRx isr ackTimerArmed].
    by rewrite Hp, Hh.
Qed.

Lemma reachable_bounds s :
  (0 < VAN_RX_QUEUE_SIZE)%nat -> 0 < VAN_MAX_PACKET_SIZE ->
  Reachable s -> Inv s /\ inv_bounds VAN_MAX_PACKET_SIZE s.
Proof.
  intros Hq Hmax Hreach. induction Hreach as [s Hs|s s' _ [IH1 IH2] Hstep].
  - split; [by apply (inv_power_on VAN_MAX_PACKET_SIZE _ VAN_BIT_RECESSIVE)
           |by apply bounds_power_on].
  - split.
    + by apply (inv_step CPU_F_FACTOR VAN_MAX_PACKET_SIZE VAN_RX_QUEUE_SIZE
                         VAN_LOGICAL_LOW VAN_BIT_RECESSIVE s).
    + by apply (bounds_step s).
Qed.

Lemma tail_desc_lookup q :
  (tail q < length (pool q))%nat -> pool q !! tail q = Some (tail_desc q).
Proof. intros H. by apply list_lookup_lookup_total_lt. Qed.

Lemma done_head_pool pin curr s :
  Inv s -> state (head_desc (VanBusRx s)) = VAN_RX_DONE ->
  pool (VanBusRx (ISR pin curr s)) = pool (VanBusRx s).
Proof.
  intros ((Hlen & Hh & Ht) & Hnamed & _) Hst.
  destruct (decide (pin = prevPinLevelChangedTo (isr s))) as [He|He].
  { by rewrite RxPinChangeIsr_spurious. }
  rewrite RxPinChangeIsr_done by done. cbn [VanBusRx]. q_simpl.
  assert (Hd : pool (VanBusRx s) !! _head (VanBusRx s)
               = Some (head_desc (VanBusRx s))) by (apply head_desc_lookup; lia).
  assert (Hslot : set_slot (head_desc (VanBusRx s)) (Z.of_nat (_head (VanBusRx s)))
                  = head_desc (VanBusRx s)).
  { rewrite <- (Hnamed _ _ Hd) by (rewrite Hst; done). apply set_slot_id. }
  destruct (pin =? VAN_BIT_RECESSIVE); q_simpl; by apply (alter_id_at _ _ _ _ Hd).
Qed.

(** X16. The frame buffer never overflows. In every reachable state, each
    slot of the pool has a buffer of [VAN_MAX_PACKET_SIZE] bytes and a
    byte count between 0 and that capacity; while the head slot is being
    searched or loaded, the index at which the handler stores the next
    byte lies inside the buffer; and the bit cursor (the count by which
    the handler shifts) is at most 9, the shift register below 2^16. *)
Theorem frame_buffer_never_overflows s :
  (0 < VAN_RX_QUEUE_SIZE)%nat -> 0 < VAN_MAX_PACKET_SIZE ->
  Reachable s ->
  (forall d, d ∈ pool (VanBusRx s) ->
     Z.of_nat (length (bytes d)) = VAN_MAX_PACKET_SIZE /\
     0 <= size d <= VAN_MAX_PACKET_SIZE) /\
  (let d := head_desc (VanBusRx s) in
   state d = VAN_RX_SEARCHING \/ state d = VAN_RX_LOADING ->
   0 <= size d /\ (Z.to_nat (size d) < length (bytes d))%nat) /\
  0 <= atBit (isr s) <= 9 /\ 0 <= readBits (isr s) < 65536.
Proof.
  intros Hq Hmax Hreach.
  destruct (reachable_bounds s Hq Hmax Hreach) as [Hinv Hb].
  pose proof (bounded_lookup_head s Hinv Hb) as (Hl & Hsz & H0 & HL & _).
  destruct Hb as (Hall & [Ha Hrb] & _).
  split_and!; try lia.
  - intros d Hd. rewrite Forall_forall in Hall.
    by destruct (Hall d Hd) as (? & ? & _).
  - cbv zeta. intros [Hs|Hs].
    + rewrite H0 by (by right). lia.
    + specialize (HL Hs). lia.
Qed.

(** X17. What [Receive] hands out. In every reachable state, a call that
    returns true delivers a descriptor in state DONE whose [slot] field is
    the index of the slot it was taken from, which holds 1 to
    [VAN_MAX_PACKET_SIZE] bytes and begins with the start-of-frame byte
    0x0E; its result is never the Manchester error, which no enabled code
    assigns. *)
Theorem received_frame_is_complete s pkt isQueueOverrun pkt' reported q' :
  (0 < VAN_RX_QUEUE_SIZE)%nat -> 0 < VAN_MAX_PACKET_SIZE ->
  Reachable s ->
  Receive VAN_RX_QUEUE_SIZE (VanBusRx s) pkt isQueueOverrun
  = (true, pkt', reported, q') ->
  state pkt' = VAN_RX_DONE /\
  slot pkt' = Z.of_nat (tail (VanBusRx s)) /\
  1 <= size pkt' <= VAN_MAX_PACKET_SIZE /\
  Z.of_nat (length (bytes pkt')) = VAN_MAX_PACKET_SIZE /\
  bytes pkt' !! 0%nat = Some 0x0E /\
  result pkt' <> VAN_RX_ERROR_MANCHESTER.
Proof.
  intros Hq Hmax Hreach Hcall.
  destruct (reachable_bounds s Hq Hmax Hreach) as [Hinv Hb].
  destruct Hinv as ((Hlen & Hh & Ht) & Hnamed & _). destruct Hb as (Hall & _).
  unfold Receive, Available in Hcall.
  destruct (decide (state (tail_desc (VanBusRx s)) = VAN_RX_DONE)) as [Hdone|Hnot];
    [|by rewrite bool_decide_false in Hcall by done].
  rewrite bool_decide_true in Hcall by done. cbn [negb] in Hcall.
  assert (Hpkt : pkt' = tail_desc (VanBusRx s))
    by (destruct isQueueOverrun; by inversion Hcall).
  subst pkt'.
  assert (Hd : pool (VanBusRx s) !! tail (VanBusRx s)
               = Some (tail_desc (VanBusRx s))) by (apply tail_desc_lookup; lia).
  destruct (Forall_lookup_1 _ _ _ _ Hall Hd) as (Hl & Hsz & _ & _ & HS & _ & HM).
  destruct HS as [H1 Hsof]; [by right; right|].
  split_and!; try done; try lia.
  apply (Hnamed _ _ Hd). by rewrite Hdone.
Qed.

(** X18. The acknowledge timeout is pending exactly while the head slot
    waits for its acknowledge: in every reachable state the timer is armed
    if and only if the head slot is in state WAITING_ACK. A slot in
    WAITING_ACK always has its timeout pending, and the timeout is pending
    in no other state. *)
Theorem ack_timer_armed_iff_waiting_ack s :
  (0 < VAN_RX_QUEUE_SIZE)%nat -> 0 < VAN_MAX_PACKET_SIZE ->
  Reachable s ->
  (ackTimerArmed s = true <->
   state (head_desc (VanBusRx s)) = VAN_RX_WAITING_ACK).
Proof.
  intros Hq Hmax Hreach.
  destruct (reachable_bounds s Hq Hmax Hreach)
    as [(_ & _ & _ & Harmed & _) (_ & _ & Hw)].
  by split.
Qed.

(** X19. A completed frame belongs to the consumer. In every reachable
    state, a slot in state DONE is left exactly as it is by every pin
    interrupt, by the acknowledge timeout, by the CRC repair of a copy and
    by a [Receive] while it is not the slot at [tail]. When it is the slot
    at [tail], [Receive] returns true, hands out the slot's contents and
    re-initialises the slot. *)
Theorem done_slot_changed_only_by_Receive s i d :
  (0 < VAN_RX_QUEUE_SIZE)%nat ->
  Reachable s ->
  pool (VanBusRx s) !! i = Some d -> state d = VAN_RX_DONE ->
  (forall pin curr,
     pool (VanBusRx (RxPinChangeIsr CPU_F_FACTOR VAN_MAX_PACKET_SIZE
                       VAN_RX_QUEUE_SIZE VAN_LOGICAL_LOW VAN_BIT_RECESSIVE
                       pin curr s)) !! i = Some d) /\
  pool (VanBusRx (WaitAckIsr VAN_RX_QUEUE_SIZE s)) !! i = Some d /\
  (forall pkt, pool (CheckCrcAndRepair (VanBusRx s) pkt).2 !! i = Some d) /\
  (forall pkt isQueueOverrun,
     let r := Receive VAN_RX_QUEUE_SIZE (VanBusRx s) pkt isQueueOverrun in
     if decide (i = tail (VanBusRx s))
     then r.1.1 = (true, d) /\ pool r.2 !! i = Some (Init d)
     else pool r.2 !! i = Some d).
Proof.
  intros Hq Hreach Hi Hdone.
  pose proof (reachable_inv CPU_F_FACTOR VAN_MAX_PACKET_SIZE VAN_RX_QUEUE_SIZE
                            VAN_LOGICAL_LOW VAN_BIT_RECESSIVE s Hq Hreach) as Hinv.
  pose proof Hinv as ((Hlen & Hh & Ht) & Hnamed & Hidle & Harmed & _).
  assert (Hhd : pool (VanBusRx s) !! _head (VanBusRx s)
                = Some (head_desc (VanBusRx s))) by (apply head_desc_lookup; lia).
  split_and!.
  - intros pin curr. destruct (decide (i = _head (VanBusRx s))) as [->|Hne].
    + rewrite done_head_pool; [done..|]. rewrite Hhd in Hi. by injection Hi as ->.
    + destruct (RxPinChangeIsr_shape pin curr s) as ([g ->] & _).
      by rewrite list_lookup_alter_ne.
  - unfold WaitAckIsr, SetTxBitTimer. cbn [VanBusRx]. q_simpl.
    destruct (decide (i = _head (VanBusRx s))) as [->|Hne].
    + rewrite list_lookup_alter_eq, Hi. cbn [fmap option_fmap option_map].
      f_equal. destruct d. cbn in Hdone. by subst.
    + by rewrite list_lookup_alter_ne.
  - intros pkt. by destruct (CheckCrcAndRepair_queue (VanBusRx s) pkt) as (-> & _).
  - intros pkt o. cbv zeta.
    destruct (decide (i = tail (VanBusRx s))) as [->|Hne].
    + assert (Htd : tail_desc (VanBusRx s) = d).
      { pose proof (tail_desc_lookup (VanBusRx s)) as Hl.
        rewrite Hi in Hl. symmetry. injection Hl; [done|lia]. }
      assert (Ht' : state (tail_desc (VanBusRx s)) = VAN_RX_DONE) by by rewrite Htd.
      destruct (Receive_queue VAN_RX_QUEUE_SIZE (VanBusRx s) pkt o Ht') as (-> & _).
      split; [|by rewrite list_lookup_alter_eq, Hi].
      unfold Receive, Available. rewrite bool_decide_true by done.
      cbn [negb]. rewrite Htd. by destruct o.
    + destruct (decide (state (tail_desc (VanBusRx s)) = VAN_RX_DONE)) as [Ht'|Ht'];
        [|by rewrite Receive_empty].
      destruct (Receive_queue VAN_RX_QUEUE_SIZE (VanBusRx s) pkt o Ht') as (-> & _).
      by rewrite list_lookup_alter_ne.
Qed.

(** *** Decoding a well-formed frame *)

Lemma bits_fold l z :
  fold_left (fun z (b : bool) => 2 * z + (if b then 1 else 0)) l z
  = z * 2 ^ Z.of_nat (length l) + bits_value l.
Proof.
  unfold bits_value. revert z. induction l as [|b l IH]; intros z.
  - cbn. lia.
  - cbn [fold_left length]. rewrite IH, (IH (2 * 0 + _)).
    rewrite Nat2Z.inj_succ, Z.pow_succ_r by lia. lia.
Qed.

Lemma bits_value_app l l' :
  bits_value (l ++ l') = bits_value l * 2 ^ Z.of_nat (length l') + bits_value l'.
Proof. unfold bits_value at 1. by rewrite fold_left_app, bits_fold. Qed.

Lemma bits_value_range l : 0 <= bits_value l < 2 ^ Z.of_nat (length l).
Proof.
  induction l as [|b l IH] using rev_ind; [cbn; lia|].
  rewrite bits_value_app, length_app, Nat2Z.inj_add.
  cbn [length]. change (Z.of_nat 1) with 1. rewrite Z.pow_add_r, Z.pow_1_r by lia.
  assert (Hb : 0 <= bits_value [b] <= 1) by (destruct b; cbn; lia).
  lia.
Qed.

Lemma bits_value_replicate n v :
  bits_value (replicate n v) = if v then 2 ^ Z.of_nat n - 1 else 0.
Proof.
  induction n as [|n IH]; [by destruct v|].
  change (replicate (S n) v) with ([v] ++ replicate n v).
  rewrite bits_value_app, IH, length_replicate, Nat2Z.inj_succ, Z.pow_succ_r by lia.
  destruct v; cbn; lia.
Qed.

Lemma bits_value_unit_bits_all :
  allZ (fun u => bits_value (unit_bits u) =? u) 1024 = true.
Proof. vm_compute. reflexivity. Qed.

Lemma bits_value_unit_bits u : 0 <= u < 1024 -> bits_value (unit_bits u) = u.
Proof.
  intros Hu. apply Z.eqb_eq. exact (allZ_spec _ _ bits_value_unit_bits_all u Hu).
Qed.

Lemma lor_disjoint x n p :
  0 <= n -> 0 <= p < 2 ^ n -> Z.lor (x * 2 ^ n) p = x * 2 ^ n + p.
Proof.
  intros Hn Hp.
  assert (Hland : Z.land (x * 2 ^ n) p = 0).
  { apply Z.bits_inj'. intros i Hi. rewrite Z.land_spec, Z.bits_0.
    destruct (Z.lt_ge_cases i n) as [Hlt|Hge].
    - by rewrite Z.mul_pow2_bits_low.
    - rewrite andb_false_iff. right.
      destruct (Z.eq_dec p 0) as [->|Hp0]; [apply Z.bits_0|].
      apply Z.bits_above_log2; [lia|].
      apply Z.lt_le_trans with n; [|done]. apply Z.log2_lt_pow2; lia. }
  by rewrite Z.add_nocarry_lxor, Z.lxor_lor.
Qed.

Lemma u16_small z : 0 <= z < 65536 -> u16 z = z.
Proof.
  intros Hz. unfold u16. change 0xFFFF with (Z.ones 16).
  rewrite Z.land_ones by lia. by apply Z.mod_small.
Qed.

(** Shifting a run of [n] equal bits into the register. *)
Lemma shift_in_run w n (v : bool) :
  (length w < 10)%nat -> 1 <= n <= 6 ->
  Z.lor (u16 (Z.shiftl (bits_value w) n))
        (if v then u16 (Z.shiftl 1 n - 1) else 0)
  = bits_value (w ++ replicate (Z.to_nat n) v).
Proof.
  intros Hw Hn. pose proof (bits_value_range w) as Hr.
  assert (H2n : 2 <= 2 ^ n <= 64).
  { split; [change 2 with (2 ^ 1) at 1|change 64 with (2 ^ 6)];
      apply Z.pow_le_mono_r; lia. }
  assert (Hlen : 2 ^ Z.of_nat (length w) <= 512).
  { change 512 with (2 ^ 9). apply Z.pow_le_mono_r; lia. }
  rewrite bits_value_app, bits_value_replicate, length_replicate, Z2Nat.id by lia.
  rewrite !Z.shiftl_mul_pow2, Z.mul_1_l by lia.
  rewrite u16_small by nia.
  destruct v.
  - rewrite u16_small by lia. apply lor_disjoint; lia.
  - by rewrite Z.lor_0_r, Z.add_0_r.
Qed.

(** Cutting the register at a unit boundary. *)
Lemma cut_unit w' :
  (10 <= length w')%nat ->
  let k := Z.of_nat (length w') - 10 in
  Z.shiftr (bits_value w') k = bits_value (take 10 w') /\
  Z.land (bits_value w') (Z.shiftl 1 k - 1) = bits_value (drop 10 w').
Proof.
  intros Hlen k.
  assert (Hk : k = Z.of_nat (length (drop 10 w'))) by (rewrite length_drop; lia).
  pose proof (bits_value_range (drop 10 w')) as Hr. rewrite <- Hk in Hr.
  rewrite <- (take_drop 10 w') at 1 3. rewrite bits_value_app, <- Hk.
  assert (H0 : 0 <= k) by lia.
  assert (Hpos : 0 < 2 ^ k) by (by apply Z.pow_pos_nonneg).
  split.
  - rewrite Z.shiftr_div_pow2 by done.
    rewrite Z.div_add_l by lia. rewrite Z.div_small by lia. lia.
  - rewrite Z.shiftl_mul_pow2, Z.mul_1_l by done.
    change (2 ^ k - 1) with (Z.pred (2 ^ k)). rewrite <- Z.ones_equiv.
    rewrite Z.land_ones by done.
    rewrite Z.add_comm, Z.mod_add by lia. by apply Z.mod_small.
Qed.

(** A run of 1 to 5 bit times at the nominal rate is measured as what it
    is and leaves no jitter; so is a run of 6 at clock factor 1. *)
Lemma nominal_timing n :
  0 < CPU_F_FACTOR <= 650 ->
  1 <= n <= 5 \/ (CPU_F_FACTOR = 1 /\ n = 6) ->
  nBitsFromCycles CPU_F_FACTOR (640 * CPU_F_FACTOR * n) 0 = (n, 0).
Proof.
  intros HF [Hn|[HF1 ->]]; [|by rewrite HF1].
  unfold nBitsFromCycles. rewrite Z.add_0_r, u32_small by nia.
  assert (Hc : n = 1 \/ n = 2 \/ n = 3 \/ n = 4 \/ n = 5) by lia.
  destruct Hc as [->|[->|[->|[->| ->]]]];
    repeat match goal with
           | |- context [?a <? ?b] => destruct (Z.ltb_spec a b); try lia
           | |- context [?a >? ?b] =>
               rewrite (Z.gtb_ltb a b); destruct (Z.ltb_spec b a); try lia
           end; done.
Qed.

Lemma u32_elapsed t x :
  0 <= x < 4294967296 -> u32 (u32 (t + x) - t) = x.
Proof.
  intros Hx. unfold u32. rewrite Zminus_mod_idemp_l.
  replace (t + x - t) with x by lia. by apply Z.mod_small.
Qed.

(** One edge in the middle of a frame, at the end of a run of [n] bits
    [v] measured without jitter: the bits are shifted in, and when they
    complete a unit the unit is stored. *)
Lemma RxPinChangeIsr_run pin curr s n (v : bool) w :
  Inv s ->
  genuine_edge pin s -> (pin =? VAN_LOGICAL_LOW) = v ->
  state (head_desc (VanBusRx s)) = VAN_RX_SEARCHING \/
  state (head_desc (VanBusRx s)) = VAN_RX_LOADING ->
  nBitsFromCycles CPU_F_FACTOR (u32 (curr - prev (isr s))) (jitter (isr s)) = (n, 0) ->
  1 <= n <= 6 ->
  atBit (isr s) = Z.of_nat (length w) -> readBits (isr s) = bits_value w ->
  (length w < 10)%nat ->
  ~ (1 < n /\ Z.of_nat (length w) + n = 5) ->
  let w' := w ++ replicate (Z.to_nat n) v in
  let s' := ISR pin curr s in
  let d := head_desc (VanBusRx s) in
  let d' := head_desc (VanBusRx s') in
  prevPinLevelChangedTo (isr s') = pin /\ prev (isr s') = curr /\
  jitter (isr s') = 0 /\
  ((length w' < 10)%nat ->
   _head (VanBusRx s') = _head (VanBusRx s) /\
   atBit (isr s') = Z.of_nat (length w') /\ readBits (isr s') = bits_value w' /\
   state d' = state d /\ size d' = size d /\ bytes d' = bytes d /\
   ack d' = ack d /\ ackTimerArmed s' = ackTimerArmed s) /\
  ((10 <= length w')%nat ->
   let cb := bits_value (take 10 w') in
   state d = VAN_RX_SEARCHING /\ cb = 0x03D \/ state d = VAN_RX_LOADING ->
   (Z.land cb 0x003 = 0 \/ size d + 1 < VAN_MAX_PACKET_SIZE) ->
   _head (VanBusRx s') = _head (VanBusRx s) /\
   atBit (isr s') = Z.of_nat (length w') - 10 /\
   readBits (isr s') = bits_value (drop 10 w') /\
   size d' = size d + 1 /\
   bytes d' = <[Z.to_nat (size d) := unit_byte cb]> (bytes d) /\
   ack d' = ack d /\
   state d' = (if Z.land cb 0x003 =? 0 then VAN_RX_WAITING_ACK else VAN_RX_LOADING) /\
   ackTimerArmed s' = (if Z.land cb 0x003 =? 0 then true else ackTimerArmed s)).
Proof.
  intros ((Hlen & Hh & Ht) & _) Hedge Hlow Hst Hnb Hn Hat Hrb Hw Heat w'.
  assert (Hlt : (_head (VanBusRx s) < length (pool (VanBusRx s)))%nat) by lia.
  assert (Hlw' : Z.of_nat (length w') = Z.of_nat (length w) + n).
  { unfold w'. rewrite length_app, length_replicate. lia. }
  assert (Heat' : (n >? 1) && (u32 (atBit (isr s) + n) =? 5) = false).
  { rewrite Hat, u32_small by lia. apply andb_false_iff.
    destruct (Z.gtb_spec n 1); [|by left]. right. apply Z.eqb_neq. lia. }
  assert (Ha1 : u32 (atBit (isr s) + n) = Z.of_nat (length w')).
  { rewrite Hat, u32_small by lia. lia. }
  assert (Hrb1 : Z.lor (u16 (Z.shiftl (readBits (isr s)) n))
                       (if pin =? VAN_LOGICAL_LOW
                        then u16 (Z.shiftl 1 n - 1) else 0)
                 = bits_value w').
  { rewrite Hrb, Hlow. by apply shift_in_run. }
  destruct (edge_queue_proj (pin =? VAN_BIT_RECESSIVE) (VanBusRx s) curr)
    as (Hp0 & Hh0 & _ & _ & _ & _ & _ & Hd0).
  cbv zeta in Hp0, Hh0, Hd0.
  unfold RxPinChangeIsr. cbv zeta.
  rewrite (proj2 (Z.eqb_neq _ _) Hedge), Hnb. cbn [fst snd].
  set (q0 := if pin =? VAN_BIT_RECESSIVE
             then set_lastMediaAccessAt (VanBusRx s) curr else VanBusRx s) in *.
  assert (Hlt0 : (_head q0 < length (pool q0))%nat) by (by rewrite Hp0, Hh0).
  rewrite Hd0, Heat', Ha1, Hrb1.
  assert (Hn9 : (n >? 9) = false) by (rewrite Z.gtb_ltb; apply Z.ltb_ge; lia).
  clearbody q0. rewrite Hn9.
  assert (Hhd : forall f q, (_head q < length (pool q))%nat ->
                  _head (upd_head f q) = _head q /\
                  (_head (upd_head f q) < length (pool (upd_head f q)))%nat /\
                  head_desc (upd_head f q) = f (head_desc q)).
  { intros f q Hq. rewrite head_desc_upd_head by done. q_simpl.
    by rewrite length_alter. }
  destruct (le_lt_dec 10 (length w')) as [Hge|Hlt'].
  - assert (Hgeb : (Z.of_nat (length w') >=? 10) = true)
      by (rewrite Z.geb_leb; apply Z.leb_le; lia).
    rewrite Hgeb, u32_small by lia.
    destruct (cut_unit w' Hge) as [Hcb Hrest]. cbv zeta in Hcb, Hrest.
    rewrite Hcb, Hrest.
    set (cb := bits_value (take 10 w')) in *.
    destruct Hst as [Hst|Hst]; rewrite Hst;
      rewrite ?bool_decide_true by done; rewrite ?bool_decide_false by done;
      repeat match goal with
             | |- context [if ?c then _ else _] =>
                 lazymatch type of c with bool => destruct c eqn:? end
             end;
      cbn [VanBusRx isr ackTimerArmed prevPinLevelChangedTo prev jitter atBit
           readBits];
      (split; [done|]); (split; [done|]); (split; [done|]);
      (split; [intros; lia|]); intros _ Hcase Hroom.
    all: repeat match goal with
                | H : context [head_desc (upd_head _ _)] |- _ =>
                    rewrite head_desc_upd_head in H
                      by (q_simpl; rewrite ?length_alter; exact Hlt0)
                | |- context [head_desc (upd_head _ _)] =>
                    rewrite head_desc_upd_head
                      by (q_simpl; rewrite ?length_alter; exact Hlt0)
                end.
    all: rewrite ?Hd0 in *.
    all: cbn [compose set_slot set_state set_size set_ack set_result set_bytes
              bytes size state result ack seqNo slot] in *.
    all: q_simpl.
    all: repeat match goal with
                | H : negb _ = true |- _ => apply negb_true_iff in H
                | H : negb _ = false |- _ => apply negb_false_iff in H
                | H : (_ =? _) = true |- _ => apply Z.eqb_eq in H
                | H : (_ =? _) = false |- _ => apply Z.eqb_neq in H
                | H : (_ >=? _) = true |- _ => apply Z.geb_le in H
                | H : (_ >=? _) = false |- _ =>
                    rewrite Z.geb_leb in H; apply Z.leb_gt in H
                end.
    all: try (exfalso; destruct Hcase as [[? ?]|?]; destruct Hroom;
              (congruence || lia)).
    all: split_and!; done.
  - assert (Hgeb : (Z.of_nat (length w') >=? 10) = false)
      by (rewrite Z.geb_leb; apply Z.leb_gt; lia).
    rewrite Hgeb.
    destruct Hst as [Hst|Hst]; rewrite Hst;
      cbn [VanBusRx isr ackTimerArmed prevPinLevelChangedTo prev jitter atBit
           readBits];
      rewrite head_desc_upd_head by exact Hlt0; rewrite Hd0; q_simpl;
      cbn [set_slot bytes size state ack];
      (split_and!; try done); intros; lia.
Qed.

Lemma length_unit_bits u : length (unit_bits u) = 10%nat.
Proof. reflexivity. Qed.

Lemma unit_bits_lookup u (i : nat) :
  (i < 10)%nat -> unit_bits u !! i = Some (Z.testbit u (9 - Z.of_nat i)).
Proof.
  intros Hi. do 10 (destruct i as [|i]; [reflexivity|]). lia.
Qed.

Lemma expand_cons r runs :
  expand (r :: runs) = replicate (Z.to_nat r.2) r.1 ++ expand runs.
Proof. reflexivity. Qed.

Lemma expand_nil v runs :
  alternating v runs = true -> expand runs = [] -> runs = [].
Proof.
  destruct runs as [|r rest]; [done|]. cbn [alternating]. intros Halt He.
  apply andb_true_iff in Halt as [Halt _].
  apply andb_true_iff in Halt as [_ Hn]. apply Z.leb_le in Hn.
  apply (f_equal length) in He.
  rewrite expand_cons, length_app, length_replicate in He. cbn in He. lia.
Qed.

(** The first Manchester bit of a unit, and what the second one implies
    for the end-of-data test. *)
Lemma unit_first_manchester u :
  manchester_unit u = true \/ eod_unit u = true ->
  0 <= u < 1024 /\ Z.testbit u 5 <> Z.testbit u 6.
Proof.
  unfold manchester_unit, eod_unit. intros [H|H];
    repeat (apply andb_true_iff in H as [H ?]);
    repeat match goal with
           | H : negb _ = true |- _ => apply negb_true_iff, eqb_false_iff in H
           | H : (_ <=? _) = true |- _ => apply Z.leb_le in H
           | H : (_ <? _) = true |- _ => apply Z.ltb_lt in H
           end; done.
Qed.

Lemma manchester_not_eod_all :
  allZ (fun u => implb (manchester_unit u) (negb (Z.land u 0x003 =? 0))) 1024
  = true.
Proof. vm_compute. reflexivity. Qed.

Lemma unit_second_manchester u :
  manchester_unit u = true ->
  Z.testbit u 0 <> Z.testbit u 1 /\ Z.land u 0x003 <> 0.
Proof.
  intros H. destruct (unit_first_manchester u (or_introl H)) as [Hu _].
  pose proof (allZ_spec _ _ manchester_not_eod_all u Hu) as Hne.
  cbv beta in Hne. rewrite H in Hne. cbn [implb] in Hne.
  apply negb_true_iff, Z.eqb_neq in Hne. split; [|done].
  unfold manchester_unit in H. repeat (apply andb_true_iff in H as [H ?]).
  by match goal with
     | H : negb (Bool.eqb (Z.testbit u 0) _) = true |- _ =>
         apply negb_true_iff, eqb_false_iff in H
     end.
Qed.

Lemma six_zeros_all :
  allZ (fun u =>
    implb (forallb (fun i => Bool.eqb (Z.testbit u i) (Z.testbit u 0))
                   [1; 2; 3; 4; 5]
           && (Z.land u 0x003 =? 0))
          (Z.land u 0x3F =? 0)) 1024
  = true.
Proof. vm_compute. reflexivity. Qed.

(** Bits of a stream that is at once a train of runs and a train of
    units. *)
Lemma run_lookup w n (v : bool) E (i : nat) :
  (length w <= i < length w + n)%nat ->
  (w ++ replicate n v ++ E) !! i = Some v.
Proof.
  intros Hi. rewrite lookup_app_r by lia. rewrite lookup_app_l.
  - apply lookup_replicate_2. lia.
  - rewrite length_replicate. lia.
Qed.

Lemma run_not_across w n (v : bool) E u Y (k : nat) :
  w ++ replicate n v ++ E = unit_bits u ++ Y ->
  (S k < 10)%nat ->
  Z.testbit u (9 - Z.of_nat (S k)) <> Z.testbit u (9 - Z.of_nat k) ->
  ~ (length w <= k /\ S k < length w + n)%nat.
Proof.
  intros Hs Hk Hne [H1 H2].
  assert (Ha : (w ++ replicate n v ++ E) !! k = Some v)
    by (apply run_lookup; lia).
  assert (Hb : (w ++ replicate n v ++ E) !! S k = Some v)
    by (apply run_lookup; lia).
  rewrite Hs in Ha, Hb.
  rewrite lookup_app_l, unit_bits_lookup in Ha, Hb
    by (rewrite ?length_unit_bits; lia).
  congruence.
Qed.

Lemma take_insert_snoc {A} (l : list A) k x :
  (k < length l)%nat -> take (S k) (<[k := x]> l) = take k l ++ [x].
Proof.
  intros Hk. rewrite (take_S_r _ _ x) by (by apply list_lookup_insert_eq).
  by rewrite take_insert_ge.
Qed.

Lemma state_after_unit (done : list Z) u :
  match done ++ [u] with
  | [] => VAN_RX_SEARCHING
  | _ => VAN_RX_LOADING
  end = VAN_RX_LOADING.
Proof. by destruct done. Qed.

(** One run of a well-formed frame. *)
Lemma decode_step high h s (v : bool) n done w u Y E t :
  high <> VAN_LOGICAL_LOW -> 0 < CPU_F_FACTOR <= 650 ->
  (0 < VAN_RX_QUEUE_SIZE)%nat -> 0 < VAN_MAX_PACKET_SIZE ->
  Reachable s ->
  decoding s h done w (if v then high else VAN_LOGICAL_LOW) t ->
  w ++ replicate (Z.to_nat n) v ++ E = unit_bits u ++ Y ->
  manchester_unit u = true \/ eod_unit u = true ->
  1 <= n <= 5 \/ (CPU_F_FACTOR = 1 /\ n = 6) ->
  (done = [] -> u = 0x03D) ->
  Z.of_nat (length done) + 1 <= VAN_MAX_PACKET_SIZE ->
  (Z.land u 0x003 <> 0 -> Z.of_nat (length done) + 1 < VAN_MAX_PACKET_SIZE) ->
  let t' := u32 (t + 640 * CPU_F_FACTOR * n) in
  let pin := if v then VAN_LOGICAL_LOW else high in
  let s' := ISR pin t' s in
  let w' := w ++ replicate (Z.to_nat n) v in
  let d' := head_desc (VanBusRx s') in
  Reachable s' /\ 0 <= t' < 4294967296 /\
  ((length w' < 10)%nat -> decoding s' h done w' pin t') /\
  ((10 <= length w')%nat ->
   drop 10 w' ++ E = Y /\
   if Z.land u 0x003 =? 0
   then _head (VanBusRx s') = h /\
        state d' = VAN_RX_WAITING_ACK /\ ackTimerArmed s' = true /\
        ack d' = VAN_NO_ACK /\
        size d' = Z.of_nat (length done + 1) /\
        take (length done + 1) (bytes d') = unit_byte <$> (done ++ [u])
   else decoding s' h (done ++ [u]) (drop 10 w') pin t').
Proof.
  intros Hhigh HF Hq Hmax Hreach Hdec Hs Hu Hn Hsof Hroom Hroom' t' pin s' w' d'.
  destruct Hdec as (Hh & Hst & Hsz & Hby & Hack & Hat & Hrb & Hw & Hj & Hp & Hpin).
  destruct (reachable_bounds s Hq Hmax Hreach) as [Hinv Hb].
  pose proof (bounded_lookup_head s Hinv Hb) as (Hl & _).
  destruct (unit_first_manchester u Hu) as [Hu10 Hm1].
  assert (Ht' : 0 <= t' < 4294967296) by apply u32_range.
  assert (Hedge : genuine_edge pin s).
  { unfold genuine_edge, pin. rewrite Hpin. destruct v; congruence. }
  assert (Hlow : (pin =? VAN_LOGICAL_LOW) = v).
  { unfold pin. destruct v; [apply Z.eqb_refl|by apply Z.eqb_neq]. }
  assert (Hn6 : 1 <= n <= 6) by lia.
  assert (Hnb : nBitsFromCycles CPU_F_FACTOR (u32 (t' - prev (isr s))) (jitter (isr s))
                = (n, 0)).
  { rewrite Hp, Hj. unfold t'. rewrite u32_elapsed by nia. by apply nominal_timing. }
  assert (Heat : ~ (1 < n /\ Z.of_nat (length w) + n = 5)).
  { intros [H1 H5].
    apply (run_not_across w (Z.to_nat n) v E u Y 3 Hs); [lia|done|lia]. }
  assert (Hsl : state (head_desc (VanBusRx s)) = VAN_RX_SEARCHING \/
                state (head_desc (VanBusRx s)) = VAN_RX_LOADING)
    by (rewrite Hst; destruct done; auto).
  destruct (RxPinChangeIsr_run pin t' s n v w Hinv Hedge Hlow Hsl Hnb Hn6 Hat Hrb Hw Heat)
    as (Hpin' & Hprev' & Hjit' & Hshort & Hlong).
  fold w' s' in Hpin', Hprev', Hjit', Hshort, Hlong. cbv zeta in Hshort, Hlong.
  fold d' in Hshort, Hlong.
  split; [|split; [done|split]].
  - apply (reachable_step _ _ _ _ _ s); [done|]. by apply step_pin.
  - intros Hlt. destruct (Hshort Hlt) as (H1 & H2 & H3 & H4 & H5 & H6 & H7 & H8).
    unfold decoding. fold d'. rewrite H1, H2, H3, H4, H5, H6, H7.
    split_and!; done.
  - intros Hge.
    assert (Hs' : w' ++ E = unit_bits u ++ Y) by (unfold w'; by rewrite <- app_assoc).
    assert (Htake : take 10 w' = unit_bits u).
    { apply (f_equal (take 10)) in Hs'.
      rewrite take_app_le in Hs' by done. by rewrite take_app_length' in Hs'. }
    assert (Hdrop : drop 10 w' ++ E = Y).
    { apply (f_equal (drop 10)) in Hs'.
      rewrite drop_app_le in Hs' by done. by rewrite drop_app_length' in Hs'. }
    split; [done|].
    rewrite Htake, bits_value_unit_bits in Hlong by done.
    assert (Hcase : state (head_desc (VanBusRx s)) = VAN_RX_SEARCHING /\ u = 0x03D \/
                    state (head_desc (VanBusRx s)) = VAN_RX_LOADING).
    { rewrite Hst. destruct done; [left; split; [done|by apply Hsof]|by right]. }
    assert (Hfit : Z.land u 0x003 = 0 \/
                   size (head_desc (VanBusRx s)) + 1 < VAN_MAX_PACKET_SIZE).
    { rewrite Hsz. destruct (Z.eq_dec (Z.land u 0x003) 0); [by left|right; auto]. }
    destruct (Hlong Hge Hcase Hfit) as (H1 & H2 & H3 & H4 & H5 & H6 & H7 & H8).
    assert (Hbytes : take (length done + 1) (bytes d') = unit_byte <$> (done ++ [u])).
    { rewrite H5, Hsz, Nat2Z.id, Nat.add_1_r, take_insert_snoc by lia.
      by rewrite Hby, fmap_app. }
    assert (Hsize : size d' = Z.of_nat (length done + 1)) by lia.
    assert (Hlw : length w' = (length w + Z.to_nat n)%nat)
      by (unfold w'; by rewrite length_app, length_replicate).
    destruct (Z.land u 0x003 =? 0).
    + rewrite H1, H6. split_and!; done.
    + unfold decoding. fold d'. rewrite length_app. cbn [length].
      rewrite state_after_unit, H1, H6, H2, H3, length_drop.
      split_and!; try done; lia.
Qed.

Lemma run_bit w n (v : bool) E u Y (i : nat) :
  w ++ replicate n v ++ E = unit_bits u ++ Y ->
  (length w <= i < length w + n)%nat -> (i < 10)%nat ->
  Z.testbit u (9 - Z.of_nat i) = v.
Proof.
  intros Hs Hi H10.
  assert (Ha : (w ++ replicate n v ++ E) !! i = Some v) by (by apply run_lookup).
  rewrite Hs, lookup_app_l, unit_bits_lookup in Ha
    by (rewrite ?length_unit_bits; lia).
  by injection Ha.
Qed.

Lemma run_not_across_next w n (v : bool) E u u2 Y :
  w ++ replicate n v ++ E = unit_bits u ++ unit_bits u2 ++ Y ->
  Z.testbit u2 5 <> Z.testbit u2 6 ->
  ~ (length w <= 13 /\ 14 < length w + n)%nat.
Proof.
  intros Hs Hne [H1 H2].
  assert (Ha : (w ++ replicate n v ++ E) !! 13%nat = Some v)
    by (apply run_lookup; lia).
  assert (Hb : (w ++ replicate n v ++ E) !! 14%nat = Some v)
    by (apply run_lookup; lia).
  rewrite Hs in Ha, Hb.
  rewrite lookup_app_r, lookup_app_l in Ha, Hb
    by (rewrite ?length_unit_bits; lia).
  rewrite length_unit_bits in Ha, Hb.
  change (13 - 10)%nat with 3%nat in Ha. change (14 - 10)%nat with 4%nat in Hb.
  rewrite unit_bits_lookup in Ha, Hb by lia.
  change (9 - Z.of_nat 3) with 6 in Ha. change (9 - Z.of_nat 4) with 5 in Hb.
  congruence.
Qed.

(** The runs of a well-formed frame, from any point inside it to its end
    of data. *)
Lemma decode_runs high eod h :
  high <> VAN_LOGICAL_LOW -> 0 < CPU_F_FACTOR <= 650 ->
  (0 < VAN_RX_QUEUE_SIZE)%nat -> 0 < VAN_MAX_PACKET_SIZE ->
  eod_unit eod = true -> CPU_F_FACTOR = 1 \/ Z.land eod 0x3F <> 0 ->
  forall runs s (v : bool) done w data t,
    Reachable s ->
    decoding s h done w (if v then high else VAN_LOGICAL_LOW) t ->
    0 <= t < 4294967296 ->
    alternating v runs = true ->
    w ++ expand runs = concat (unit_bits <$> (data ++ [eod])) ->
    forallb manchester_unit data = true ->
    (done = [] -> exists data', data = 0x03D :: data') ->
    Z.of_nat (length done + length data + 1) <= VAN_MAX_PACKET_SIZE ->
    let s' := feed_runs CPU_F_FACTOR VAN_MAX_PACKET_SIZE VAN_RX_QUEUE_SIZE
                        VAN_LOGICAL_LOW VAN_BIT_RECESSIVE high runs t s in
    let d' := head_desc (VanBusRx s') in
    Reachable s' /\ _head (VanBusRx s') = h /\
    state d' = VAN_RX_WAITING_ACK /\ ackTimerArmed s' = true /\
    ack d' = VAN_NO_ACK /\
    size d' = Z.of_nat (length done + length data + 1) /\
    take (length done + length data + 1) (bytes d')
    = unit_byte <$> (done ++ data ++ [eod]).
Proof.
  intros Hhigh HF Hq Hmax Heod H6.
  induction runs as [|[v' n] rest IH];
    intros s v done w data t Hreach Hdec Ht Halt Hs Hdata Hsof Hroom.
  { exfalso. destruct Hdec as (_ & _ & _ & _ & _ & _ & _ & Hw & _).
    unfold expand in Hs. cbn in Hs. rewrite app_nil_r in Hs.
    apply (f_equal length) in Hs.
    rewrite fmap_app, concat_app, length_app in Hs. cbn in Hs. lia. }
  cbn [alternating fst snd] in Halt.
  apply andb_true_iff in Halt as [Halt Halt'].
  apply andb_true_iff in Halt as [Hv Hn].
  apply eqb_prop in Hv. subst v'. apply Z.leb_le in Hn.
  rewrite expand_cons in Hs. cbn [fst snd] in Hs.
  pose proof Hdec as (_ & _ & _ & _ & _ & _ & _ & Hw & _).
  cbn [feed_runs fst snd]. cbv zeta.
  set (t' := u32 (t + 640 * CPU_F_FACTOR * n)).
  set (pin := if v then VAN_LOGICAL_LOW else high).
  assert (Hlev : forall s0 dn w0,
            decoding s0 h dn w0 pin t' ->
            decoding s0 h dn w0 (if negb v then high else VAN_LOGICAL_LOW) t').
  { intros s0 dn w0 H. replace (if negb v then high else VAN_LOGICAL_LOW) with pin; [done|].
    unfold pin. by destruct v. }
  destruct data as [|u data'].
  - (* the unit being read is the last one *)
    assert (Hs0 : w ++ replicate (Z.to_nat n) v ++ expand rest = unit_bits eod ++ [])
      by done.
    destruct (unit_first_manchester eod (or_intror Heod)) as [Hu10 Hm1].
    assert (Hlen : (length w + Z.to_nat n + length (expand rest) = 10)%nat).
    { pose proof (f_equal length Hs0) as Hl.
      rewrite !length_app, length_replicate, length_unit_bits in Hl.
      cbn [length] in Hl. lia. }
    pose proof (run_not_across w (Z.to_nat n) v (expand rest) eod [] 3 Hs0
                  ltac:(lia) Hm1) as Hx3.
    assert (Hland : Z.land eod 0x003 = 0).
    { unfold eod_unit in Heod. apply andb_true_iff in Heod as [_ Heod].
      by apply Z.eqb_eq. }
    assert (Hbound : 1 <= n <= 5 \/ (CPU_F_FACTOR = 1 /\ n = 6)).
    { destruct (Z.le_gt_cases n 5) as [H5|H5]; [left; lia|right].
      assert (Hn6 : n = 6) by lia. subst n. split; [|done].
      destruct H6 as [H6|H6]; [done|]. exfalso. apply H6.
      assert (Hw4 : length w = 4%nat) by lia.
      assert (Hbit : forall i : nat, (4 <= i < 10)%nat ->
                Z.testbit eod (9 - Z.of_nat i) = v).
      { intros i Hi. apply (run_bit w (Z.to_nat 6) v (expand rest) eod [] i Hs0); lia. }
      pose proof (allZ_spec _ _ six_zeros_all eod Hu10) as Hsix.
      cbv beta in Hsix. cbn [forallb] in Hsix.
      assert (B0 : Z.testbit eod 0 = v) by exact (Hbit 9%nat ltac:(lia)).
      assert (B1 : Z.testbit eod 1 = v) by exact (Hbit 8%nat ltac:(lia)).
      assert (B2 : Z.testbit eod 2 = v) by exact (Hbit 7%nat ltac:(lia)).
      assert (B3 : Z.testbit eod 3 = v) by exact (Hbit 6%nat ltac:(lia)).
      assert (B4 : Z.testbit eod 4 = v) by exact (Hbit 5%nat ltac:(lia)).
      assert (B5 : Z.testbit eod 5 = v) by exact (Hbit 4%nat ltac:(lia)).
      rewrite B0, B1, B2, B3, B4, B5 in Hsix.
      rewrite eqb_reflx, Hland in Hsix. cbn in Hsix. by apply Z.eqb_eq. }
    destruct (decode_step high h s v n done w eod [] (expand rest) t
                Hhigh HF Hq Hmax Hreach Hdec Hs0 (or_intror Heod) Hbound)
      as (Hreach' & Ht' & Hshort & Hlong).
    { intros Hd. destruct (Hsof Hd) as [? ?]. done. }
    { cbn [length] in Hroom. lia. }
    { intros Hne. done. }
    cbv zeta in Hshort, Hlong. fold t' pin in Hreach', Ht', Hshort, Hlong.
    destruct (le_lt_dec 10 (length (w ++ replicate (Z.to_nat n) v))) as [Hge|Hlt].
    + destruct (Hlong Hge) as [Hdrop Hfin].
      rewrite (proj2 (Z.eqb_eq _ _) Hland) in Hfin.
      assert (Hrest : rest = []).
      { apply (expand_nil (negb v)); [done|].
        by destruct (app_eq_nil _ _ Hdrop). }
      subst rest. cbn [feed_runs length] in *.
      rewrite Nat.add_0_r. by split.
    + apply (IH _ (negb v) done _ [] t' Hreach' (Hlev _ _ _ (Hshort Hlt)) Ht' Halt');
        try done.
      by rewrite <- app_assoc.
  - (* a unit that is followed by another *)
    cbn [forallb] in Hdata. apply andb_true_iff in Hdata as [Hu Hdata'].
    destruct (unit_first_manchester u (or_introl Hu)) as [Hu10 Hm1].
    destruct (unit_second_manchester u Hu) as [Hm2 Hnot_eod].
    assert (Hnext : exists u2 Y, concat (unit_bits <$> (data' ++ [eod]))
                                 = unit_bits u2 ++ Y /\
                                 Z.testbit u2 5 <> Z.testbit u2 6).
    { destruct data' as [|u2 data''].
      - exists eod, []. split; [done|].
        by destruct (unit_first_manchester eod (or_intror Heod)).
      - exists u2, (concat (unit_bits <$> (data'' ++ [eod]))). split; [done|].
        cbn [forallb] in Hdata'. apply andb_true_iff in Hdata' as [Hu2 _].
        by destruct (unit_first_manchester u2 (or_introl Hu2)). }
    destruct Hnext as (u2 & Y & HY & Hm1').
    assert (Hs0 : w ++ replicate (Z.to_nat n) v ++ expand rest
                  = unit_bits u ++ concat (unit_bits <$> (data' ++ [eod])))
      by done.
    pose proof (run_not_across w (Z.to_nat n) v (expand rest) u _ 3 Hs0
                  ltac:(lia) Hm1) as Hx3.
    pose proof (run_not_across w (Z.to_nat n) v (expand rest) u _ 8 Hs0
                  ltac:(lia) ltac:(by apply not_eq_sym)) as Hx8.
    assert (Hx13 : ~ (length w <= 13 /\ 14 < length w + Z.to_nat n)%nat).
    { apply (run_not_across_next w (Z.to_nat n) v (expand rest) u u2 Y);
        [by rewrite <- HY|done]. }
    assert (Hbound : 1 <= n <= 5 \/ (CPU_F_FACTOR = 1 /\ n = 6)) by (left; lia).
    destruct (decode_step high h s v n done w u _ (expand rest) t
                Hhigh HF Hq Hmax Hreach Hdec Hs0 (or_introl Hu) Hbound)
      as (Hreach' & Ht' & Hshort & Hlong).
    { intros Hd. destruct (Hsof Hd) as [? Heq]. by injection Heq. }
    { cbn [length] in Hroom. lia. }
    { intros _. cbn [length] in Hroom. lia. }
    cbv zeta in Hshort, Hlong. fold t' pin in Hreach', Ht', Hshort, Hlong.
    destruct (le_lt_dec 10 (length (w ++ replicate (Z.to_nat n) v))) as [Hge|Hlt].
    + destruct (Hlong Hge) as [Hdrop Hnext].
      rewrite (proj2 (Z.eqb_neq _ _) Hnot_eod) in Hnext.
      destruct (IH _ (negb v) (done ++ [u]) _ data' t' Hreach' (Hlev _ _ _ Hnext)
                  Ht' Halt' Hdrop Hdata') as (? & ? & ? & ? & ? & Hsize & Htake).
      { intros Hnil. by destruct (app_eq_nil _ _ Hnil). }
      { rewrite length_app. cbn [length] in *. lia. }
      rewrite length_app in Hsize, Htake. cbn [length] in *.
      replace (length done + 1 + length data' + 1)%nat
        with (length done + S (length data') + 1)%nat in Hsize, Htake by lia.
      rewrite <- app_assoc in Htake. by split_and!.
    + apply (IH _ (negb v) done _ (u :: data') t' Hreach' (Hlev _ _ _ (Hshort Hlt))
                Ht' Halt'); try done.
      * by rewrite <- app_assoc.
      * cbn [forallb]. by rewrite Hu, Hdata'.
Qed.

Lemma nBitsFromCycles_idle nCycles jitter :
  3665 * CPU_F_FACTOR <= u32 (nCycles + jitter) ->
  (nBitsFromCycles CPU_F_FACTOR nCycles jitter).2 = 0.
Proof.
  intros H. pose proof (u32_range (nCycles + jitter)) as Hr.
  unfold nBitsFromCycles.
  repeat match goal with
         | |- context [?a <? ?b] => destruct (Z.ltb_spec a b); [lia|]
         end.
  done.
Qed.

(** The edge that starts a frame: the bus goes low while the head slot is
    vacant, after an idle time longer than the 5-bit window. *)
Lemma RxPinChangeIsr_frame_start t0 s :
  Inv s ->
  state (head_desc (VanBusRx s)) = VAN_RX_VACANT ->
  prevPinLevelChangedTo (isr s) <> VAN_LOGICAL_LOW ->
  3665 * CPU_F_FACTOR <= u32 (u32 (t0 - prev (isr s)) + jitter (isr s)) ->
  decoding (ISR VAN_LOGICAL_LOW t0 s) (_head (VanBusRx s)) [] []
           VAN_LOGICAL_LOW t0.
Proof.
  intros ((Hlen & Hh & Ht) & _) Hst Hpin Hidle.
  destruct (edge_queue_proj (VAN_LOGICAL_LOW =? VAN_BIT_RECESSIVE) (VanBusRx s) t0)
    as (Hp0 & Hh0 & _ & _ & _ & _ & _ & Hd0).
  cbv zeta in Hp0, Hh0, Hd0.
  unfold RxPinChangeIsr. cbv zeta.
  rewrite (proj2 (Z.eqb_neq _ _) (not_eq_sym Hpin)).
  set (q0 := if VAN_LOGICAL_LOW =? VAN_BIT_RECESSIVE
             then set_lastMediaAccessAt (VanBusRx s) t0 else VanBusRx s) in *.
  assert (Hlt0 : (_head q0 < length (pool q0))%nat) by (rewrite Hp0, Hh0; lia).
  clearbody q0.
  rewrite Hd0, Hst, Z.eqb_refl, nBitsFromCycles_idle by done.
  unfold decoding.
  cbn [VanBusRx isr prevPinLevelChangedTo prev jitter atBit readBits].
  rewrite head_desc_upd_head by (q_simpl; by rewrite length_alter).
  q_simpl. cbn [set_size set_ack set_state state size ack bytes length].
  split_and!; try done. lia.
Qed.

Lemma feed_runs_tail high runs t s :
  tail (VanBusRx (feed_runs CPU_F_FACTOR VAN_MAX_PACKET_SIZE VAN_RX_QUEUE_SIZE
                            VAN_LOGICAL_LOW VAN_BIT_RECESSIVE high runs t s))
  = tail (VanBusRx s).
Proof.
  revert t s. induction runs as [|r runs IH]; intros t s; [done|].
  cbn [feed_runs]. cbv zeta. rewrite IH.
  by destruct (RxPinChangeIsr_shape (if r.1 then VAN_LOGICAL_LOW else high)
                 (u32 (t + 640 * CPU_F_FACTOR * r.2)) s) as (_ & ? & _).
Qed.

Lemma manchester_start_of_frame : manchester_unit 0x03D = true.
Proof. reflexivity. Qed.

(** X20. A well-formed frame is received as it was sent. Take a frame of
    ten-bit units: the start-of-frame unit 0x03D, data units whose two
    Manchester bits are in order, and a last unit with its first
    Manchester bit in order and its last two bits zero (end of data). Let
    its bits arrive as alternating runs at the nominal rate of 640 cycles
    per bit at 80 MHz, after the bus has been idle for longer than the
    5-bit window, while the head slot is vacant and the queue is empty.
    Then, provided the frame fits the buffer and either the clock factor
    is 1 or the last unit does not end in six zero bits, the handler ends
    up waiting for the acknowledge with the timeout armed, the head slot
    holds exactly the bytes of the units (the start byte 0x0E first), no
    acknowledge and result OK; and once the timeout has fired, [Receive]
    returns that frame, marked DONE. *)
Theorem well_formed_frame_is_received s high t0 data eod runs pkt :
  high <> VAN_LOGICAL_LOW -> 0 < CPU_F_FACTOR <= 650 ->
  (0 < VAN_RX_QUEUE_SIZE)%nat -> 0 < VAN_MAX_PACKET_SIZE ->
  Reachable s ->
  state (head_desc (VanBusRx s)) = VAN_RX_VACANT ->
  tail (VanBusRx s) = _head (VanBusRx s) ->
  prevPinLevelChangedTo (isr s) <> VAN_LOGICAL_LOW ->
  0 <= t0 < 4294967296 ->
  3665 * CPU_F_FACTOR <= u32 (u32 (t0 - prev (isr s)) + jitter (isr s)) ->
  forallb manchester_unit data = true -> eod_unit eod = true ->
  CPU_F_FACTOR = 1 \/ Z.land eod 0x3F <> 0 ->
  alternating false runs = true ->
  expand runs = concat (unit_bits <$> (0x03D :: data ++ [eod])) ->
  Z.of_nat (length data + 2) <= VAN_MAX_PACKET_SIZE ->
  let s1 := feed_runs CPU_F_FACTOR VAN_MAX_PACKET_SIZE VAN_RX_QUEUE_SIZE
                      VAN_LOGICAL_LOW VAN_BIT_RECESSIVE high runs t0
                      (ISR VAN_LOGICAL_LOW t0 s) in
  let d := head_desc (VanBusRx s1) in
  let frame := 0x0E :: (unit_byte <$> data) ++ [unit_byte eod] in
  Reachable s1 /\
  _head (VanBusRx s1) = _head (VanBusRx s) /\
  state d = VAN_RX_WAITING_ACK /\ ackTimerArmed s1 = true /\
  size d = Z.of_nat (length frame) /\
  take (length frame) (bytes d) = frame /\
  ack d = VAN_NO_ACK /\ result d = VAN_RX_PACKET_OK /\
  (Receive VAN_RX_QUEUE_SIZE (VanBusRx (WaitAckIsr VAN_RX_QUEUE_SIZE s1)) pkt None).1.1
  = (true, set_state d VAN_RX_DONE).
Proof.
  intros Hhigh HF Hq Hmax Hreach Hst Htail Hpin Ht0 Hidle Hdata Heod H6 Halt Hs
         Hroom s1 d frame.
  pose proof (reachable_inv CPU_F_FACTOR VAN_MAX_PACKET_SIZE VAN_RX_QUEUE_SIZE
                            VAN_LOGICAL_LOW VAN_BIT_RECESSIVE s Hq Hreach) as Hinv.
  pose proof (RxPinChangeIsr_frame_start t0 s Hinv Hst Hpin Hidle) as Hdec.
  assert (Hreach0 : Reachable (ISR VAN_LOGICAL_LOW t0 s)).
  { apply (reachable_step _ _ _ _ _ s); [done|]. by apply step_pin. }
  destruct (decode_runs high eod (_head (VanBusRx s)) Hhigh HF Hq Hmax Heod H6
              runs (ISR VAN_LOGICAL_LOW t0 s) false [] [] (0x03D :: data) t0
              Hreach0 Hdec Ht0 Halt Hs)
    as (Hreach1 & Hh1 & Hst1 & Harm1 & Hack1 & Hsz1 & Hby1).
  { cbn [forallb]. by rewrite manchester_start_of_frame. }
  { intros _. by exists data. }
  { cbn [length]. lia. }
  fold s1 in Hreach1, Hh1, Hst1, Harm1, Hack1, Hsz1, Hby1. cbv zeta in *.
  fold d in Hst1, Hack1, Hsz1, Hby1.
  assert (Hlenf : length frame = (length data + 2)%nat).
  { unfold frame. cbn [length]. rewrite length_app, length_fmap. cbn. lia. }
  destruct (reachable_bounds s1 Hq Hmax Hreach1) as [Hinv1 Hb1].
  pose proof (bounded_lookup_head s1 Hinv1 Hb1) as (_ & _ & _ & _ & _ & Hres & _).
  fold d in Hres.
  split_and!; try done.
  - rewrite Hsz1, Hlenf. cbn [length]. f_equal. lia.
  - rewrite Hlenf. cbn [length app] in Hby1.
    replace (length data + 2)%nat with (0 + S (length data) + 1)%nat by lia.
    rewrite Hby1. unfold frame. cbn [fmap list_fmap app].
    by rewrite fmap_app.
  - apply Hres. by rewrite Hst1.
  - destruct Hinv1 as ((Hlen1 & Hhd1 & _) & _).
    assert (Htail1 : tail (VanBusRx s1) = _head (VanBusRx s1)).
    { rewrite Hh1. unfold s1. rewrite feed_runs_tail.
      destruct (RxPinChangeIsr_shape VAN_LOGICAL_LOW t0 s) as (_ & -> & _). done. }
    unfold WaitAckIsr, SetTxBitTimer. cbv zeta. cbn [VanBusRx].
    assert (Htd : tail_desc (_AdvanceHead VAN_RX_QUEUE_SIZE (VanBusRx s1))
                  = set_state d VAN_RX_DONE).
    { unfold tail_desc. q_simpl. rewrite Htail1.
      by rewrite list_lookup_total_alter_eq by lia. }
    unfold Receive, Available. rewrite Htd. cbn [set_state state].
    rewrite bool_decide_true by done. cbn [negb fst]. done.
Qed.

Lemma feed_runs_reachable high runs t s :
  Reachable s ->
  Reachable (feed_runs CPU_F_FACTOR VAN_MAX_PACKET_SIZE VAN_RX_QUEUE_SIZE
                       VAN_LOGICAL_LOW VAN_BIT_RECESSIVE high runs t s).
Proof.
  revert t s. induction runs as [|r runs IH]; intros t s Hs; [done|].
  cbn [feed_runs]. cbv zeta. apply IH.
  apply (reachable_step _ _ _ _ _ s); [done|]. apply step_pin, u32_range.
Qed.

(** X21. With a clock factor of 2 or more, no run longer than the 5-bit
    window is read as it is: when the head slot is loading a frame, a
    genuine edge that ends a run whose cycle count (carried jitter
    included, no 32-bit wrap-around) is past the window completes the
    slot with the result ERROR_NBITS and moves the head on. This includes
    the run of six equal bits that an end of data may contain. *)
Theorem long_run_fails_frame_at_double_clock pin curr s :
  2 <= CPU_F_FACTOR <= 650 -> (0 < VAN_RX_QUEUE_SIZE)%nat ->
  Reachable s ->
  state (head_desc (VanBusRx s)) = VAN_RX_LOADING ->
  genuine_edge pin s ->
  3665 * CPU_F_FACTOR <= u32 (curr - prev (isr s)) + jitter (isr s) ->
  u32 (curr - prev (isr s)) + jitter (isr s) < 4294967296 - 300 * CPU_F_FACTOR ->
  let h := _head (VanBusRx s) in
  let q' := VanBusRx (ISR pin curr s) in
  9 < run_length CPU_F_FACTOR curr s /\
  state (pool q' !!! h) = VAN_RX_DONE /\
  result (pool q' !!! h) = VAN_RX_ERROR_NBITS /\
  size (pool q' !!! h) = size (head_desc (VanBusRx s)) /\
  _head q' = next h.
Proof.
  intros HF Hq Hreach Hst Hedge Hlo Hhi h q'.
  pose proof (reachable_inv CPU_F_FACTOR VAN_MAX_PACKET_SIZE VAN_RX_QUEUE_SIZE
                            VAN_LOGICAL_LOW VAN_BIT_RECESSIVE s Hq Hreach)
    as ((Hlen & Hh & _) & _).
  assert (Hrun : 9 < run_length CPU_F_FACTOR curr s).
  { unfold run_length.
    rewrite nBitsFromCycles_effective, u32_small by lia.
    destruct (nBitsFromCycles_fallback CPU_F_FACTOR
                (u32 (curr - prev (isr s)) + jitter (isr s)))
      as (-> & H6 & _); [lia..|].
    cbn [fst]. nia. }
  split; [done|].
  unfold q'. rewrite RxPinChangeIsr_long_run_loading by (done || lia).
  destruct (edge_queue_proj (pin =? VAN_BIT_RECESSIVE) (VanBusRx s) curr)
    as (Hp0 & Hh0 & _ & _ & _ & _ & _ & Hd0).
  cbv zeta in Hp0, Hh0, Hd0.
  set (q0 := if pin =? VAN_BIT_RECESSIVE
             then set_lastMediaAccessAt (VanBusRx s) curr else VanBusRx s) in *.
  cbn [VanBusRx]. q_simpl. rewrite Hh0, Hp0, !list_alter_alter_eq.
  rewrite list_lookup_total_alter_eq by (unfold h; lia).
  fold (head_desc (VanBusRx s)).
  by split_and!.
Qed.

End ReceiverBounds.

(** ** The further properties of the receiver at concrete states *)

Lemma example_loading_fast_reachable : reachable 2 32 3 0 1 example_loading_fast.
Proof.
  apply feed_runs_reachable.
  apply (reachable_step _ _ _ _ _ example_system).
  - apply reachable_power_on. exact example_system_power_on.
  - apply step_pin. lia.
Qed.

Lemma frame_buffer_never_overflows_witness :
  (forall d, d ∈ pool (VanBusRx example_searching) ->
     Z.of_nat (length (bytes d)) = 32 /\ 0 <= size d <= 32) /\
  (let d := head_desc (VanBusRx example_searching) in
   state d = VAN_RX_SEARCHING \/ state d = VAN_RX_LOADING ->
   0 <= size d /\ (Z.to_nat (size d) < length (bytes d))%nat) /\
  0 <= atBit (isr example_searching) <= 9 /\
  0 <= readBits (isr example_searching) < 65536.
Proof.
  apply (frame_buffer_never_overflows 1 32 3 0 1 example_searching).
  - lia.
  - lia.
  - exact example_searching_reachable.
Defined.

Lemma received_frame_is_complete_witness :
  let pkt' := tail_desc (VanBusRx example_full) in
  state pkt' = VAN_RX_DONE /\
  slot pkt' = Z.of_nat (tail (VanBusRx example_full)) /\
  1 <= size pkt' <= 32 /\
  Z.of_nat (length (bytes pkt')) = 32 /\
  bytes pkt' !! 0%nat = Some 0x0E /\
  result pkt' <> VAN_RX_ERROR_MANCHESTER.
Proof.
  intros pkt'.
  apply (received_frame_is_complete 1 32 3 0 1 example_full empty_desc None pkt' None
           (Receive 3 (VanBusRx example_full) empty_desc None).2).
  - lia.
  - lia.
  - exact example_full_reachable.
  - vm_compute. reflexivity.
Defined.

Lemma ack_timer_armed_iff_waiting_ack_witness :
  ackTimerArmed example_waiting_ack = true <->
  state (head_desc (VanBusRx example_waiting_ack)) = VAN_RX_WAITING_ACK.
Proof.
  apply (ack_timer_armed_iff_waiting_ack 1 32 3 0 1 example_waiting_ack).
  - lia.
  - lia.
  - exact example_waiting_ack_reachable.
Defined.

Lemma done_slot_changed_only_by_Receive_witness :
  let s := example_full in
  let d := head_desc (VanBusRx s) in
  (forall pin curr,
     pool (VanBusRx (RxPinChangeIsr 1 32 3 0 1 pin curr s)) !! 0%nat = Some d) /\
  pool (VanBusRx (WaitAckIsr 3 s)) !! 0%nat = Some d /\
  (forall pkt, pool (CheckCrcAndRepair (VanBusRx s) pkt).2 !! 0%nat = Some d) /\
  tail (VanBusRx s) = 0%nat /\
  (forall pkt isQueueOverrun,
     let r := Receive 3 (VanBusRx s) pkt isQueueOverrun in
     r.1.1 = (true, d) /\ pool r.2 !! 0%nat = Some (Init d)).
Proof.
  intros s d.
  destruct (done_slot_changed_only_by_Receive 1 32 3 0 1 example_full 0 d)
    as (Hpin & Htimer & Hrepair & Hreceive).
  - lia.
  - exact example_full_reachable.
  - vm_compute. reflexivity.
  - vm_compute. reflexivity.
  - split; [exact Hpin|]. split; [exact Htimer|]. split; [exact Hrepair|].
    split; [reflexivity|]. intros pkt o. exact (Hreceive pkt o).
Defined.

Lemma well_formed_frame_is_received_witness :
  let s1 := feed_runs 1 32 3 0 1 1 example_frame_runs 100000
                      (RxPinChangeIsr 1 32 3 0 1 0 100000 example_system) in
  let d := head_desc (VanBusRx s1) in
  let frame := 0x0E :: (unit_byte <$> [709]) ++ [unit_byte 340] in
  reachable 1 32 3 0 1 s1 /\
  _head (VanBusRx s1) = _head (VanBusRx example_system) /\
  state d = VAN_RX_WAITING_ACK /\ ackTimerArmed s1 = true /\
  size d = Z.of_nat (length frame) /\
  take (length frame) (bytes d) = frame /\
  ack d = VAN_NO_ACK /\ result d = VAN_RX_PACKET_OK /\
  (Receive 3 (VanBusRx (WaitAckIsr 3 s1)) empty_desc None).1.1
  = (true, set_state d VAN_RX_DONE).
Proof.
  apply (well_formed_frame_is_received 1 32 3 0 1 example_system 1 100000 [709] 340
           example_frame_runs empty_desc).
  - lia.
  - lia.
  - lia.
  - lia.
  - apply reachable_power_on. exact example_system_power_on.
  - reflexivity.
  - reflexivity.
  - simpl. lia.
  - lia.
  - vm_compute. discriminate.
  - reflexivity.
  - reflexivity.
  - left. reflexivity.
  - reflexivity.
  - reflexivity.
  - simpl. lia.
Defined.

Lemma long_run_fails_frame_at_double_clock_witness :
  let s := example_loading_fast in
  let h := _head (VanBusRx s) in
  let q' := VanBusRx (RxPinChangeIsr 2 32 3 0 1 1 120480 s) in
  9 < run_length 2 120480 s /\
  state (pool q' !!! h) = VAN_RX_DONE /\
  result (pool q' !!! h) = VAN_RX_ERROR_NBITS /\
  size (pool q' !!! h) = size (head_desc (VanBusRx s)) /\
  _head q' = (if decide (S h = 3%nat) then 0%nat else S h).
Proof.
  apply (long_run_fails_frame_at_double_clock 2 32 3 0 1 1 120480 example_loading_fast).
  - lia.
  - lia.
  - exact example_loading_fast_reachable.
  - vm_compute. reflexivity.
  - vm_compute. discriminate.
  - vm_compute. discriminate.
  - vm_compute. reflexivity.
Defined.
